(** * A shallow embedding of the spreadsheet engine (cpp-spreadsheet)

    The development follows [spreadsheet/formula.cpp], [spreadsheet/cell.cpp]
    and [spreadsheet/sheet.cpp].  Cells live in a resizable table of optional
    slots; a [Cell*] of the program is modelled by the position of the slot
    that owns the cell ([nullptr] is [None]); C++ exceptions are an explicit
    outcome next to the sheet state reached when they are thrown.  Doubles
    are the kernel's binary64 floats. *)

From Stdlib Require Import ZArith Floats Ascii String Sorted.
From stdpp Require Import gmap strings list.

Local Open Scope Z_scope.

(** ** Positions, sizes and formula errors (common.h) *)

Record Position := mkPosition { row : Z; col : Z }.

Record Size := mkSize { rows : Z; cols : Z }.

#[global] Instance Position_eq_dec : EqDecision Position.
Proof. solve_decision. Defined.

#[global] Instance Position_countable : Countable Position.
Proof.
  apply (inj_countable' (fun p => (row p, col p)) (fun rc => mkPosition rc.1 rc.2)).
  by intros [??].
Defined.

(** Modelled from the spec: [Position::MAX_ROWS], [Position::MAX_COLS],
    [Position::IsValid] and [Position::operator<] are declared in common.h,
    which is not part of the sources; the spec gives the bound 16384 and the
    lexicographic (row, col) order. *)
Definition MAX_ROWS : Z := 16384.
Definition MAX_COLS : Z := 16384.

Definition IsValid (p : Position) : bool :=
  (0 <=? row p) && (row p <? MAX_ROWS) && (0 <=? col p) && (col p <? MAX_COLS).

Definition Position_ltb (a b : Position) : bool :=
  (row a <? row b) || ((row a =? row b) && (col a <? col b)).

Definition Position_lt (a b : Position) : Prop :=
  row a < row b \/ (row a = row b /\ col a < col b).

(** Modelled from the spec: the default-constructed [Position] of common.h.
    [Cell::pos_] is never assigned, so every cell carries this value. *)
Definition Position_default : Position := mkPosition 0 0.

Inductive Category := Ref | Value | Div0.

Record FormulaError := mkFormulaError { GetCategory : Category }.

(** Modelled from the spec: the sign characters of common.h. *)
Definition FORMULA_SIGN : ascii := "="%char.
Definition ESCAPE_SIGN : ascii := "'"%char.

(** [operator<<(std::ostream&, FormulaError)], formula.cpp line 12: the text
    appended to the stream. *)
Definition FormulaError_print (output : string) (fe : FormulaError) : string :=
  (output ++ "#DIV/0!")%string.

(** ** Expressions (FormulaAST.h) *)

Inductive UnaryOp := UnaryPlus | UnaryMinus.
Inductive BinaryOp := Add | Subtract | Multiply | Divide.

(** Modelled from the spec: the node classes of [ASTImpl::Expr] live in
    FormulaAST.cpp, which is not part of the sources; section 4.1 of the
    spec lists literals, cell references, unary [+ -] and binary [+ - * /]. *)
Inductive Expr :=
| NumberExpr (value : float)
| CellExpr (cell : Position)
| UnaryOpExpr (op : UnaryOp) (operand : Expr)
| BinaryOpExpr (op : BinaryOp) (lhs rhs : Expr).

Record FormulaAST := mkFormulaAST {
  root_expr_ : Expr;
  cells_of : list Position   (* [cells_], returned by [GetCells()] *)
}.

(** The collaborators the engine calls but does not define: the formula
    parser and printer (FormulaAST.cpp) and the extraction of a double from
    a [std::istringstream] over a string, [input >> digit], of the C++
    library.  [ExtractDouble str] is [None] when the extraction fails, and
    otherwise the number read together with the characters of [str] that the
    extraction left unread. *)
Class Collaborators := {
  ParseFormulaAST : string -> option FormulaAST;   (* [None]: the parser threw *)
  PrintFormula : FormulaAST -> string;
  ExtractDouble : string -> option (float * string)
}.

(** ** Cells (cell.h) *)

Inductive FormulaValue := FDouble (d : float) | FError (fe : FormulaError).

Inductive CellValue := VString (s : string) | VDouble (d : float) | VError (fe : FormulaError).

Inductive Impl :=
| EmptyImpl
| TextImpl (text_ : string)
| FormulaImpl (cache_ : option FormulaValue) (formula_ptr_ : FormulaAST).

Record Cell := mkCell {
  impl_ : Impl;
  calculated_cells_ : gset Position;   (* cells that use this cell *)
  using_cells_ : gset Position;        (* cells this cell uses *)
  pos_ : Position
}.

(** A [Cell*]: the slot that owns the cell, or [nullptr]. *)
Definition CellPtr : Type := option Position.

(** [Cell::Cell(Sheet&)] *)
Definition Cell_new : Cell :=
  {| impl_ := EmptyImpl; calculated_cells_ := ∅; using_cells_ := ∅;
     pos_ := Position_default |}.

(** ** The sheet (design/sheet.h: [Table cells_]) *)

Record Sheet := mkSheet { cells_ : list (list (option Cell)) }.

Definition Sheet_new : Sheet := mkSheet [].

(** ** Outcomes of a call *)

Inductive Exception :=
| InvalidPositionException
| FormulaException
| CircularDependencyException
| ThrownFormulaError (fe : FormulaError)   (* [throw FormulaError(...)] *)
| NullDereference                          (* undefined behaviour: [p->] on no cell *)
| FuelExhausted.                           (* the model's recursion bound was hit *)

Inductive Outcome (A : Type) :=
| Returned (a : A)
| Thrown (e : Exception).
Arguments Returned {A} a.
Arguments Thrown {A} e.

(** A call that may change the sheet: the outcome and the sheet it leaves. *)
Definition Run (A : Type) : Type := Sheet -> Outcome A * Sheet.

Definition ret {A} (a : A) : Run A := fun s => (Returned a, s).
Definition throw {A} (e : Exception) : Run A := fun s => (Thrown e, s).
Definition bind {A B} (m : Run A) (k : A -> Run B) : Run B :=
  fun s => match m s with
           | (Returned a, s') => k a s'
           | (Thrown e, s') => (Thrown e, s')
           end.
Definition read {A} (f : Sheet -> Outcome A) : Run A := fun s => (f s, s).
Definition update (f : Sheet -> Sheet) : Run unit := fun s => (Returned tt, f s).

Notation "'let*' x := m 'in' k" := (bind m (fun x => k))
  (at level 10, x name, m at level 100, k at level 200).
Notation "m >>> k" := (bind m (fun _ => k))
  (at level 62, right associativity).

Fixpoint for_each {A} (l : list A) (body : A -> Run unit) : Run unit :=
  match l with
  | [] => ret tt
  | x :: l' => body x >>> for_each l' body
  end.

(** ** Table access *)

(** [cells_[pos.row][pos.col].get()] when both indices are in range; no
    cell lives outside the table. *)
Definition slot (s : Sheet) (pos : Position) : option Cell :=
  if (0 <=? row pos) && (0 <=? col pos) then
    match cells_ s !! Z.to_nat (row pos) with
    | Some r => match r !! Z.to_nat (col pos) with
                | Some c => c
                | None => None
                end
    | None => None
    end
  else None.

(** [int(std::size(cells_[pos.row]))] *)
Definition row_size (s : Sheet) (r : Z) : Z :=
  Z.of_nat (length (default [] (cells_ s !! Z.to_nat r))).

(** [pos.row < int(std::size(cells_)) && pos.col < int(std::size(cells_[pos.row]))] *)
Definition in_extent (s : Sheet) (pos : Position) : bool :=
  (row pos <? Z.of_nat (length (cells_ s))) && (col pos <? row_size s (row pos)).

(** The two [resize] calls of [Sheet::SetCell]. *)
Definition grow (pos : Position) (s : Sheet) : Sheet :=
  let cells1 :=
    resize (Z.to_nat (Z.max (row pos + 1) (Z.of_nat (length (cells_ s))))) [] (cells_ s) in
  mkSheet
    (alter (fun r => resize (Z.to_nat (Z.max (col pos + 1) (Z.of_nat (length r)))) None r)
           (Z.to_nat (row pos)) cells1).

(** [cells_[pos.row][pos.col] = c] (or [.reset()] for [None]), indices in range. *)
Definition store (pos : Position) (c : option Cell) (s : Sheet) : Sheet :=
  mkSheet (alter (fun r => <[Z.to_nat (col pos) := c]> r) (Z.to_nat (row pos)) (cells_ s)).

(** [p->...]: the cell behind a pointer. *)
Definition deref (s : Sheet) (p : CellPtr) : Outcome Cell :=
  match p with
  | Some pos => match slot s pos with
                | Some c => Returned c
                | None => Thrown NullDereference
                end
  | None => Thrown NullDereference
  end.

Definition modify_cell (pos : Position) (f : Cell -> Cell) : Run unit :=
  fun s => match slot s pos with
           | Some c => (Returned tt, store pos (Some (f c)) s)
           | None => (Thrown NullDereference, s)
           end.

Section Engine.
Context `{collab : Collaborators}.

(** ** formula.cpp *)

(** [std::set<Position>::insert] on the ordered contents of the set. *)
Fixpoint set_insert (x : Position) (l : list Position) : list Position :=
  match l with
  | [] => [x]
  | y :: l' =>
      if Position_ltb x y then x :: l
      else if Position_ltb y x then y :: set_insert x l'
      else l
  end.

(** [Formula::GetReferencedCells] *)
Definition Formula_GetReferencedCells (ast_ : FormulaAST) : list Position :=
  fold_left (fun cells cell => if IsValid cell then set_insert cell cells else cells)
            (cells_of ast_) [].

(** [Formula::GetExpression] *)
Definition Formula_GetExpression (ast_ : FormulaAST) : string := PrintFormula ast_.

(** [ParseFormula], with the constructor's function-try-block: any parser
    failure becomes [FormulaException]. *)
Definition ParseFormula (expression : string) : Outcome FormulaAST :=
  match ParseFormulaAST expression with
  | Some ast => Returned ast
  | None => Thrown FormulaException
  end.

(** ** cell.cpp: the three implementations *)

Definition Impl_GetText (i : Impl) : string :=
  match i with
  | EmptyImpl => ""
  | TextImpl text_ => text_
  | FormulaImpl _ f => String FORMULA_SIGN (Formula_GetExpression f)
  end.

Definition Impl_GetReferencedCells (i : Impl) : list Position :=
  match i with
  | FormulaImpl _ f => Formula_GetReferencedCells f
  | _ => []
  end.

(** [Impl::HasCache] answers [true] in the base class; only [FormulaImpl]
    overrides it. *)
Definition Impl_HasCache (i : Impl) : bool :=
  match i with
  | FormulaImpl cache_ _ => bool_decide (cache_ <> None)
  | _ => true
  end.

Definition Impl_ResetCache (i : Impl) : Impl :=
  match i with
  | FormulaImpl _ f => FormulaImpl None f
  | _ => i
  end.

Definition Cell_GetText (c : Cell) : string := Impl_GetText (impl_ c).
Definition Cell_GetReferencedCells (c : Cell) : list Position :=
  Impl_GetReferencedCells (impl_ c).
Definition Cell_IsReferenced (c : Cell) : bool :=
  negb (bool_decide (calculated_cells_ c = ∅)).

(** ** sheet.cpp: reading *)

(** [Sheet::GetCell(Position)] *)
Definition Sheet_GetCell (s : Sheet) (pos : Position) : Outcome CellPtr :=
  if IsValid pos then
    if in_extent s pos then
      Returned (match slot s pos with Some _ => Some pos | None => None end)
    else Returned None
  else Thrown InvalidPositionException.

(** [Sheet::GetCell(Position) const] *)
Definition Sheet_GetCell_const (s : Sheet) (pos : Position) : Outcome CellPtr :=
  if IsValid pos then
    if in_extent s pos then
      match slot s pos with
      | None => Returned None
      | Some c =>
          if bool_decide (Cell_GetText c = ""%string) then Returned None
          else Returned (Some pos)
      end
    else Returned None
  else Thrown InvalidPositionException.

(** [Sheet::GetConcreteCell(Position)] *)
Definition Sheet_GetConcreteCell (s : Sheet) (pos : Position) : Outcome CellPtr :=
  if IsValid pos then
    if in_extent s pos then
      Returned (match slot s pos with Some _ => Some pos | None => None end)
    else Returned None
  else Thrown InvalidPositionException.

(** The inner loop of [Sheet::GetPrintableSize]: columns [n-1] down to [0]
    of one row; the column at which the loop breaks, if it does. *)
Fixpoint last_printable (r : list (option Cell)) (n : nat) : option nat :=
  match n with
  | O => None
  | S c =>
      match r !! c with
      | Some (Some cell) =>
          if bool_decide (Cell_GetText cell = ""%string) then last_printable r c
          else Some c
      | _ => last_printable r c
      end
  end.

(** The outer loop, rows [i], [i+1], ... *)
Fixpoint printable_rows (rs : list (list (option Cell))) (i : nat) (size : Size) : Size :=
  match rs with
  | [] => size
  | r :: rs' =>
      printable_rows rs' (S i)
        match last_printable r (length r) with
        | Some c => mkSize (Z.max (rows size) (Z.of_nat i + 1))
                           (Z.max (cols size) (Z.of_nat c + 1))
        | None => size
        end
  end.

(** [Sheet::GetPrintableSize]; the default-constructed [Size] of common.h
    is (0, 0). *)
Definition Sheet_GetPrintableSize (s : Sheet) : Size :=
  printable_rows (cells_ s) 0 (mkSize 0 0).

(** ** formula.cpp: evaluation *)

Definition is_finite (d : float) : bool :=
  negb (PrimFloat.is_nan d || PrimFloat.is_infinity d).

Definition apply_unary (op : UnaryOp) (x : float) : float :=
  match op with
  | UnaryPlus => x
  | UnaryMinus => PrimFloat.opp x
  end.

Definition apply_binary (op : BinaryOp) (x y : float) : float :=
  match op with
  | Add => PrimFloat.add x y
  | Subtract => PrimFloat.sub x y
  | Multiply => PrimFloat.mul x y
  | Divide => PrimFloat.div x y
  end.

(** Modelled from the spec: [FormulaAST::Execute] is defined in
    FormulaAST.cpp, which is not part of the sources.  Section 4.1: operands
    are evaluated left to right, an exception raised by the [args] callback
    propagates unchanged, and an arithmetic step with a non-finite result
    raises [Div0]. *)
Fixpoint Execute (args : Position -> Run float) (e : Expr) : Run float :=
  match e with
  | NumberExpr value => ret value
  | CellExpr cell => args cell
  | UnaryOpExpr op operand =>
      let* x := Execute args operand in
      ret (apply_unary op x)
  | BinaryOpExpr op lhs rhs =>
      let* x := Execute args lhs in
      let* y := Execute args rhs in
      if is_finite (apply_binary op x y) then ret (apply_binary op x y)
      else throw (ThrownFormulaError (mkFormulaError Div0))
  end.

(** [input >> digit && input.eof()] on a stream over [strValue]: the
    number when the extraction succeeds and has run into the end of the
    stream, which is when it leaves no character unread. *)
Definition read_whole_double (strValue : string) : option float :=
  match ExtractDouble strValue with
  | Some (digit, unread) => if bool_decide (unread = ""%string) then Some digit else None
  | None => None
  end.

(** The tail of the [params] lambda of [Formula::Evaluate]: from the value
    of the referenced cell to the number handed to the expression. *)
Definition lookup_value (cellValue : CellValue) : Outcome float :=
  match cellValue with
  | VDouble d => Returned d
  | VString strValue =>
      if bool_decide (strValue = ""%string) then Returned 0%float
      else match read_whole_double strValue with
           | Some digit => Returned digit
           | None => Thrown (ThrownFormulaError (mkFormulaError Value))
           end
  | VError fe => Thrown (ThrownFormulaError fe)
  end.

(** The [params] lambda of [Formula::Evaluate]; [GetValue] is the virtual
    [CellInterface::GetValue] of the cell behind the pointer. *)
Definition params (GetValue : Position -> Run CellValue) (pos : Position) : Run float :=
  if negb (IsValid pos) then throw (ThrownFormulaError (mkFormulaError Ref))
  else
    let* cell := read (fun s => Sheet_GetCell_const s pos) in
    match cell with
    | None => ret 0%float
    | Some c =>
        let* cellValue := GetValue c in
        read (fun _ => lookup_value cellValue)
    end.

(** [Formula::Evaluate]: the [try] block and its [catch (const FormulaError&)]. *)
Definition Formula_Evaluate (GetValue : Position -> Run CellValue) (ast_ : FormulaAST)
  : Run FormulaValue :=
  fun s => match Execute (params GetValue) (root_expr_ ast_) s with
           | (Returned d, s') => (Returned (FDouble d), s')
           | (Thrown (ThrownFormulaError evaluate_error), s') =>
               (Returned (FError evaluate_error), s')
           | (Thrown e, s') => (Thrown e, s')
           end.

(** ** cell.cpp: values *)

(** [Cell::TextImpl::GetValue] *)
Definition TextImpl_GetValue (text_ : string) : Outcome CellValue :=
  match text_ with
  | EmptyString => Thrown FormulaException
  | String c rest =>
      if bool_decide (c = ESCAPE_SIGN) then Returned (VString rest)
      else Returned (VString text_)
  end.

(** The [std::visit] of [Cell::FormulaImpl::GetValue]. *)
Definition FormulaValue_to_CellValue (v : FormulaValue) : CellValue :=
  match v with
  | FDouble d => VDouble d
  | FError fe => VError fe
  end.

(** [cache_ = ...] on the formula implementation of a cell. *)
Definition set_cache (v : FormulaValue) (c : Cell) : Cell :=
  match impl_ c with
  | FormulaImpl _ f =>
      {| impl_ := FormulaImpl (Some v) f; calculated_cells_ := calculated_cells_ c;
         using_cells_ := using_cells_ c; pos_ := pos_ c |}
  | _ => c
  end.

(** [Cell::GetValue] of the cell at [self], dispatching on its
    implementation; [fuel] bounds the depth of nested evaluations. *)
Fixpoint Cell_GetValue (fuel : nat) (self : Position) : Run CellValue :=
  match fuel with
  | O => throw FuelExhausted
  | S fuel' =>
      let* c := read (fun s => deref s (Some self)) in
      match impl_ c with
      | EmptyImpl => ret (VString "")
      | TextImpl text_ => read (fun _ => TextImpl_GetValue text_)
      | FormulaImpl (Some v) _ => ret (FormulaValue_to_CellValue v)
      | FormulaImpl None f =>
          let* v := Formula_Evaluate (Cell_GetValue fuel') f in
          modify_cell self (set_cache v) >>>
          ret (FormulaValue_to_CellValue v)
      end
  end.

(** ** cell.cpp: cycle check *)

(** The loop of [Cell::HasCircularDependency] over the referenced positions
    of [cell], with the recursive call passed in; [visitedPos] is threaded
    through because the program passes it by reference. *)
Fixpoint HasCircularDependency_loop
    (recur : CellPtr -> gset CellPtr -> Outcome (bool * gset CellPtr))
    (s : Sheet) (pos_const : Position)
    (refs : list Position) (visitedPos : gset CellPtr) : Outcome (bool * gset CellPtr) :=
  match refs with
  | [] => Returned (false, visitedPos)
  | dependentPos :: rest =>
      match Sheet_GetConcreteCell s dependentPos with
      | Thrown e => Thrown e
      | Returned ref_cell =>
          if bool_decide (pos_const = dependentPos) then Returned (true, visitedPos)
          else if bool_decide (ref_cell ∈ visitedPos)
               then HasCircularDependency_loop recur s pos_const rest visitedPos
               else match recur ref_cell ({[ref_cell]} ∪ visitedPos) with
                    | Returned (true, v) => Returned (true, v)
                    | Returned (false, v) =>
                        HasCircularDependency_loop recur s pos_const rest v
                    | Thrown e => Thrown e
                    end
      end
  end.

(** [Cell::HasCircularDependency] *)
Fixpoint Cell_HasCircularDependency (fuel : nat) (s : Sheet) (pos_const : Position)
    (cell : CellPtr) (visitedPos : gset CellPtr) : Outcome (bool * gset CellPtr) :=
  match fuel with
  | O => Thrown FuelExhausted
  | S fuel' =>
      match deref s cell with
      | Thrown e => Thrown e
      | Returned c =>
          HasCircularDependency_loop (Cell_HasCircularDependency fuel' s pos_const)
            s pos_const (Cell_GetReferencedCells c) visitedPos
      end
  end.

(** The loop of [Cell::CheckCircularDependencies]. *)
Fixpoint CheckCircularDependencies_loop (fuel : nat) (s : Sheet) (pos : Position)
    (cells : list Position) (visitedPos : gset CellPtr) : Outcome bool :=
  match cells with
  | [] => Returned false
  | position :: rest =>
      if bool_decide (position = pos) then Returned true
      else match Sheet_GetConcreteCell s position with
           | Thrown e => Thrown e
           | Returned ref_cell =>
               match Cell_HasCircularDependency fuel s pos ref_cell
                       ({[ref_cell]} ∪ visitedPos) with
               | Returned (true, _) => Returned true
               | Returned (false, v) => CheckCircularDependencies_loop fuel s pos rest v
               | Thrown e => Thrown e
               end
           end
  end.

(** [Cell::CheckCircularDependencies] *)
Definition Cell_CheckCircularDependencies (fuel : nat) (new_impl : Impl) (pos : Position)
    (s : Sheet) : Outcome bool :=
  CheckCircularDependencies_loop fuel s pos (Impl_GetReferencedCells new_impl) ∅.

(** ** cell.cpp: cache invalidation *)

Definition reset_cache (c : Cell) : Cell :=
  {| impl_ := Impl_ResetCache (impl_ c); calculated_cells_ := calculated_cells_ c;
     using_cells_ := using_cells_ c; pos_ := pos_ c |}.

(** [Cell::ResetCache] of the cell at [self]. *)
Fixpoint Cell_ResetCache (fuel : nat) (self : Position) (force : bool) : Run unit :=
  match fuel with
  | O => throw FuelExhausted
  | S fuel' =>
      let* c := read (fun s => deref s (Some self)) in
      if Impl_HasCache (impl_ c) || force then
        modify_cell self reset_cache >>>
        for_each (elements (calculated_cells_ c))
                 (fun dependent => Cell_ResetCache fuel' dependent false)
      else ret tt
  end.

(** ** cell.cpp: [Cell::Set] *)

Definition set_impl (i : Impl) (c : Cell) : Cell :=
  {| impl_ := i; calculated_cells_ := calculated_cells_ c;
     using_cells_ := using_cells_ c; pos_ := pos_ c |}.

Definition set_using (u : gset Position) (c : Cell) : Cell :=
  {| impl_ := impl_ c; calculated_cells_ := calculated_cells_ c;
     using_cells_ := u; pos_ := pos_ c |}.

Definition set_calculated (u : gset Position) (c : Cell) : Cell :=
  {| impl_ := impl_ c; calculated_cells_ := u;
     using_cells_ := using_cells_ c; pos_ := pos_ c |}.

(** Lines 31-47: the candidate implementation; for a formula, every valid
    referenced position without a cell gets one through [sheet->SetCell]. *)
Definition Cell_Set_candidate (SetCell : Position -> string -> Run unit) (text : string)
  : Run Impl :=
  match text with
  | EmptyString => ret EmptyImpl
  | String c rest =>
      if (2 <=? Z.of_nat (String.length text)) && bool_decide (c = FORMULA_SIGN) then
        let* formula := read (fun _ => ParseFormula rest) in
        let impl := FormulaImpl None formula in
        for_each (Impl_GetReferencedCells impl)
          (fun pos_cell_in_formula =>
             if IsValid pos_cell_in_formula then
               let* existing := read (fun s => Sheet_GetCell s pos_cell_in_formula) in
               match existing with
               | None => SetCell pos_cell_in_formula ""%string
               | Some _ => ret tt
               end
             else ret tt) >>>
        ret impl
      else ret (TextImpl text)
  end.

(** Lines 66-76: one round of the loop that links [self] to a referenced cell. *)
Definition Cell_Set_link (SetCell : Position -> string -> Run unit) (self : Position)
    (pos : Position) : Run unit :=
  let* found := read (fun s => Sheet_GetConcreteCell s pos) in
  let* used :=
    match found with
    | Some _ => ret found
    | None => SetCell pos ""%string >>> read (fun s => Sheet_GetConcreteCell s pos)
    end in
  match used with
  | None => throw NullDereference
  | Some u =>
      let* c := read (fun s => deref s (Some self)) in
      modify_cell self (set_using ({[u]} ∪ using_cells_ c)) >>>
      let* cu := read (fun s => deref s (Some u)) in
      modify_cell u (set_calculated ({[self]} ∪ calculated_cells_ cu))
  end.

(** Lines 58-61: [this] leaves the [calculated_cells_] of one cell it used. *)
Definition Cell_Set_unlink (self used : Position) : Run unit :=
  let* cu := read (fun s => deref s (Some used)) in
  modify_cell used (set_calculated (calculated_cells_ cu ∖ {[self]})).

(** Lines 53-76: the candidate becomes the implementation and the edges
    are rewritten. *)
Definition Cell_Set_rewire (SetCell : Position -> string -> Run unit)
    (self : Position) (impl : Impl) : Run unit :=
  modify_cell self (set_impl impl) >>>
  let* c := read (fun s => deref s (Some self)) in
  for_each (elements (using_cells_ c)) (Cell_Set_unlink self) >>>
  modify_cell self (set_using ∅) >>>
  for_each (Impl_GetReferencedCells impl) (Cell_Set_link SetCell self).

(** Lines 53-79: the rewiring, then the caches are invalidated. *)
Definition Cell_Set_commit (SetCell : Position -> string -> Run unit) (fuel : nat)
    (self : Position) (impl : Impl) : Run unit :=
  Cell_Set_rewire SetCell self impl >>>
  Cell_ResetCache fuel self true.

(** [Cell::Set] on the cell at [self]; [SetCell] is [Sheet::SetCell] of the
    owning sheet.  The [ToString] calls of the body compute unused strings. *)
Definition Cell_Set (SetCell : Position -> string -> Run unit) (fuel : nat)
    (self : Position) (text : string) (pos : Position) : Run unit :=
  let* impl := Cell_Set_candidate SetCell text in
  let* cyclic := read (Cell_CheckCircularDependencies fuel impl pos) in
  if (cyclic : bool) then throw CircularDependencyException
  else Cell_Set_commit SetCell fuel self impl.

(** ** sheet.cpp: writing *)

(** Lines 32-37 of [Sheet::SetCell]: the table covers [pos] and the slot
    holds a cell. *)
Definition materialize (pos : Position) (s : Sheet) : Sheet :=
  match slot (grow pos s) pos with
  | None => store pos (Some Cell_new) (grow pos s)
  | Some _ => grow pos s
  end.

(** [Sheet::SetCell] *)
Fixpoint Sheet_SetCell (fuel : nat) (pos : Position) (text : string) : Run unit :=
  match fuel with
  | O => throw FuelExhausted
  | S fuel' =>
      if IsValid pos then
        update (materialize pos) >>>
        Cell_Set (Sheet_SetCell fuel') fuel' pos text pos
      else throw InvalidPositionException
  end.

(** [Cell::Clear] *)
Definition Cell_Clear (fuel : nat) (self : Position) : Run unit :=
  let* c := read (fun s => deref s (Some self)) in
  Cell_Set (Sheet_SetCell fuel) fuel self ""%string (pos_ c).

(** [Sheet::ClearCell] *)
Definition Sheet_ClearCell (fuel : nat) (pos : Position) : Run unit :=
  if IsValid pos then
    let* occupied := read (fun s => Returned (in_extent s pos && bool_decide (slot s pos <> None))) in
    if (occupied : bool) then
      Cell_Clear fuel pos >>>
      let* c := read (fun s => deref s (Some pos)) in
      if negb (Cell_IsReferenced c) then update (store pos None) else ret tt
    else ret tt
  else throw InvalidPositionException.

(** ** sheet.cpp: printing

    [Sheet::PrintValues] as far as it acts on the sheet: it reads the value
    of every cell in the printable area, which fills caches.  The characters
    written to [output] are not modelled.  Both loop conditions call
    [GetPrintableSize()] on every round; [steps] bounds the rounds. *)

Fixpoint PrintValues_cols (fuel steps : nat) (r c : Z) : Run unit :=
  match steps with
  | O => throw FuelExhausted
  | S steps' =>
      let* size := read (fun s => Returned (Sheet_GetPrintableSize s)) in
      if c <? cols size then
        let* occupied :=
          read (fun s => Returned ((c <? row_size s r)
                                   && bool_decide (slot s (mkPosition r c) <> None))) in
        (if (occupied : bool) then Cell_GetValue fuel (mkPosition r c) >>> ret tt
         else ret tt) >>>
        PrintValues_cols fuel steps' r (c + 1)
      else ret tt
  end.

Fixpoint PrintValues_rows (fuel steps : nat) (r : Z) : Run unit :=
  match steps with
  | O => throw FuelExhausted
  | S steps' =>
      let* size := read (fun s => Returned (Sheet_GetPrintableSize s)) in
      if r <? rows size then
        PrintValues_cols fuel steps' r 0 >>>
        PrintValues_rows fuel steps' (r + 1)
      else ret tt
  end.

(** [Sheet::PrintValues] *)
Definition Sheet_PrintValues (fuel : nat) : Run unit := PrintValues_rows fuel fuel 0.

(** [Sheet::PrintTexts]: the characters it appends to [output].  The method
    is const and [GetText] changes nothing, so each evaluation of
    [GetPrintableSize()] in the loop conditions gives the size at entry and
    the loops run over its rows and columns. *)

Definition tab : string := String "009"%char EmptyString.
Definition newline : string := String "010"%char EmptyString.

(** Lines 244-253: one round of the inner loop. *)
Definition PrintTexts_cell (s : Sheet) (row col : Z) (output : string) : string :=
  let output := if bool_decide (col = 0) then output else String.append output tab in
  if col <? row_size s row then
    match slot s (mkPosition row col) with
    | Some c => String.append output (Cell_GetText c)
    | None => output
    end
  else output.

(** Lines 242-256: one round of the outer loop. *)
Definition PrintTexts_row (s : Sheet) (row : Z) (output : string) : string :=
  String.append
    (foldl (fun output col => PrintTexts_cell s row col output) output
           (seqZ 0 (cols (Sheet_GetPrintableSize s))))
    newline.

(** [Sheet::PrintTexts] *)
Definition Sheet_PrintTexts (s : Sheet) (output : string) : string :=
  foldl (fun output row => PrintTexts_row s row output) output
        (seqZ 0 (rows (Sheet_GetPrintableSize s))).

(** ** The public interface as operations on a sheet *)

Inductive Operation :=
| OpSetCell (pos : Position) (text : string)
| OpClearCell (pos : Position)
| OpGetValue (pos : Position)      (* [GetCell(pos)->GetValue()] when there is a cell *)
| OpGetText (pos : Position)       (* [GetCell(pos)->GetText()]: reads only *)
| OpGetPrintableSize
| OpPrintValues
| OpPrintTexts.                    (* [PrintTexts]: reads only *)

Definition perform (fuel : nat) (op : Operation) : Run unit :=
  match op with
  | OpSetCell pos text => Sheet_SetCell fuel pos text
  | OpClearCell pos => Sheet_ClearCell fuel pos
  | OpGetValue pos =>
      let* cell := read (fun s => Sheet_GetCell s pos) in
      match cell with
      | Some c => Cell_GetValue fuel c >>> ret tt
      | None => ret tt
      end
  | OpGetText pos => read (fun s => Sheet_GetCell s pos) >>> ret tt
  | OpGetPrintableSize => ret tt
  | OpPrintValues => Sheet_PrintValues fuel
  | OpPrintTexts => ret tt
  end.

(** Sheets that a client can build from [CreateSheet()]. *)
Inductive reachable : Sheet -> Prop :=
| reachable_new : reachable Sheet_new
| reachable_step fuel op s o s' :
    reachable s -> perform fuel op s = (o, s') -> reachable s'.

End Engine.

(** ** A concrete instance of the collaborators

    Enough of a formula language to run the engine on examples: a formula is
    a cell reference or two cell references joined by one operator; the
    stream extraction reads decimal numbers. *)
Module Demo.

Definition is_upper (c : ascii) : bool :=
  (65 <=? nat_of_ascii c)%nat && (nat_of_ascii c <=? 90)%nat.

Definition is_digit (c : ascii) : bool :=
  (48 <=? nat_of_ascii c)%nat && (nat_of_ascii c <=? 57)%nat.

Fixpoint span (p : ascii -> bool) (s : string) : string * string :=
  match s with
  | EmptyString => (EmptyString, EmptyString)
  | String c rest =>
      if p c then let '(a, b) := span p rest in (String c a, b)
      else (EmptyString, s)
  end.

Fixpoint letters_value (acc : Z) (s : string) : Z :=
  match s with
  | EmptyString => acc
  | String c rest => letters_value (acc * 26 + (Z.of_nat (nat_of_ascii c) - 64)) rest
  end.

Fixpoint digits_value (acc : Z) (s : string) : Z :=
  match s with
  | EmptyString => acc
  | String c rest => digits_value (acc * 10 + (Z.of_nat (nat_of_ascii c) - 48)) rest
  end.

(** [Position::FromString]: letters for the column, then the 1-based row. *)
Definition Position_FromString (s : string) : option Position :=
  let '(letters, rest) := span is_upper s in
  let '(digits, tail) := span is_digit rest in
  match letters, digits, tail with
  | String _ _, String _ _, EmptyString =>
      let p := mkPosition (digits_value 0 digits - 1) (letters_value 0 letters - 1) in
      if IsValid p then Some p else None
  | _, _, _ => None
  end.

Definition operator_of (c : ascii) : option BinaryOp :=
  if bool_decide (c = "+"%char) then Some Add
  else if bool_decide (c = "-"%char) then Some Subtract
  else if bool_decide (c = "*"%char) then Some Multiply
  else if bool_decide (c = "/"%char) then Some Divide
  else None.

Definition not_operator (c : ascii) : bool :=
  match operator_of c with Some _ => false | None => true end.

Definition parse (s : string) : option FormulaAST :=
  let '(first, rest) := span not_operator s in
  match Position_FromString first, rest with
  | Some a, EmptyString => Some (mkFormulaAST (CellExpr a) [a])
  | Some a, String o second =>
      match operator_of o, Position_FromString second with
      | Some op, Some b => Some (mkFormulaAST (BinaryOpExpr op (CellExpr a) (CellExpr b)) [a; b])
      | _, _ => None
      end
  | None, _ => None
  end.

Fixpoint column_letters (fuel : nat) (c : Z) : string :=
  match fuel with
  | O => EmptyString
  | S fuel' =>
      if c <? 0 then EmptyString
      else String.append
             (column_letters fuel' (c / 26 - 1))
             (String (ascii_of_nat (Z.to_nat (65 + c mod 26))) EmptyString)
  end.

Fixpoint decimal (fuel : nat) (n : Z) : string :=
  match fuel with
  | O => EmptyString
  | S fuel' =>
      String.append
        (if n <? 10 then EmptyString else decimal fuel' (n / 10))
        (String (ascii_of_nat (Z.to_nat (48 + n mod 10))) EmptyString)
  end.

Definition Position_ToString (p : Position) : string :=
  (column_letters 4 (col p) ++ decimal 6 (row p + 1))%string.

Definition operator_sign (op : BinaryOp) : string :=
  match op with Add => "+" | Subtract => "-" | Multiply => "*" | Divide => "/" end.

Fixpoint print_expr (e : Expr) : string :=
  match e with
  | NumberExpr _ => "?"
  | CellExpr p => Position_ToString p
  | UnaryOpExpr UnaryPlus e => ("+" ++ print_expr e)%string
  | UnaryOpExpr UnaryMinus e => ("-" ++ print_expr e)%string
  | BinaryOpExpr op a b => (print_expr a ++ operator_sign op ++ print_expr b)%string
  end.

Definition is_space (c : ascii) : bool :=
  (nat_of_ascii c =? 32)%nat || ((9 <=? nat_of_ascii c)%nat && (nat_of_ascii c <=? 13)%nat).

Fixpoint skip_spaces (s : string) : string :=
  match s with
  | EmptyString => s
  | String c rest => if is_space c then skip_spaces rest else s
  end.

(** An optional sign: whether it is a minus, and what follows it. *)
Definition read_sign (s : string) : bool * string :=
  match s with
  | EmptyString => (false, s)
  | String c rest =>
      if bool_decide (c = "-"%char) then (true, rest)
      else if bool_decide (c = "+"%char) then (false, rest)
      else (false, s)
  end.

(** The digits after a decimal point, if there is one. *)
Definition read_fraction (s : string) : string * string :=
  match s with
  | EmptyString => (EmptyString, s)
  | String c rest =>
      if bool_decide (c = "."%char) then span is_digit rest else (EmptyString, s)
  end.

(** An optional exponent [e] or [E] with its sign and digits; [None] when
    the mark is not followed by a digit. *)
Definition read_exponent (s : string) : option (Z * string) :=
  match s with
  | EmptyString => Some (0, s)
  | String c rest =>
      if bool_decide (c = "e"%char) || bool_decide (c = "E"%char) then
        let '(negative, after_sign) := read_sign rest in
        let '(digits, unread) := span is_digit after_sign in
        match digits with
        | EmptyString => None
        | String _ _ =>
            Some (if negative then - digits_value 0 digits else digits_value 0 digits, unread)
        end
      else Some (0, s)
  end.

(** The binary64 number nearest to [m * 10 ^ e10], with ties to even. *)
Definition decimal_to_float (negative : bool) (m e10 : Z) : spec_float :=
  match m with
  | Zpos mantissa =>
      if 0 <=? e10 then
        binary_normalize prec emax (if negative then - (m * 10 ^ e10) else m * 10 ^ e10) 0 false
      else
        SFdiv prec emax (S754_finite negative mantissa 0)
                        (S754_finite false (Z.to_pos (10 ^ (- e10))) 0)
  | _ => S754_zero negative
  end.

(** A sample of the library's extraction of a double: white space, an
    optional sign, decimal digits with an optional fraction and an optional
    exponent, rounded to the nearest binary64 number; the extraction fails
    when there is no digit or when the number is too large for a double.
    Hexadecimal numbers, [inf] and [nan] are not read. *)
Definition extract_double (s : string) : option (float * string) :=
  let '(negative, after_sign) := read_sign (skip_spaces s) in
  let '(int_digits, after_int) := span is_digit after_sign in
  let '(frac_digits, after_frac) := read_fraction after_int in
  match String.append int_digits frac_digits, read_exponent after_frac with
  | String _ _ as digits, Some (e, unread) =>
      match decimal_to_float negative (digits_value 0 digits)
                             (e - Z.of_nat (String.length frac_digits)) with
      | S754_infinity _ | S754_nan => None
      | number => Some (SF2Prim number, unread)
      end
  | _, _ => None
  end.

#[export] Instance collaborators : Collaborators :=
  {| ParseFormulaAST := parse;
     PrintFormula := fun ast => print_expr (root_expr_ ast);
     ExtractDouble := extract_double |}.

Definition A1 : Position := mkPosition 0 0.
Definition B1 : Position := mkPosition 0 1.
Definition C1 : Position := mkPosition 0 2.
Definition D1 : Position := mkPosition 0 3.

(** Runs a list of operations, keeping the outcomes. *)
Fixpoint run_all (fuel : nat) (ops : list Operation) (s : Sheet)
  : list (Outcome unit) * Sheet :=
  match ops with
  | [] => ([], s)
  | op :: rest =>
      let '(o, s') := perform fuel op s in
      let '(os, s'') := run_all fuel rest s' in
      (o :: os, s'')
  end.

End Demo.

(** * Properties *)

Section Properties.
Context `{collab : Collaborators}.

(** ** Printing of formula errors *)

(** C5: at the failing input [Ref] (and likewise [Value]) the stream
    receives the token of [Div0]: the operator ignores the category. *)
Theorem FormulaError_print_ignores_category :
  FormulaError_print "" (mkFormulaError Ref) = "#DIV/0!"%string /\
  FormulaError_print "" (mkFormulaError Value) = "#DIV/0!"%string /\
  FormulaError_print "" (mkFormulaError Div0) = "#DIV/0!"%string.
Proof. repeat split. Qed.

(** ** Referenced cells of a formula *)

Lemma Position_ltb_lt a b : Position_ltb a b = true <-> Position_lt a b.
Proof.
  unfold Position_ltb, Position_lt.
  rewrite orb_true_iff, andb_true_iff, !Z.ltb_lt, Z.eqb_eq. tauto.
Qed.

Lemma Position_lt_trans a b c : Position_lt a b -> Position_lt b c -> Position_lt a c.
Proof. unfold Position_lt. lia. Qed.

Lemma Position_lt_total a b : ~ Position_lt a b -> ~ Position_lt b a -> a = b.
Proof.
  destruct a as [ra ca], b as [rb cb]. unfold Position_lt. simpl.
  intros. f_equal; lia.
Qed.

Lemma set_insert_elem x l p : p ∈ set_insert x l <-> p = x \/ p ∈ l.
Proof.
  induction l as [|y l IH]; simpl.
  - rewrite list_elem_of_singleton. set_solver.
  - destruct (Position_ltb x y) eqn:Hxy; [set_solver|].
    destruct (Position_ltb y x) eqn:Hyx.
    + rewrite !elem_of_cons, IH. tauto.
    + assert (x = y) as ->.
      { apply Position_lt_total; rewrite <- Position_ltb_lt; congruence. }
      set_solver.
Qed.

Lemma set_insert_sorted x l :
  StronglySorted Position_lt l -> StronglySorted Position_lt (set_insert x l).
Proof.
  induction 1 as [|y l Hs IH Hall]; simpl.
  - repeat constructor.
  - destruct (Position_ltb x y) eqn:Hxy.
    + apply Position_ltb_lt in Hxy. constructor; [by constructor|].
      constructor; [done|].
      eapply Forall_impl; [exact Hall|]. intros z Hz. by eapply Position_lt_trans.
    + destruct (Position_ltb y x) eqn:Hyx; [|by constructor].
      apply Position_ltb_lt in Hyx. constructor; [done|].
      apply Forall_forall. intros z Hz. apply set_insert_elem in Hz as [->|Hz]; [done|].
      rewrite Forall_forall in Hall. auto.
Qed.

Lemma collect_valid_spec cells acc :
  StronglySorted Position_lt acc ->
  let out := fold_left (fun cells cell => if IsValid cell then set_insert cell cells else cells)
                       cells acc in
  StronglySorted Position_lt out /\
  forall p, p ∈ out <-> p ∈ acc \/ (p ∈ cells /\ IsValid p = true).
Proof.
  revert acc. induction cells as [|c cells IH]; intros acc Hacc; simpl.
  - split; [done|]. set_solver.
  - destruct (IsValid c) eqn:Hc.
    + destruct (IH (set_insert c acc) (set_insert_sorted c acc Hacc)) as [Hs Hin].
      split; [done|]. intros p. rewrite Hin, set_insert_elem, elem_of_cons.
      split; [intros [[->|?]|[? ?]]; auto|intros [?|[[->|?] ?]]; auto].
    + destruct (IH acc Hacc) as [Hs Hin].
      split; [done|]. intros p. rewrite Hin, elem_of_cons.
      split; [intros [?|[? ?]]; auto|intros [?|[[->|?] ?]]; auto; congruence].
Qed.

(** C6: [Formula::GetReferencedCells] returns the valid positions of the
    expression's cell list, each once, in strictly ascending (row, col)
    order; invalid positions are left out. *)
Theorem GetReferencedCells_valid_sorted_unique (ast_ : FormulaAST) :
  StronglySorted Position_lt (Formula_GetReferencedCells ast_) /\
  NoDup (Formula_GetReferencedCells ast_) /\
  forall p, p ∈ Formula_GetReferencedCells ast_ <-> p ∈ cells_of ast_ /\ IsValid p = true.
Proof.
  destruct (collect_valid_spec (cells_of ast_) [] (SSorted_nil _)) as [Hs Hin].
  fold (Formula_GetReferencedCells ast_) in Hs, Hin.
  split; [done|]. split.
  - clear Hin. induction Hs as [|y l Hs IH Hall]; constructor; [|done].
    intros Hy. rewrite Forall_forall in Hall. specialize (Hall y Hy).
    unfold Position_lt in Hall. lia.
  - intros p. rewrite Hin. set_solver.
Qed.

(** ** Reading the table *)

Lemma IsValid_bounds p :
  IsValid p = true <-> 0 <= row p < MAX_ROWS /\ 0 <= col p < MAX_COLS.
Proof.
  unfold IsValid. rewrite !andb_true_iff, !Z.leb_le, !Z.ltb_lt. tauto.
Qed.

Lemma slot_nonneg s pos c : slot s pos = Some c -> 0 <= row pos /\ 0 <= col pos.
Proof.
  unfold slot. destruct ((0 <=? row pos) && (0 <=? col pos)) eqn:Hb; [|done].
  apply andb_true_iff in Hb. rewrite !Z.leb_le in Hb. done.
Qed.

Lemma slot_in_extent s pos c : slot s pos = Some c -> in_extent s pos = true.
Proof.
  intros Hs. destruct (slot_nonneg _ _ _ Hs) as [Hr Hc]. revert Hs.
  unfold slot, in_extent, row_size.
  destruct ((0 <=? row pos) && (0 <=? col pos)); [|done]. intros Hs.
  destruct (cells_ s !! Z.to_nat (row pos)) as [r|] eqn:Hrow; [|done].
  destruct (r !! Z.to_nat (col pos)) as [o|] eqn:Hcol; [|done].
  apply lookup_lt_Some in Hrow, Hcol. simpl.
  apply andb_true_iff. rewrite !Z.ltb_lt. lia.
Qed.

Lemma not_in_extent_slot s pos : in_extent s pos = false -> slot s pos = None.
Proof.
  intros Hext. destruct (slot s pos) eqn:Hs; [|done].
  apply slot_in_extent in Hs; congruence.
Qed.

(** *** Growing the table and storing into it *)

Definition nth_cell (cells : list (list (option Cell))) (r c : nat) : option Cell :=
  match cells !! r with
  | Some rw => match rw !! c with Some o => o | None => None end
  | None => None
  end.

Lemma slot_nth_cell s pos :
  slot s pos =
  if (0 <=? row pos) && (0 <=? col pos)
  then nth_cell (cells_ s) (Z.to_nat (row pos)) (Z.to_nat (col pos)) else None.
Proof. done. Qed.

Lemma lookup_padded {A} (l : list A) k x i :
  (l ++ replicate k x) !! i =
  match l !! i with
  | Some y => Some y
  | None => if decide (i < length l + k)%nat then Some x else None
  end.
Proof.
  destruct (l !! i) as [y|] eqn:Hi.
  - by rewrite (lookup_app_l_Some _ _ _ _ Hi).
  - apply lookup_ge_None in Hi. rewrite lookup_app_r by done.
    case_decide.
    + apply lookup_replicate_2. lia.
    + apply lookup_replicate_None. lia.
Qed.

Lemma nth_cell_grow pos s r c :
  nth_cell (cells_ (grow pos s)) r c = nth_cell (cells_ s) r c.
Proof.
  unfold grow, nth_cell. simpl.
  rewrite resize_ge by lia.
  rewrite list_lookup_alter. case_decide as Hr.
  - subst r. rewrite lookup_padded.
    destruct (cells_ s !! Z.to_nat (row pos)) as [rw|] eqn:Hrw; simpl.
    + rewrite resize_ge by lia. rewrite lookup_padded.
      destruct (rw !! c) as [o|]; [done|]. by case_decide.
    + case_decide; [|done]. simpl.
      destruct (resize _ _ _ !! c) as [o|] eqn:Ho; [|done].
      rewrite resize_ge in Ho by (simpl; lia). rewrite lookup_padded in Ho.
      simpl in Ho. case_decide; congruence.
  - rewrite lookup_padded.
    destruct (cells_ s !! r) as [rw|]; [done|].
    case_decide; [|done]. done.
Qed.

Lemma slot_grow pos s q : slot (grow pos s) q = slot s q.
Proof. by rewrite !slot_nth_cell, nth_cell_grow. Qed.

Lemma in_extent_grow pos s : 0 <= row pos -> 0 <= col pos -> in_extent (grow pos s) pos = true.
Proof.
  intros Hr Hc. unfold in_extent, row_size, grow. simpl.
  rewrite length_alter, length_resize.
  rewrite list_lookup_alter_eq.
  destruct (resize _ [] (cells_ s) !! Z.to_nat (row pos)) as [rw|] eqn:Hrw; simpl.
  - rewrite length_resize. apply andb_true_iff. rewrite !Z.ltb_lt. lia.
  - apply lookup_ge_None in Hrw. rewrite length_resize in Hrw. lia.
Qed.

Lemma in_extent_store pos c s q : in_extent (store pos c s) q = in_extent s q.
Proof.
  unfold in_extent, row_size, store. simpl. rewrite length_alter.
  rewrite list_lookup_alter. case_decide as Hr; [|done].
  rewrite <- Hr. destruct (cells_ s !! Z.to_nat (row pos)); simpl; [|done].
  by rewrite length_insert.
Qed.

Lemma slot_store pos c s q :
  0 <= row pos -> 0 <= col pos -> in_extent s pos = true ->
  slot (store pos c s) q = if decide (q = pos) then c else slot s q.
Proof.
  intros Hr Hc Hext. unfold in_extent, row_size in Hext.
  apply andb_true_iff in Hext as [Hrow Hcol]. apply Z.ltb_lt in Hrow, Hcol.
  destruct (cells_ s !! Z.to_nat (row pos)) as [rw|] eqn:Hrw; simpl in Hcol; [|lia].
  rewrite !slot_nth_cell. unfold store, nth_cell. simpl.
  case_decide as Hq.
  - subst q. apply Z.leb_le in Hr, Hc. rewrite Hr, Hc. simpl.
    rewrite list_lookup_alter_eq, Hrw. simpl.
    rewrite list_lookup_insert_eq by lia. done.
  - destruct ((0 <=? row q) && (0 <=? col q)) eqn:Hg; [|done].
    apply andb_true_iff in Hg as [Hqr Hqc]. apply Z.leb_le in Hqr, Hqc.
    rewrite list_lookup_alter. case_decide as Hrr; [|done].
    rewrite <- Hrr, Hrw. simpl.
    rewrite list_lookup_insert_ne; [done|].
    intros Hcc. apply Hq. destruct q, pos. simpl in *. f_equal; lia.
Qed.

Lemma slot_store_occupied pos c c0 s q :
  slot s pos = Some c0 ->
  slot (store pos c s) q = if decide (q = pos) then c else slot s q.
Proof.
  intros Hs. destruct (slot_nonneg _ _ _ Hs). apply slot_store; try done.
  by eapply slot_in_extent.
Qed.

(** C7: for a valid position the const overload answers null outside the
    table, on an empty slot and on a cell whose text is empty, and the cell
    otherwise; the non-const overload answers the cell whenever the slot is
    occupied, placeholders included, and null otherwise; both throw
    [InvalidPositionException] on an invalid position. *)
Theorem GetCell_overloads (s : Sheet) (pos : Position) :
  (IsValid pos = false ->
     Sheet_GetCell_const s pos = Thrown InvalidPositionException /\
     Sheet_GetCell s pos = Thrown InvalidPositionException) /\
  (IsValid pos = true ->
     (Sheet_GetCell_const s pos = Returned None <->
        in_extent s pos = false \/ slot s pos = None \/
        exists c, slot s pos = Some c /\ Cell_GetText c = ""%string) /\
     (forall c, slot s pos = Some c -> Cell_GetText c <> ""%string ->
        Sheet_GetCell_const s pos = Returned (Some pos)) /\
     (forall c, slot s pos = Some c -> Sheet_GetCell s pos = Returned (Some pos)) /\
     (in_extent s pos = false \/ slot s pos = None -> Sheet_GetCell s pos = Returned None)).
Proof.
  split; intros Hv; unfold Sheet_GetCell_const, Sheet_GetCell; rewrite Hv; [done|].
  destruct (in_extent s pos) eqn:Hext.
  - destruct (slot s pos) as [c|] eqn:Hs.
    + case_bool_decide as Ht.
      * repeat split; try done; eauto 6.
        -- intros c' [= <-]. done.
        -- intros [?|?]; done.
      * repeat split; try done.
        -- intros [?|[?|(c' & [= <-] & ?)]]; done.
        -- intros [?|?]; done.
    + repeat split; try done; eauto.
  - rewrite (not_in_extent_slot s pos Hext). repeat split; try done; eauto.
Qed.

(** ** Printable size *)

(** A cell with non-empty text sits at row [r], column [c]. *)
Definition printable_at (cells : list (list (option Cell))) (r c : nat) : Prop :=
  exists rw cell, cells !! r = Some rw /\ rw !! c = Some (Some cell) /\
                  Cell_GetText cell <> ""%string.

Lemma last_printable_Some r n c :
  last_printable r n = Some c ->
  (c < n)%nat /\ (exists cell, r !! c = Some (Some cell) /\ Cell_GetText cell <> ""%string) /\
  forall c' cell, (c < c' < n)%nat -> r !! c' = Some (Some cell) -> Cell_GetText cell = ""%string.
Proof.
  induction n as [|n IH]; simpl; [done|].
  assert (last_printable r n = Some c ->
          (forall cell, r !! n = Some (Some cell) -> Cell_GetText cell = ""%string) ->
          (c < S n)%nat /\
          (exists cell, r !! c = Some (Some cell) /\ Cell_GetText cell <> ""%string) /\
          forall c' cell, (c < c' < S n)%nat -> r !! c' = Some (Some cell) ->
                          Cell_GetText cell = ""%string) as Hrec.
  { intros Hl Hn. destruct (IH Hl) as (Hlt & Hex & Hafter).
    split; [lia|]. split; [done|]. intros c' cell Hc' Hcell.
    destruct (decide (c' = n)) as [->|]; [eauto|]. apply (Hafter c' cell); [lia|done]. }
  destruct (r !! n) as [[cell|]|] eqn:Hn; try (intros; apply Hrec; [done|congruence]).
  case_bool_decide as Ht.
  - intros; apply Hrec; [done|congruence].
  - intros [= <-]. split; [lia|]. split; [eauto|]. intros; lia.
Qed.

Lemma last_printable_None r n :
  last_printable r n = None ->
  forall c cell, (c < n)%nat -> r !! c = Some (Some cell) -> Cell_GetText cell = ""%string.
Proof.
  induction n as [|n IH]; simpl; [intros; lia|].
  intros Hl c cell Hc Hcell.
  destruct (decide (c = n)) as [->|].
  - rewrite Hcell in Hl. by case_bool_decide.
  - apply IH with c; [|lia|done].
    destruct (r !! n) as [[cell'|]|]; try done. by case_bool_decide.
Qed.

Lemma printable_rows_spec rs i size :
  let out := printable_rows rs i size in
  (rows size <= rows out /\ cols size <= cols out) /\
  (forall k c, printable_at rs k c ->
     Z.of_nat (i + k) + 1 <= rows out /\ Z.of_nat c + 1 <= cols out) /\
  (rows out = rows size \/
   exists k c, printable_at rs k c /\ rows out = Z.of_nat (i + k) + 1) /\
  (cols out = cols size \/
   exists k c, printable_at rs k c /\ cols out = Z.of_nat c + 1).
Proof.
  revert i size. induction rs as [|r rs IH]; intros i size; simpl.
  - split; [lia|]. split; [|auto].
    intros k c (rw & cell & Hrw & _). done.
  - set (size' := match last_printable r (length r) with
                  | Some c => _ | None => size end).
    destruct (IH (S i) size') as ((Hr & Hc) & Hcover & Hrows & Hcols).
    assert (rows size <= rows size' /\ cols size <= cols size') as [Hr' Hc'].
    { subst size'. destruct (last_printable r (length r)); simpl; lia. }
    assert (forall k c, printable_at rs k c -> printable_at (r :: rs) (S k) c) as Hshift.
    { intros k c (rw & cell & ? & ? & ?). by exists rw, cell. }
    split; [lia|]. split; [|split].
    + intros [|k] c Hp.
      * destruct Hp as (rw & cell & [= <-] & Hcell & Ht).
        subst size'. destruct (last_printable r (length r)) as [c0|] eqn:Hl.
        -- apply last_printable_Some in Hl as (_ & _ & Hafter). simpl in *.
           assert (c <= c0)%nat.
           { destruct (decide (c <= c0)%nat); [done|].
             exfalso. apply Ht. eapply Hafter; [|done].
             apply lookup_lt_Some in Hcell. lia. }
           lia.
        -- exfalso. apply Ht. eapply last_printable_None; [done| |done].
           by apply lookup_lt_Some in Hcell.
      * destruct Hp as (rw & cell & Hrw & Hcell & Ht). simpl in Hrw.
        destruct (Hcover k c) as [? ?]; [by exists rw, cell|]. lia.
    + destruct Hrows as [Heq|(k & c & Hp & Heq)].
      * subst size'. destruct (last_printable r (length r)) as [c0|] eqn:Hl; [|by left].
        apply last_printable_Some in Hl as (_ & (cell & Hcell & Ht) & _). simpl in Heq.
        destruct (Z.max_spec (rows size) (Z.of_nat i + 1)) as [[_ Hm]|[_ Hm]].
        -- right. exists O, c0. split; [by exists r, cell|]. lia.
        -- left. lia.
      * right. exists (S k), c. split; [auto|lia].
    + destruct Hcols as [Heq|(k & c & Hp & Heq)].
      * subst size'. destruct (last_printable r (length r)) as [c0|] eqn:Hl; [|by left].
        apply last_printable_Some in Hl as (_ & (cell & Hcell & Ht) & _). simpl in Heq.
        destruct (Z.max_spec (cols size) (Z.of_nat c0 + 1)) as [[_ Hm]|[_ Hm]].
        -- right. exists O, c0. split; [by exists r, cell|]. lia.
        -- left. lia.
      * right. exists (S k), c. split; [auto|lia].
Qed.

(** A cell with non-empty text sits at position [p] of the sheet. *)
Definition printable (s : Sheet) (p : Position) : Prop :=
  exists c, slot s p = Some c /\ Cell_GetText c <> ""%string.

Lemma printable_printable_at s p :
  printable s p <->
  0 <= row p /\ 0 <= col p /\ printable_at (cells_ s) (Z.to_nat (row p)) (Z.to_nat (col p)).
Proof.
  unfold printable, printable_at. split.
  - intros (c & Hs & Ht). destruct (slot_nonneg _ _ _ Hs) as [Hr Hc].
    do 2 (split; [done|]). revert Hs. unfold slot.
    destruct ((0 <=? row p) && (0 <=? col p)); [|done].
    destruct (cells_ s !! Z.to_nat (row p)) as [rw|]; [|done].
    destruct (rw !! Z.to_nat (col p)) as [o|] eqn:Ho; [|done]. intros ->. eauto.
  - intros (Hr & Hc & rw & c & Hrw & Hcell & Ht). exists c. split; [|done].
    unfold slot. rewrite Hrw, Hcell.
    apply Z.leb_le in Hr, Hc. by rewrite Hr, Hc.
Qed.

(** C8: the printable size is the smallest rectangle anchored at (0,0) that
    covers every cell with non-empty text: it covers each of them, its last
    row and its last column each hold one, and it is (0,0) when there is
    none. *)
Theorem GetPrintableSize_bounding_box (s : Sheet) :
  (forall p, printable s p ->
     row p < rows (Sheet_GetPrintableSize s) /\ col p < cols (Sheet_GetPrintableSize s)) /\
  (rows (Sheet_GetPrintableSize s) = 0 \/
   exists p, printable s p /\ rows (Sheet_GetPrintableSize s) = row p + 1) /\
  (cols (Sheet_GetPrintableSize s) = 0 \/
   exists p, printable s p /\ cols (Sheet_GetPrintableSize s) = col p + 1) /\
  ((forall p, ~ printable s p) -> Sheet_GetPrintableSize s = mkSize 0 0).
Proof.
  unfold Sheet_GetPrintableSize.
  destruct (printable_rows_spec (cells_ s) 0 (mkSize 0 0)) as (_ & Hcover & Hrows & Hcols).
  simpl in *.
  assert (forall k c, printable_at (cells_ s) k c ->
            printable s (mkPosition (Z.of_nat k) (Z.of_nat c))) as Hpos.
  { intros k c Hp. apply printable_printable_at. simpl. rewrite !Nat2Z.id.
    repeat split; [lia|lia|done]. }
  assert (rows (printable_rows (cells_ s) 0 {| rows := 0; cols := 0 |}) = 0 \/
          exists p, printable s p /\
            rows (printable_rows (cells_ s) 0 {| rows := 0; cols := 0 |}) = row p + 1) as Hr.
  { destruct Hrows as [?|(k & c & Hp & Heq)]; [by left|right].
    exists (mkPosition (Z.of_nat k) (Z.of_nat c)). split; [auto|]. simpl. lia. }
  assert (cols (printable_rows (cells_ s) 0 {| rows := 0; cols := 0 |}) = 0 \/
          exists p, printable s p /\
            cols (printable_rows (cells_ s) 0 {| rows := 0; cols := 0 |}) = col p + 1) as Hc.
  { destruct Hcols as [?|(k & c & Hp & Heq)]; [by left|right].
    exists (mkPosition (Z.of_nat k) (Z.of_nat c)). split; [auto|]. simpl. lia. }
  split; [|split; [done|split; [done|]]].
  - intros p Hp. apply printable_printable_at in Hp as (? & ? & Hp).
    destruct (Hcover _ _ Hp). lia.
  - intros Hnone.
    destruct Hr as [Hr|(p & Hp & _)]; [|by destruct (Hnone p)].
    destruct Hc as [Hc|(p & Hp & _)]; [|by destruct (Hnone p)].
    destruct (printable_rows _ _ _). simpl in *. congruence.
Qed.

(** ** A small program logic for [Run] *)

(** From a sheet satisfying [P], whatever [m] does ends in [Q]. *)
Definition hoare {A} (P : Sheet -> Prop) (m : Run A) (Q : Outcome A -> Sheet -> Prop) : Prop :=
  forall s o s', P s -> m s = (o, s') -> Q o s'.

Lemma hoare_conseq {A} (P P' : Sheet -> Prop) (m : Run A) (Q Q' : Outcome A -> Sheet -> Prop) :
  hoare P' m Q' -> (forall s, P s -> P' s) -> (forall o s, Q' o s -> Q o s) -> hoare P m Q.
Proof. unfold hoare. eauto. Qed.

Lemma hoare_pre {A} (P P' : Sheet -> Prop) (m : Run A) (Q : Outcome A -> Sheet -> Prop) :
  (forall s, P s -> P' s) -> hoare P' m Q -> hoare P m Q.
Proof. unfold hoare. eauto. Qed.

Lemma hoare_ret {A} (P : Sheet -> Prop) (a : A) Q :
  (forall s, P s -> Q (Returned a) s) -> hoare P (ret a) Q.
Proof. intros HQ s o s' HP [= <- <-]. auto. Qed.

Lemma hoare_throw {A} (P : Sheet -> Prop) e (Q : Outcome A -> Sheet -> Prop) :
  (forall s, P s -> Q (Thrown e) s) -> hoare P (throw e) Q.
Proof. intros HQ s o s' HP [= <- <-]. auto. Qed.

Lemma hoare_read {A} (P : Sheet -> Prop) (f : Sheet -> Outcome A) Q :
  (forall s, P s -> Q (f s) s) -> hoare P (read f) Q.
Proof. intros HQ s o s' HP [= <- <-]. auto. Qed.

Lemma hoare_update (P : Sheet -> Prop) f Q :
  (forall s, P s -> Q (Returned tt) (f s)) -> hoare P (update f) Q.
Proof. intros HQ s o s' HP [= <- <-]. auto. Qed.

Lemma hoare_bind {A B} (P : Sheet -> Prop) (m : Run A) (k : A -> Run B)
    (R : A -> Sheet -> Prop) (Q : Outcome B -> Sheet -> Prop) :
  hoare P m (fun o s => match o with Returned a => R a s | Thrown e => Q (Thrown e) s end) ->
  (forall a, hoare (R a) (k a) Q) ->
  hoare P (bind m k) Q.
Proof.
  intros Hm Hk s o s' HP. unfold bind.
  destruct (m s) as [[a|e] s1] eqn:Hms; specialize (Hm _ _ _ HP Hms); simpl in Hm.
  - intros Hka. eapply Hk; eauto.
  - intros [= <- <-]. done.
Qed.

Lemma hoare_modify_cell (P : Sheet -> Prop) pos f Q :
  (forall s c, P s -> slot s pos = Some c -> Q (Returned tt) (store pos (Some (f c)) s)) ->
  (forall s, P s -> slot s pos = None -> Q (Thrown NullDereference) s) ->
  hoare P (modify_cell pos f) Q.
Proof.
  intros Hsome Hnone s o s' HP. unfold modify_cell.
  destruct (slot s pos) eqn:Hs; intros [= <- <-]; eauto.
Qed.

Lemma hoare_deref (P : Sheet -> Prop) pos Q :
  (forall s c, P s -> slot s pos = Some c -> Q (Returned c) s) ->
  (forall s, P s -> slot s pos = None -> Q (Thrown NullDereference) s) ->
  hoare P (read (fun s => deref s (Some pos))) Q.
Proof.
  intros Hsome Hnone. apply hoare_read. intros s HP. simpl.
  destruct (slot s pos) eqn:Hs; eauto.
Qed.

(** The loop rule: [I] is indexed by the elements already processed. *)
Lemma hoare_for_each {A} (I : list A -> Sheet -> Prop) (l : list A) (body : A -> Run unit)
    (Q : Outcome unit -> Sheet -> Prop) :
  (forall done x rest, l = done ++ x :: rest ->
     hoare (I done) (body x)
       (fun o s => match o with
                   | Returned _ => I (done ++ [x]) s
                   | Thrown e => Q (Thrown e) s
                   end)) ->
  (forall s, I l s -> Q (Returned tt) s) ->
  hoare (I []) (for_each l body) Q.
Proof.
  intros Hbody Hend.
  assert (forall rest done, l = done ++ rest -> hoare (I done) (for_each rest body) Q) as Hgen.
  { induction rest as [|x rest IH]; intros done Hl; simpl.
    - apply hoare_ret. intros s Hs. apply Hend. by rewrite Hl, app_nil_r.
    - apply (hoare_bind _ _ _ (fun _ => I (done ++ [x]))); [by eapply Hbody|].
      intros _. apply IH. by rewrite <- app_assoc. }
  by apply (Hgen l []).
Qed.

(** An invariant that survives every outcome. *)
Definition preserves {A} (I : Sheet -> Prop) (m : Run A) : Prop :=
  hoare I m (fun _ s => I s).

Lemma preserves_bind {A B} I (m : Run A) (k : A -> Run B) :
  preserves I m -> (forall a, preserves I (k a)) -> preserves I (bind m k).
Proof.
  intros Hm Hk. eapply hoare_bind; [|exact Hk].
  eapply hoare_conseq; [exact Hm|done|]. by intros [?|?].
Qed.

Lemma preserves_ret {A} I (a : A) : preserves I (ret a).
Proof. by apply hoare_ret. Qed.

Lemma preserves_throw {A} I e : preserves I (@throw A e).
Proof. by apply hoare_throw. Qed.

Lemma preserves_read {A} I (f : Sheet -> Outcome A) : preserves I (read f).
Proof. by apply hoare_read. Qed.

Lemma preserves_for_each {A} I (l : list A) body :
  (forall x, x ∈ l -> preserves I (body x)) -> preserves I (for_each l body).
Proof.
  intros Hbody. apply (hoare_for_each (fun _ => I)); [|done].
  intros done x rest Hl. eapply hoare_conseq; [apply Hbody|done|by intros [?|?]].
  rewrite Hl. set_solver.
Qed.

Lemma preserves_modify_cell I pos f :
  (forall s c, I s -> slot s pos = Some c -> I (store pos (Some (f c)) s)) ->
  preserves I (modify_cell pos f).
Proof. intros Hf. apply hoare_modify_cell; auto. Qed.

(** ** A rejected assignment *)

(** [s'] has the cells of [s], unchanged, and possibly fresh empty cells in
    slots that were free. *)
Definition placeholders (s s' : Sheet) : Prop :=
  forall q, slot s' q = slot s q \/ (slot s q = None /\ slot s' q = Some Cell_new).

Lemma placeholders_refl s : placeholders s s.
Proof. intros q. by left. Qed.

Lemma placeholders_trans s1 s2 s3 :
  placeholders s1 s2 -> placeholders s2 s3 -> placeholders s1 s3.
Proof.
  intros H12 H23 q. destruct (H12 q) as [Ha|[Ha Hb]], (H23 q) as [Hc|[Hc Hd]].
  - left. congruence.
  - right. split; congruence.
  - right. split; congruence.
  - congruence.
Qed.

Lemma GetCell_slot s pos :
  IsValid pos = true ->
  Sheet_GetCell s pos = Returned (match slot s pos with Some _ => Some pos | None => None end).
Proof.
  intros Hv. unfold Sheet_GetCell. rewrite Hv.
  destruct (in_extent s pos) eqn:He; [done|]. by rewrite not_in_extent_slot.
Qed.

Lemma GetConcreteCell_slot s pos :
  IsValid pos = true ->
  Sheet_GetConcreteCell s pos =
  Returned (match slot s pos with Some _ => Some pos | None => None end).
Proof. apply GetCell_slot. Qed.

Lemma GetConcreteCell_Some s q u :
  Sheet_GetConcreteCell s q = Returned (Some u) -> u = q /\ slot s q <> None.
Proof.
  unfold Sheet_GetConcreteCell. destruct (IsValid q); [|done].
  destruct (in_extent s q); [|done]. destruct (slot s q); [|done].
  by intros [= <-].
Qed.

Lemma GetConcreteCell_None s q :
  Sheet_GetConcreteCell s q = Returned None -> slot s q = None.
Proof.
  unfold Sheet_GetConcreteCell. destruct (IsValid q); [|done].
  destruct (in_extent s q) eqn:He; [|intros _; by apply not_in_extent_slot].
  by destruct (slot s q).
Qed.

Lemma materialize_spec pos s :
  IsValid pos = true ->
  (forall q, q <> pos -> slot (materialize pos s) q = slot s q) /\
  slot (materialize pos s) pos = Some (default Cell_new (slot s pos)) /\
  in_extent (materialize pos s) pos = true.
Proof.
  intros Hv. apply IsValid_bounds in Hv as [[Hr _] [Hc _]].
  pose proof (in_extent_grow pos s Hr Hc) as Hext.
  unfold materialize. rewrite slot_grow.
  destruct (slot s pos) as [c|] eqn:Hs; simpl.
  - split; [intros; apply slot_grow|]. by rewrite slot_grow.
  - split; [|split].
    + intros q Hq. rewrite slot_store by done. rewrite decide_False by done.
      apply slot_grow.
    + rewrite slot_store by done. by rewrite decide_True.
    + by rewrite in_extent_store.
Qed.

Lemma materialize_placeholders pos s :
  IsValid pos = true -> placeholders s (materialize pos s).
Proof.
  intros Hv q. destruct (materialize_spec pos s Hv) as (Hother & Hpos & _).
  destruct (decide (q = pos)) as [->|Hq]; [|left; auto].
  rewrite Hpos. destruct (slot s pos); simpl; auto.
Qed.

(** No outcome of [m] is the exception [e]. *)
Definition never {A} (e : Exception) (m : Run A) : Prop :=
  hoare (fun _ => True) m (fun o _ => o <> Thrown e).

Lemma never_bind {A B} e (m : Run A) (k : A -> Run B) :
  never e m -> (forall a, never e (k a)) -> never e (bind m k).
Proof.
  intros Hm Hk. apply (hoare_bind _ _ _ (fun _ _ => True)); [|exact Hk].
  eapply hoare_conseq; [exact Hm|done|].
  intros [?|e0] s Hne; [done|]. intros [= ->]. by apply Hne.
Qed.

Lemma never_for_each {A} e (l : list A) body :
  (forall x, never e (body x)) -> never e (for_each l body).
Proof.
  intros Hbody. apply (hoare_for_each (fun _ _ => True)); [|done].
  intros done x rest _. eapply hoare_conseq; [apply Hbody|done|].
  by intros [?|e0] s Hne.
Qed.

Lemma never_modify_cell e pos f : e <> NullDereference -> never e (modify_cell pos f).
Proof. intros He. apply hoare_modify_cell; [done|]. intros s _ _ [= <-]. done. Qed.

Lemma never_deref e pos :
  e <> NullDereference -> never e (read (fun s => deref s (Some pos))).
Proof. intros He. apply hoare_deref; [done|]. intros s _ _ [= <-]. done. Qed.

Lemma never_GetConcreteCell e pos :
  e <> InvalidPositionException -> never e (read (fun s => Sheet_GetConcreteCell s pos)).
Proof.
  intros He. apply hoare_read. intros s _. unfold Sheet_GetConcreteCell.
  repeat case_match; try done. intros [= <-]. done.
Qed.

Lemma ResetCache_never_cycle fuel self force :
  never CircularDependencyException (Cell_ResetCache fuel self force).
Proof.
  revert self force. induction fuel as [|fuel IH]; intros self force; simpl.
  - by apply hoare_throw.
  - apply never_bind; [by apply never_deref|]. intros c.
    destruct (Impl_HasCache (impl_ c) || force); [|by apply hoare_ret].
    apply never_bind; [by apply never_modify_cell|]. intros _.
    apply never_for_each. auto.
Qed.

Lemma commit_never_cycle SetCell fuel self impl :
  (forall p, never CircularDependencyException (SetCell p ""%string)) ->
  never CircularDependencyException (Cell_Set_commit SetCell fuel self impl).
Proof.
  intros Hrec. unfold Cell_Set_commit.
  apply never_bind; [|intros _; apply ResetCache_never_cycle].
  unfold Cell_Set_rewire.
  apply never_bind; [by apply never_modify_cell|]. intros _.
  apply never_bind; [by apply never_deref|]. intros c.
  apply never_bind.
  { apply never_for_each. intros used. unfold Cell_Set_unlink.
    apply never_bind; [by apply never_deref|]. intros cu. by apply never_modify_cell. }
  intros _. apply never_bind; [by apply never_modify_cell|]. intros _.
  apply never_for_each. intros q. unfold Cell_Set_link.
  apply never_bind; [by apply never_GetConcreteCell|]. intros found.
  apply never_bind.
  { destruct found; [by apply hoare_ret|].
    apply never_bind; [apply Hrec|]. intros _. by apply never_GetConcreteCell. }
  intros [u|]; [|by apply hoare_throw].
  apply never_bind; [by apply never_deref|]. intros c'.
  apply never_bind; [by apply never_modify_cell|]. intros _.
  apply never_bind; [by apply never_deref|]. intros cu. by apply never_modify_cell.
Qed.

Lemma Cell_Set_empty SetCell fuel self pos :
  Cell_Set SetCell fuel self ""%string pos = Cell_Set_commit SetCell fuel self EmptyImpl.
Proof. done. Qed.

Lemma SetCell_empty_never_cycle fuel p :
  never CircularDependencyException (Sheet_SetCell fuel p ""%string).
Proof.
  revert p. induction fuel as [|fuel IH]; intros p; simpl.
  - by apply hoare_throw.
  - destruct (IsValid p); [|by apply hoare_throw].
    apply never_bind; [by apply hoare_update|]. intros _.
    rewrite Cell_Set_empty. by apply commit_never_cycle.
Qed.

(** The only cell at [p] is fresh, everything else is as in [s0]. *)
Definition fresh_at (p : Position) (s0 s : Sheet) : Prop :=
  (forall q, q <> p -> slot s q = slot s0 q) /\ slot s p = Some Cell_new.

Lemma fresh_at_store p s0 s :
  fresh_at p s0 s -> fresh_at p s0 (store p (Some Cell_new) s).
Proof.
  intros [Hother Hp]. split.
  - intros q Hq. rewrite (slot_store_occupied _ _ _ _ _ Hp), decide_False by done. auto.
  - by rewrite (slot_store_occupied _ _ _ _ _ Hp), decide_True.
Qed.

Lemma ResetCache_fresh fuel p s0 :
  hoare (fresh_at p s0) (Cell_ResetCache fuel p true)
        (fun o s => fresh_at p s0 s /\ (o = Returned tt \/ o = Thrown FuelExhausted)).
Proof.
  destruct fuel as [|fuel]; simpl.
  - apply hoare_throw. auto.
  - apply (hoare_bind _ _ _ (fun c s => fresh_at p s0 s /\ c = Cell_new)).
    { apply hoare_deref.
      - intros s c [Hother Hp] Hs. split; [done|congruence].
      - intros s [Hother Hp] Hs. congruence. }
    intros c. rewrite orb_true_r.
    apply (hoare_bind _ _ _ (fun _ s => fresh_at p s0 s /\ c = Cell_new)).
    { apply hoare_modify_cell.
      - intros s c' [Hf ->] Hs. split; [|done].
        destruct Hf as [? Hp]. assert (c' = Cell_new) as -> by congruence.
        by apply fresh_at_store.
      - intros s [[_ Hp] _] Hs. congruence. }
    intros _. apply hoare_conseq with
      (P' := fun s => fresh_at p s0 s /\ c = Cell_new)
      (Q' := fun o s => (fresh_at p s0 s /\ c = Cell_new) /\ o = Returned tt).
    + intros s o s' [Hf ->] Hrun. change (calculated_cells_ Cell_new) with (∅ : gset Position) in Hrun.
      rewrite elements_empty in Hrun. by injection Hrun as <- <-.
    + done.
    + intros o s [[? ?] ?]. auto.
Qed.

Lemma commit_fresh SetCell fuel p s0 :
  hoare (fresh_at p s0) (Cell_Set_commit SetCell fuel p EmptyImpl)
        (fun o s => fresh_at p s0 s /\ (o = Returned tt \/ o = Thrown FuelExhausted)).
Proof.
  unfold Cell_Set_commit.
  apply (hoare_bind _ _ _ (fun _ s => fresh_at p s0 s)); [|intros _; apply ResetCache_fresh].
  unfold Cell_Set_rewire.
  assert (forall (f : Cell -> Cell), f Cell_new = Cell_new ->
            hoare (fresh_at p s0) (modify_cell p f)
              (fun o s => match o with
                          | Returned _ => fresh_at p s0 s
                          | Thrown e => fresh_at p s0 s /\
                              (Thrown e = Returned tt \/ @Thrown unit e = Thrown FuelExhausted)
                          end)) as Hmod.
  { intros f Hf. apply hoare_modify_cell.
    - intros s c Hfr Hs. destruct Hfr as [? Hp].
      assert (c = Cell_new) as -> by congruence. rewrite Hf. by apply fresh_at_store.
    - intros s [_ Hp] Hs. congruence. }
  apply (hoare_bind _ _ _ (fun _ s => fresh_at p s0 s)); [by apply Hmod|]. intros _.
  apply (hoare_bind _ _ _ (fun c s => fresh_at p s0 s /\ c = Cell_new)).
  { apply hoare_deref.
    - intros s c [Hother Hp] Hs. split; [done|congruence].
    - intros s [Hother Hp] Hs. congruence. }
  intros c.
  apply (hoare_bind _ _ _ (fun _ s => fresh_at p s0 s)).
  { intros s o s' [Hf ->] Hrun. change (using_cells_ Cell_new) with (∅ : gset Position) in Hrun.
    rewrite elements_empty in Hrun. by injection Hrun as <- <-. }
  intros _. apply (hoare_bind _ _ _ (fun _ s => fresh_at p s0 s)); [by apply Hmod|].
  intros _. by apply hoare_ret.
Qed.

Lemma SetCell_empty_absent fuel p s :
  slot s p = None ->
  hoare (eq s) (Sheet_SetCell fuel p ""%string)
        (fun o s' => (o = Returned tt -> slot s' p = Some Cell_new) /\ placeholders s s').
Proof.
  intros Hnone. destruct fuel as [|fuel]; simpl.
  - apply hoare_throw. intros ? <-. split; [done|apply placeholders_refl].
  - destruct (IsValid p) eqn:Hv.
    2:{ apply hoare_throw. intros ? <-. split; [done|apply placeholders_refl]. }
    apply (hoare_bind _ _ _ (fun _ s' => fresh_at p s s')).
    { apply hoare_update. intros ? <-.
      destruct (materialize_spec p s Hv) as (Hother & Hp & _).
      split; [done|]. by rewrite Hp, Hnone. }
    intros _. rewrite Cell_Set_empty.
    eapply hoare_conseq; [apply commit_fresh|done|].
    intros o s' [[Hother Hp] _]. split; [done|].
    intros q. destruct (decide (q = p)) as [->|Hq]; [right|left]; auto.
Qed.

Lemma SetCell_empty_outcome fuel p s o s' :
  IsValid p = true -> slot s p = None ->
  Sheet_SetCell fuel p ""%string s = (o, s') ->
  o = Returned tt \/ o = Thrown FuelExhausted.
Proof.
  intros Hv Hnone. destruct fuel as [|fuel]; simpl; [intros [= <- <-]; auto|].
  rewrite Hv. unfold bind at 1, update at 1. rewrite Cell_Set_empty. intros Hrun.
  eapply (commit_fresh _ fuel p s _ o s'); [|exact Hrun].
  destruct (materialize_spec p s Hv) as (Hother & Hp & _).
  split; [done|]. by rewrite Hp, Hnone.
Qed.

Lemma candidate_placeholders fuel text s0 :
  hoare (placeholders s0) (Cell_Set_candidate (Sheet_SetCell fuel) text)
        (fun o s => placeholders s0 s /\ o <> Thrown CircularDependencyException).
Proof.
  unfold Cell_Set_candidate. destruct text as [|c rest]; [by apply hoare_ret|].
  destruct (_ && _); [|by apply hoare_ret].
  apply (hoare_bind _ _ _ (fun _ s => placeholders s0 s)).
  { apply hoare_read. intros s Hs. unfold ParseFormula. by destruct (ParseFormulaAST rest). }
  intros formula.
  apply (hoare_bind _ _ _ (fun _ s => placeholders s0 s)); [|intros _; by apply hoare_ret].
  apply (hoare_for_each (fun _ => placeholders s0)); [|done].
  intros _ q _ _ s o s' Hs.
  destruct (IsValid q) eqn:Hq; [|by intros [= <- <-]].
  unfold bind, read. rewrite (GetCell_slot _ _ Hq).
  destruct (slot s q) eqn:Hslot; [by intros [= <- <-]|].
  intros Hrun.
  pose proof (SetCell_empty_absent fuel q s Hslot s o s' eq_refl Hrun) as [_ Hpl].
  pose proof (SetCell_empty_never_cycle fuel q s o s' I Hrun) as Hne.
  assert (placeholders s0 s') by by eapply placeholders_trans.
  destruct o as [?|e]; [done|]. split; [done|]. intros [= ->]. by apply Hne.
Qed.

Lemma Cell_Set_cycle_placeholders fuel fuel' self text pos s0 :
  hoare (placeholders s0) (Cell_Set (Sheet_SetCell fuel) fuel' self text pos)
        (fun o s => o = Thrown CircularDependencyException -> placeholders s0 s).
Proof.
  unfold Cell_Set.
  apply (hoare_bind _ _ _ (fun _ s => placeholders s0 s)).
  { eapply hoare_conseq; [apply candidate_placeholders|done|].
    intros [impl|e] s [? ?]; [done|]. congruence. }
  intros impl.
  apply (hoare_bind _ _ _ (fun _ s => placeholders s0 s)).
  { apply hoare_read. intros s Hs. by destruct (Cell_CheckCircularDependencies _ _ _ _). }
  intros [|]; [by apply hoare_throw|].
  eapply hoare_conseq; [apply commit_never_cycle, SetCell_empty_never_cycle|done|].
  intros o s Hne ->. done.
Qed.

(** The sheet reached when [Sheet::SetCell] runs up to the call of
    [Cell::Set]. *)
Lemma SetCell_cycle_inv fuel pos text s s' :
  Sheet_SetCell fuel pos text s = (Thrown CircularDependencyException, s') ->
  IsValid pos = true /\ placeholders (materialize pos s) s'.
Proof.
  destruct fuel as [|fuel]; simpl; [done|].
  destruct (IsValid pos) eqn:Hv; [|done].
  unfold bind at 1. unfold update at 1. intros Hrun. split; [done|].
  by eapply (Cell_Set_cycle_placeholders _ _ _ _ _ _ _ _ _ (placeholders_refl _) Hrun).
Qed.

Lemma GetCell_const_slot s pos :
  IsValid pos = true ->
  Sheet_GetCell_const s pos =
  Returned (match slot s pos with
            | Some c => if bool_decide (Cell_GetText c = ""%string) then None else Some pos
            | None => None
            end).
Proof.
  intros Hv. unfold Sheet_GetCell_const. rewrite Hv.
  destruct (in_extent s pos) eqn:He.
  - destruct (slot s pos); [by case_bool_decide|done].
  - by rewrite not_in_extent_slot.
Qed.

Lemma GetCell_const_placeholders s s' pos :
  placeholders s s' -> Sheet_GetCell_const s' pos = Sheet_GetCell_const s pos.
Proof.
  intros Hpl. destruct (IsValid pos) eqn:Hv.
  - rewrite !GetCell_const_slot by done.
    destruct (Hpl pos) as [->|[-> ->]]; done.
  - unfold Sheet_GetCell_const. by rewrite Hv.
Qed.

(** C9: when [SetCell] on a valid position without a cell throws
    [CircularDependencyException], the table covers the position afterwards
    and the non-const [GetCell], which answered null before, answers a cell
    with empty text. *)
Theorem SetCell_cycle_materializes_target fuel pos text s s' :
  IsValid pos = true ->
  slot s pos = None ->
  Sheet_SetCell fuel pos text s = (Thrown CircularDependencyException, s') ->
  Sheet_GetCell s pos = Returned None /\
  in_extent s' pos = true /\
  Sheet_GetCell s' pos = Returned (Some pos) /\
  exists c, slot s' pos = Some c /\ Cell_GetText c = ""%string.
Proof.
  intros Hv Hnone Hrun. apply SetCell_cycle_inv in Hrun as [_ Hpl].
  destruct (materialize_spec pos s Hv) as (_ & Hpos & _).
  rewrite Hnone in Hpos. simpl in Hpos.
  assert (slot s' pos = Some Cell_new) as Hs'.
  { destruct (Hpl pos) as [?|[? ?]]; congruence. }
  rewrite !GetCell_slot, Hnone, Hs' by done.
  repeat split; [by eapply slot_in_extent|]. by exists Cell_new.
Qed.

(** ** Calls that touch caches only *)

(** [s'] is [s] up to the cached values of formula cells. *)
Definition same_but_caches (s s' : Sheet) : Prop :=
  forall q, reset_cache <$> slot s' q = reset_cache <$> slot s q.

Lemma same_but_caches_refl s : same_but_caches s s.
Proof. done. Qed.

Lemma same_but_caches_trans s1 s2 s3 :
  same_but_caches s1 s2 -> same_but_caches s2 s3 -> same_but_caches s1 s3.
Proof. intros H12 H23 q. by rewrite H23, H12. Qed.

Lemma reset_cache_idemp c : reset_cache (reset_cache c) = reset_cache c.
Proof. destruct c as [[]]; done. Qed.

Lemma reset_cache_set_cache v c : reset_cache (set_cache v c) = reset_cache c.
Proof. destruct c as [[]]; done. Qed.

Lemma same_but_caches_store s0 s pos c f :
  (forall c, reset_cache (f c) = reset_cache c) ->
  same_but_caches s0 s -> slot s pos = Some c ->
  same_but_caches s0 (store pos (Some (f c)) s).
Proof.
  intros Hf Hs Hc q. rewrite (slot_store_occupied _ _ _ _ _ Hc).
  case_decide as Hq; [|done]. subst q. rewrite <- Hs, Hc. simpl. by rewrite Hf.
Qed.

Lemma ResetCache_caches_only fuel self force s0 :
  preserves (same_but_caches s0) (Cell_ResetCache fuel self force).
Proof.
  revert self force. induction fuel as [|fuel IH]; intros self force; simpl.
  - apply preserves_throw.
  - apply preserves_bind; [apply preserves_read|]. intros c.
    destruct (_ || _); [|apply preserves_ret].
    apply preserves_bind.
    + apply preserves_modify_cell. intros s c' Hs Hc.
      by apply same_but_caches_store; [apply reset_cache_idemp|..].
    + intros _. apply preserves_for_each. auto.
Qed.

Lemma Execute_preserves I args e :
  (forall p, preserves I (args p)) -> preserves I (Execute args e).
Proof.
  intros Hargs. induction e as [v|p|op e IH|op l IHl r IHr]; simpl.
  - apply preserves_ret.
  - apply Hargs.
  - apply preserves_bind; [done|]. intros x. apply preserves_ret.
  - apply preserves_bind; [done|]. intros x.
    apply preserves_bind; [done|]. intros y.
    destruct (is_finite _); [apply preserves_ret|apply preserves_throw].
Qed.

Lemma Evaluate_preserves I GetValue ast_ :
  (forall p, preserves I (GetValue p)) -> preserves I (Formula_Evaluate GetValue ast_).
Proof.
  intros Hget s o s' Hs. unfold Formula_Evaluate.
  destruct (Execute _ _ s) as [[d|e] s1] eqn:Hrun.
  - intros [= <- <-]. eapply (Execute_preserves I); [|done|done].
    intros p. unfold params. destruct (negb _); [apply preserves_throw|].
    apply preserves_bind; [apply preserves_read|].
    intros [c|]; [|apply preserves_ret].
    apply preserves_bind; [apply Hget|]. intros v. apply preserves_read.
  - assert (I s1) as Hs1.
    { eapply (Execute_preserves I); [|done|done].
      intros p. unfold params. destruct (negb _); [apply preserves_throw|].
      apply preserves_bind; [apply preserves_read|].
      intros [c|]; [|apply preserves_ret].
      apply preserves_bind; [apply Hget|]. intros v. apply preserves_read. }
    destruct e; intros [= <- <-]; done.
Qed.

Lemma GetValue_caches_only fuel self s0 :
  preserves (same_but_caches s0) (Cell_GetValue fuel self).
Proof.
  revert self. induction fuel as [|fuel IH]; intros self; simpl.
  - apply preserves_throw.
  - apply preserves_bind; [apply preserves_read|]. intros c.
    destruct (impl_ c) as [|t|[v|] f].
    + apply preserves_ret.
    + apply preserves_read.
    + apply preserves_ret.
    + apply preserves_bind; [by apply Evaluate_preserves|]. intros v.
      apply preserves_bind; [|intros _; apply preserves_ret].
      apply preserves_modify_cell. intros s c' Hs Hc.
      by apply same_but_caches_store; [apply reset_cache_set_cache|..].
Qed.

Lemma PrintValues_caches_only fuel s0 :
  preserves (same_but_caches s0) (Sheet_PrintValues fuel).
Proof.
  unfold Sheet_PrintValues.
  assert (forall steps r c, preserves (same_but_caches s0) (PrintValues_cols fuel steps r c))
    as Hcols.
  { induction steps as [|steps IH]; intros r c; simpl; [apply preserves_throw|].
    apply preserves_bind; [apply preserves_read|]. intros size.
    destruct (c <? cols size); [|apply preserves_ret].
    apply preserves_bind; [apply preserves_read|]. intros occupied.
    apply preserves_bind; [|intros _; apply IH].
    destruct occupied; [|apply preserves_ret].
    apply preserves_bind; [apply GetValue_caches_only|]. intros _. apply preserves_ret. }
  assert (forall steps r, preserves (same_but_caches s0) (PrintValues_rows fuel steps r))
    as Hrows; [|apply Hrows].
  induction steps as [|steps IH]; intros r; simpl; [apply preserves_throw|].
  apply preserves_bind; [apply preserves_read|]. intros size.
  destruct (r <? rows size); [|apply preserves_ret].
  apply preserves_bind; [apply Hcols|]. intros _. apply IH.
Qed.

(** ** Invariants of the public interface

    An invariant [I] of sheets, with a guarantee [G] on candidate
    implementations, is carried through every public operation once it
    survives the elementary steps listed as hypotheses. *)

Section Walk.
Variable I : Sheet -> Prop.
Variable G : Impl -> Prop.
Hypothesis G_empty : G EmptyImpl.
Hypothesis G_text : forall c rest, G (TextImpl (String c rest)).
Hypothesis G_formula : forall f, G (FormulaImpl None f).
Hypothesis I_materialize : forall pos s, IsValid pos = true -> I s -> I (materialize pos s).
Hypothesis I_caches : forall s s', same_but_caches s s' -> I s -> I s'.
Hypothesis I_commit : forall fuel0 fuel self impl,
  (forall p, preserves I (Sheet_SetCell fuel0 p ""%string)) -> G impl ->
  preserves I (Cell_Set_commit (Sheet_SetCell fuel0) fuel self impl).
Hypothesis I_clear : forall fuel pos,
  (forall p, preserves I (Sheet_SetCell fuel p ""%string)) ->
  preserves I (Sheet_ClearCell fuel pos).

Lemma walk_candidate fuel0 text :
  (forall p, preserves I (Sheet_SetCell fuel0 p ""%string)) ->
  hoare I (Cell_Set_candidate (Sheet_SetCell fuel0) text)
        (fun o s => I s /\ forall i, o = Returned i -> G i).
Proof.
  intros Hrec. unfold Cell_Set_candidate. destruct text as [|c rest].
  { apply hoare_ret. intros s Hs. split; [done|]. by intros i [= <-]. }
  destruct (_ && _).
  2:{ apply hoare_ret. intros s Hs. split; [done|]. by intros i [= <-]. }
  apply (hoare_bind _ _ _ (fun _ s => I s)).
  { apply hoare_read. intros s Hs. unfold ParseFormula.
    destruct (ParseFormulaAST rest); [done|]. split; [done|]. by intros i [=]. }
  intros formula.
  apply (hoare_bind _ _ _ (fun _ s => I s)).
  2:{ intros _. apply hoare_ret. intros s Hs. split; [done|]. by intros i [= <-]. }
  apply (hoare_for_each (fun _ => I)); [|done].
  intros _ q _ _.
  apply hoare_conseq with (P' := I) (Q' := fun _ s => I s); [|done|].
  - destruct (IsValid q); [|apply preserves_ret].
    apply preserves_bind; [apply preserves_read|].
    intros [?|]; [apply preserves_ret|apply Hrec].
  - intros [?|e] s Hs; [done|]. split; [done|]. by intros i [=].
Qed.

Lemma walk_Set fuel0 fuel self text pos :
  (forall p, preserves I (Sheet_SetCell fuel0 p ""%string)) ->
  preserves I (Cell_Set (Sheet_SetCell fuel0) fuel self text pos).
Proof.
  intros Hrec. unfold Cell_Set.
  apply (hoare_bind _ _ _ (fun i s => I s /\ G i)).
  { eapply hoare_conseq; [by apply walk_candidate|done|].
    intros [i|e] s [Hs Hi]; [auto|done]. }
  intros impl.
  apply (hoare_bind _ _ _ (fun _ s => I s /\ G impl)).
  { apply hoare_read. intros s [Hs Hi]. by destruct (Cell_CheckCircularDependencies _ _ _ _). }
  intros [|]; [apply hoare_throw; by intros s [? ?]|].
  intros s o s' [Hs Hi]. by apply I_commit.
Qed.

Lemma walk_SetCell fuel pos text : preserves I (Sheet_SetCell fuel pos text).
Proof.
  revert pos text. induction fuel as [|fuel IH]; intros pos text; simpl.
  - apply preserves_throw.
  - destruct (IsValid pos) eqn:Hv; [|apply preserves_throw].
    apply preserves_bind; [apply hoare_update; auto|].
    intros _. apply walk_Set. auto.
Qed.

Lemma walk_GetValue fuel self : preserves I (Cell_GetValue fuel self).
Proof.
  intros s o s' Hs Hrun. apply (I_caches s); [|done].
  by eapply (GetValue_caches_only fuel self s); [apply same_but_caches_refl|].
Qed.

Lemma walk_perform fuel op : preserves I (perform fuel op).
Proof.
  destruct op as [pos text|pos|pos|pos| | |]; simpl.
  - apply walk_SetCell.
  - apply I_clear. intros p. apply walk_SetCell.
  - apply preserves_bind; [apply preserves_read|].
    intros [c|]; [|apply preserves_ret].
    apply preserves_bind; [apply walk_GetValue|]. intros _. apply preserves_ret.
  - apply preserves_bind; [apply preserves_read|]. intros _. apply preserves_ret.
  - apply preserves_ret.
  - intros s o s' Hs Hrun. apply (I_caches s); [|done].
    by eapply (PrintValues_caches_only fuel s); [apply same_but_caches_refl|].
  - apply preserves_ret.
Qed.

Lemma walk_reachable s : I Sheet_new -> reachable s -> I s.
Proof.
  intros Hnew. induction 1 as [|fuel op s o s' _ IH Hrun]; [done|].
  by eapply walk_perform.
Qed.

End Walk.

(** The rewiring of [Cell::Set] keeps an invariant that each of its
    elementary updates keeps; [SetCell] is only called on a free slot. *)
Lemma rewire_preserves I SetCell self impl :
  preserves I (modify_cell self (set_impl impl)) ->
  (forall pos u, preserves I (modify_cell pos (set_calculated u))) ->
  (forall u, preserves I (modify_cell self (set_using u))) ->
  (forall q, hoare (fun s => I s /\ slot s q = None) (SetCell q ""%string) (fun _ s => I s)) ->
  preserves I (Cell_Set_rewire SetCell self impl).
Proof.
  intros Himpl Hcalc Husing Hrec. unfold Cell_Set_rewire.
  apply preserves_bind; [done|]. intros _.
  apply preserves_bind; [apply preserves_read|]. intros c.
  apply preserves_bind.
  { apply preserves_for_each. intros used _. unfold Cell_Set_unlink.
    apply preserves_bind; [apply preserves_read|]. intros cu. apply Hcalc. }
  intros _. apply preserves_bind; [apply Husing|]. intros _.
  apply preserves_for_each. intros q _. unfold Cell_Set_link.
  apply (hoare_bind _ _ _
           (fun found s => I s /\ Sheet_GetConcreteCell s q = Returned found)).
  { apply hoare_read. intros s Hs. by destruct (Sheet_GetConcreteCell s q). }
  intros found.
  apply (hoare_bind _ _ _ (fun _ s => I s)).
  { destruct found.
    - apply hoare_ret. by intros s [? ?].
    - apply (hoare_bind _ _ _ (fun _ s => I s)).
      + eapply hoare_conseq; [apply (Hrec q)| |].
        * intros s [Hs Hg]. split; [done|]. by apply GetConcreteCell_None.
        * by intros [?|?].
      + intros _. apply hoare_read. intros s Hs. by destruct (Sheet_GetConcreteCell s q). }
  intros [u|]; [|apply preserves_throw].
  apply preserves_bind; [apply preserves_read|]. intros c'.
  apply preserves_bind; [apply Husing|]. intros _.
  apply preserves_bind; [apply preserves_read|]. intros cu.
  apply Hcalc.
Qed.

Lemma commit_preserves I SetCell fuel self impl :
  preserves I (modify_cell self (set_impl impl)) ->
  (forall pos u, preserves I (modify_cell pos (set_calculated u))) ->
  (forall pos u, preserves I (modify_cell pos (set_using u))) ->
  (forall p, preserves I (SetCell p ""%string)) ->
  (forall s s', same_but_caches s s' -> I s -> I s') ->
  preserves I (Cell_Set_commit SetCell fuel self impl).
Proof.
  intros Himpl Hcalc Husing Hrec Hcaches. unfold Cell_Set_commit.
  apply preserves_bind.
  { apply rewire_preserves; try done.
    intros q. eapply hoare_pre; [|apply Hrec]. by intros s [? _]. }
  intros _ s o s' Hs Hrun. apply (Hcaches s); [|done].
  by eapply (ResetCache_caches_only fuel self true s); [apply same_but_caches_refl|].
Qed.

(** ** Text cells are never empty *)

Definition impl_ok (i : Impl) : Prop := forall t, i = TextImpl t -> t <> ""%string.

Definition text_ok (s : Sheet) : Prop :=
  forall p c, slot s p = Some c -> impl_ok (impl_ c).

Lemma text_ok_store s pos c0 c' :
  text_ok s -> slot s pos = Some c0 -> impl_ok (impl_ c') ->
  text_ok (store pos (Some c') s).
Proof.
  intros Hs Hc0 Hc' q c. rewrite (slot_store_occupied _ _ _ _ _ Hc0).
  case_decide; [by intros [= <-]|apply Hs].
Qed.

Lemma text_ok_modify pos f :
  (forall c, impl_ok (impl_ c) -> impl_ok (impl_ (f c))) ->
  preserves text_ok (modify_cell pos f).
Proof.
  intros Hf. apply preserves_modify_cell. intros s c Hs Hc.
  eapply text_ok_store; eauto.
Qed.

Lemma text_ok_materialize pos s :
  IsValid pos = true -> text_ok s -> text_ok (materialize pos s).
Proof.
  intros Hv Hs q c Hq. destruct (materialize_placeholders pos s Hv q) as [Heq|[_ Heq]].
  - apply (Hs q). congruence.
  - assert (c = Cell_new) as -> by congruence. by intros t.
Qed.

Lemma text_ok_caches s s' : same_but_caches s s' -> text_ok s -> text_ok s'.
Proof.
  intros Hsame Hs q c' Hq t Ht. specialize (Hsame q). rewrite Hq in Hsame.
  destruct (slot s q) as [c|] eqn:Hc; [|done]. injection Hsame as Heq.
  apply (Hs q c Hc t).
  destruct c as [[]], c' as [[]]; simpl in *; congruence.
Qed.

Lemma text_ok_commit SetCell fuel self impl :
  (forall p, preserves text_ok (SetCell p ""%string)) -> impl_ok impl ->
  preserves text_ok (Cell_Set_commit SetCell fuel self impl).
Proof.
  intros Hrec Himpl. apply commit_preserves; try done.
  - by apply text_ok_modify.
  - intros pos u. by apply text_ok_modify.
  - intros pos u. by apply text_ok_modify.
  - apply text_ok_caches.
Qed.

Lemma text_ok_clear fuel pos :
  (forall p, preserves text_ok (Sheet_SetCell fuel p ""%string)) ->
  preserves text_ok (Sheet_ClearCell fuel pos).
Proof.
  intros Hrec. unfold Sheet_ClearCell.
  destruct (IsValid pos); [|apply preserves_throw].
  apply preserves_bind; [apply preserves_read|].
  intros [|]; [|apply preserves_ret].
  apply preserves_bind.
  { unfold Cell_Clear. apply preserves_bind; [apply preserves_read|]. intros c.
    rewrite Cell_Set_empty. by apply text_ok_commit. }
  intros _.
  apply (hoare_bind _ _ _ (fun c s => text_ok s /\ slot s pos = Some c)).
  { apply hoare_deref; auto. }
  intros c. destruct (negb _); [|apply hoare_ret; by intros s [? ?]].
  apply hoare_update. intros s [Hs Hc] q c'.
  rewrite (slot_store_occupied _ _ _ _ _ Hc). case_decide; [done|apply Hs].
Qed.

Lemma slot_new p : slot Sheet_new p = None.
Proof. unfold slot. by destruct (_ && _). Qed.

Lemma reachable_text_ok s : reachable s -> text_ok s.
Proof.
  apply (walk_reachable text_ok impl_ok).
  - by intros t.
  - intros c rest t [= <-]. done.
  - by intros f t.
  - apply text_ok_materialize.
  - apply text_ok_caches.
  - intros fuel0 fuel self impl. apply text_ok_commit.
  - apply text_ok_clear.
  - intros p c Hp. by rewrite slot_new in Hp.
Qed.

(** [GetValue] does not end in [FormulaException] on a sheet whose text
    cells are non-empty. *)
Lemma GetValue_no_FormulaException fuel self :
  hoare text_ok (Cell_GetValue fuel self)
        (fun o s => text_ok s /\ o <> Thrown FormulaException).
Proof.
  revert self. induction fuel as [|fuel IH]; intros self; simpl.
  { apply hoare_throw. done. }
  apply (hoare_bind _ _ _ (fun c s => text_ok s /\ impl_ok (impl_ c))).
  { apply hoare_deref; [|done]. intros s c Hs Hc. split; [done|]. by apply (Hs self). }
  intros c. destruct (impl_ c) as [|t|[v|] f].
  - apply hoare_ret. by intros s [? ?].
  - apply hoare_read. intros s [Hs Ht]. split; [done|].
    destruct t as [|a t]; [by destruct (Ht "" eq_refl)|].
    simpl. by case_bool_decide.
  - apply hoare_ret. by intros s [? ?].
  - apply (hoare_bind _ _ _ (fun _ s => text_ok s)).
    2:{ intros v. apply (hoare_bind _ _ _ (fun _ s => text_ok s)).
        - apply hoare_modify_cell; [|done]. intros s c' Hs Hc.
          eapply text_ok_store; [done..|].
          specialize (Hs self c' Hc). destruct c' as [[]]; done.
        - intros _. by apply hoare_ret. }
    assert (forall e, hoare text_ok (Execute (params (Cell_GetValue fuel)) e)
                        (fun o s => text_ok s /\ o <> Thrown FormulaException)) as Hexe.
    { induction e as [v|p|op e IHe|op l IHl r IHr]; simpl.
      - by apply hoare_ret.
      - unfold params. destruct (negb _); [by apply hoare_throw|].
        apply (hoare_bind _ _ _ (fun _ s => text_ok s)).
        { apply hoare_read. intros s Hs.
          destruct (Sheet_GetCell_const s p) as [?|e] eqn:Hg; [done|]. split; [done|].
          unfold Sheet_GetCell_const in Hg. repeat case_match; congruence. }
        intros [q|]; [|by apply hoare_ret].
        apply (hoare_bind _ _ _ (fun _ s => text_ok s)).
        { eapply hoare_conseq; [apply IH|done|]. intros [?|?] s [? ?]; [done|].
          split; [done|]. congruence. }
        intros v. apply hoare_read. intros s Hs. split; [done|].
        unfold lookup_value. repeat case_match; congruence.
      - apply (hoare_bind _ _ _ (fun _ s => text_ok s)).
        + eapply hoare_conseq; [apply IHe|done|]. intros [?|?] s [? ?]; [done|].
          split; [done|]. congruence.
        + intros x. by apply hoare_ret.
      - apply (hoare_bind _ _ _ (fun _ s => text_ok s)).
        { eapply hoare_conseq; [apply IHl|done|]. intros [?|?] s [? ?]; [done|].
          split; [done|]. congruence. }
        intros x. apply (hoare_bind _ _ _ (fun _ s => text_ok s)).
        { eapply hoare_conseq; [apply IHr|done|]. intros [?|?] s [? ?]; [done|].
          split; [done|]. congruence. }
        intros y. destruct (is_finite _); [by apply hoare_ret|by apply hoare_throw]. }
    intros s o s' [Hs _]. unfold Formula_Evaluate.
    destruct (Execute _ _ s) as [[d|e] s1] eqn:Hrun.
    + intros [= <- <-]. by destruct (Hexe _ _ _ _ Hs Hrun).
    + destruct (Hexe _ _ _ _ Hs Hrun) as [Hs1 Hne].
      destruct e; intros [= <- <-]; try done.
Qed.

(** C10: [TextImpl::GetValue] throws [FormulaException] on empty text, but
    on a sheet built through the public operations every text cell holds a
    non-empty text, [Cell::Set] turns the empty text into [EmptyImpl], and
    [GetValue] of any cell never ends in that exception. *)
Theorem TextImpl_GetValue_branch_unreachable s :
  reachable s ->
  TextImpl_GetValue ""%string = Thrown FormulaException /\
  (forall SetCell, Cell_Set_candidate SetCell ""%string = ret EmptyImpl) /\
  (forall p c t, slot s p = Some c -> impl_ c = TextImpl t ->
     t <> ""%string /\ TextImpl_GetValue t <> Thrown FormulaException) /\
  (forall fuel p s', Cell_GetValue fuel p s <> (Thrown FormulaException, s')).
Proof.
  intros Hreach. apply reachable_text_ok in Hreach.
  split; [done|]. split; [done|]. split.
  - intros p c t Hc Ht. pose proof (Hreach p c Hc t Ht) as Hne. split; [done|].
    destruct t; [done|]. simpl. by case_bool_decide.
  - intros fuel p s' Hrun.
    by destruct (GetValue_no_FormulaException fuel p _ _ _ Hreach Hrun).
Qed.

(** ** The dependency graph *)

(** [b] is in the [using_cells_] of the cell at [a]. *)
Definition uses (s : Sheet) (a b : Position) : Prop :=
  exists ca, slot s a = Some ca /\ b ∈ using_cells_ ca.

(** [a] is in the [calculated_cells_] of the cell at [b]. *)
Definition used_by (s : Sheet) (b a : Position) : Prop :=
  exists cb, slot s b = Some cb /\ a ∈ calculated_cells_ cb.

(** Edge symmetry: [A] uses [B] exactly when [B] is used by [A]; either
    side includes that the cell holding the edge exists. *)
Definition symmetric (s : Sheet) : Prop :=
  forall a b, uses s a b <-> used_by s b a.

Lemma uses_store s p c0 c' a b :
  slot s p = Some c0 ->
  uses (store p (Some c') s) a b <->
  (a = p /\ b ∈ using_cells_ c') \/ (a <> p /\ uses s a b).
Proof.
  intros Hp. unfold uses. rewrite (slot_store_occupied _ _ _ _ _ Hp).
  case_decide as Ha; split.
  - intros (ca & [= <-] & Hb). auto.
  - intros [[_ Hb]|[? _]]; [eauto|done].
  - intros H. auto.
  - intros [[? _]|[_ H]]; done.
Qed.

Lemma used_by_store s p c0 c' b a :
  slot s p = Some c0 ->
  used_by (store p (Some c') s) b a <->
  (b = p /\ a ∈ calculated_cells_ c') \/ (b <> p /\ used_by s b a).
Proof.
  intros Hp. unfold used_by. rewrite (slot_store_occupied _ _ _ _ _ Hp).
  case_decide as Hb; split.
  - intros (cb & [= <-] & Ha). auto.
  - intros [[_ Ha]|[? _]]; [eauto|done].
  - intros H. auto.
  - intros [[? _]|[_ H]]; done.
Qed.

Lemma uses_placeholders s s' a b : placeholders s s' -> uses s' a b <-> uses s a b.
Proof.
  intros Hpl. unfold uses. destruct (Hpl a) as [->|[Hn ->]]; [done|].
  rewrite Hn. split; intros (ca & [= <-] & Hb); set_solver.
Qed.

Lemma used_by_placeholders s s' b a : placeholders s s' -> used_by s' b a <-> used_by s b a.
Proof.
  intros Hpl. unfold used_by. destruct (Hpl b) as [->|[Hn ->]]; [done|].
  rewrite Hn. split; intros (ca & [= <-] & Hb); set_solver.
Qed.

Lemma symmetric_placeholders s s' : placeholders s s' -> symmetric s -> symmetric s'.
Proof.
  intros Hpl Hs a b. by rewrite uses_placeholders, used_by_placeholders.
Qed.

Lemma uses_caches s s' a b : same_but_caches s s' -> uses s' a b <-> uses s a b.
Proof.
  intros Hsame. unfold uses. specialize (Hsame a).
  destruct (slot s a) as [c|], (slot s' a) as [c'|]; try done.
  injection Hsame as _ _ Hu _.
  split; intros (? & [= <-] & ?); eexists; (split; [done|]); congruence.
Qed.

Lemma used_by_caches s s' b a : same_but_caches s s' -> used_by s' b a <-> used_by s b a.
Proof.
  intros Hsame. unfold used_by. specialize (Hsame b).
  destruct (slot s b) as [c|], (slot s' b) as [c'|]; try done.
  injection Hsame as _ Hu _ _.
  split; intros (? & [= <-] & ?); eexists; (split; [done|]); congruence.
Qed.

Lemma symmetric_caches s s' : same_but_caches s s' -> symmetric s -> symmetric s'.
Proof. intros Hsame Hs a b. by rewrite uses_caches, used_by_caches. Qed.

Lemma symmetric_materialize pos s :
  IsValid pos = true -> symmetric s -> symmetric (materialize pos s).
Proof. intros Hv. apply symmetric_placeholders. by apply materialize_placeholders. Qed.

Lemma uses_store_same s p c0 c' a b :
  slot s p = Some c0 -> using_cells_ c' = using_cells_ c0 ->
  uses (store p (Some c') s) a b <-> uses s a b.
Proof.
  intros Hp Hu. rewrite (uses_store _ _ _ _ _ _ Hp), Hu. unfold uses.
  destruct (decide (a = p)) as [->|Ha]; split.
  - intros [[_ Hb]|[? _]]; [eauto|done].
  - intros (ca & Hca & Hb). left. split; [done|]. congruence.
  - intros [[? _]|[_ H]]; done.
  - auto.
Qed.

Lemma used_by_store_same s p c0 c' b a :
  slot s p = Some c0 -> calculated_cells_ c' = calculated_cells_ c0 ->
  used_by (store p (Some c') s) b a <-> used_by s b a.
Proof.
  intros Hp Hu. rewrite (used_by_store _ _ _ _ _ _ Hp), Hu. unfold used_by.
  destruct (decide (b = p)) as [->|Hb]; split.
  - intros [[_ Ha]|[? _]]; [eauto|done].
  - intros (cb & Hcb & Ha). left. split; [done|]. congruence.
  - intros [[? _]|[_ H]]; done.
  - auto.
Qed.

(** Every cell but [self] still uses what it used in [s0]. *)
Definition others_keep (self : Position) (s0 s : Sheet) : Prop :=
  forall a b, a <> self -> uses s0 a b -> uses s a b.

(** The state of the loop of lines 58-61 once the cells in [done] have been
    visited: [self] still lists the cells [U] it used, every other edge is
    matched, and the visited cells no longer list [self]. *)
Definition unlinking (self : Position) (U : gset Position) (done : list Position)
    (s : Sheet) : Prop :=
  (exists c, slot s self = Some c /\ using_cells_ c = U) /\
  (forall a b, uses s a b ->
     exists cb, slot s b = Some cb /\ (a ∈ calculated_cells_ cb \/ a = self)) /\
  (forall a b, used_by s b a -> uses s a b) /\
  (forall b, b ∈ done -> ~ used_by s b self).

Lemma unlinking_start self c s :
  symmetric s -> slot s self = Some c -> unlinking self (using_cells_ c) [] s.
Proof.
  intros Hsym Hc. split; [eauto|]. split; [|split].
  - intros a b Hab. apply Hsym in Hab as (cb & Hcb & Ha). eauto.
  - intros a b Hba. by apply Hsym.
  - intros b Hb. by apply elem_of_nil in Hb.
Qed.

Lemma unlink_step self U s0 done used :
  used ∈ U ->
  hoare (fun s => unlinking self U done s /\ others_keep self s0 s)
        (Cell_Set_unlink self used)
        (fun o s => match o with
                    | Returned _ => unlinking self U (done ++ [used]) s /\ others_keep self s0 s
                    | Thrown _ => False
                    end).
Proof.
  intros Hused s o s' [(E1 & E2 & E3 & E4) Hkeep].
  destruct E1 as (c & Hc & HU).
  destruct (E2 self used) as (cu & Hcu & _); [exists c; split; [done|]; by rewrite HU|].
  unfold Cell_Set_unlink, bind, read, modify_cell. simpl. rewrite Hcu.
  intros [= <- <-].
  set (cu' := set_calculated (calculated_cells_ cu ∖ {[self]}) cu).
  assert (forall a b, uses (store used (Some cu') s) a b <-> uses s a b) as Huses.
  { intros a b. by apply (uses_store_same _ _ cu). }
  assert (forall b a, used_by (store used (Some cu') s) b a <->
            (b = used /\ a ∈ calculated_cells_ cu /\ a <> self) \/
            (b <> used /\ used_by s b a)) as Hused_by.
  { intros b a. rewrite (used_by_store _ _ _ _ _ _ Hcu). simpl. set_solver. }
  split; [split; [|split; [|split]]|].
  - rewrite (slot_store_occupied _ _ _ _ _ Hcu). case_decide as Hself.
    + exists cu'. split; [done|]. simpl. congruence.
    + eauto.
  - intros a b Hab. apply Huses in Hab. destruct (E2 a b Hab) as (cb & Hcb & Hor).
    rewrite (slot_store_occupied _ _ _ _ _ Hcu). case_decide as Hb.
    + subst b. exists cu'. split; [done|]. simpl.
      destruct (decide (a = self)) as [->|Ha]; [by right|left].
      assert (cb = cu) as -> by congruence. set_solver.
    + eauto.
  - intros a b Hba. apply Huses. apply Hused_by in Hba as [(-> & Ha & _)|[_ Hba]].
    + apply E3. by exists cu.
    + by apply E3.
  - intros b Hb Hbs. apply Hused_by in Hbs as [(_ & _ & Hne)|[Hne Hbs]]; [done|].
    apply (E4 b); [|done]. set_solver.
  - intros a b Ha Hab. apply Huses. by apply Hkeep.
Qed.

Lemma unlinked_symmetric self U s c :
  unlinking self U (elements U) s -> slot s self = Some c ->
  symmetric (store self (Some (set_using ∅ c)) s).
Proof.
  intros ((c' & Hc' & HU) & E2 & E3 & E4) Hc a b.
  assert (c' = c) as -> by congruence.
  rewrite (uses_store _ _ _ _ _ _ Hc).
  rewrite (used_by_store_same _ _ c) by done. simpl.
  assert (forall b, ~ used_by s b self) as Hnone.
  { intros b' Hb'. apply (E4 b'); [|done].
    apply E3 in Hb' as (c1 & Hc1 & Hin). apply elem_of_elements. congruence. }
  split.
  - intros [[_ Hb]|[Ha Hab]]; [set_solver|].
    destruct (E2 a b Hab) as (cb & Hcb & [Hin| ->]); [|done]. by exists cb.
  - intros Hba. right. split; [|by apply E3].
    intros ->. by apply (Hnone b).
Qed.

(** Lines 74-75: the two insertions add the edge both ways. *)
Lemma link_edges s self u c :
  slot s self = Some c -> slot s u <> None ->
  exists s2,
    (let* c := read (fun s => deref s (Some self)) in
     modify_cell self (set_using ({[u]} ∪ using_cells_ c)) >>>
     let* cu := read (fun s => deref s (Some u)) in
     modify_cell u (set_calculated ({[self]} ∪ calculated_cells_ cu))) s = (Returned tt, s2) /\
    (forall a b, uses s2 a b <-> uses s a b \/ (a = self /\ b = u)) /\
    (forall b a, used_by s2 b a <-> used_by s b a \/ (b = u /\ a = self)).
Proof.
  intros Hc Hu.
  set (c1 := set_using ({[u]} ∪ using_cells_ c) c).
  set (s1 := store self (Some c1) s).
  assert (exists cu1, slot s1 u = Some cu1 /\
            forall a, a ∈ calculated_cells_ cu1 <-> used_by s u a) as (cu1 & Hcu1 & Hcalc).
  { unfold s1. rewrite (slot_store_occupied _ _ _ _ _ Hc). case_decide as Hself.
    - subst u. exists c1. split; [done|]. intros a. unfold used_by. rewrite Hc. simpl.
      split; [eauto|]. by intros (? & [= <-] & ?).
    - destruct (slot s u) as [cu|] eqn:Hcu; [|done]. exists cu. split; [done|].
      intros a. unfold used_by. rewrite Hcu. split; [eauto|]. by intros (? & [= <-] & ?). }
  exists (store u (Some (set_calculated ({[self]} ∪ calculated_cells_ cu1) cu1)) s1).
  split; [|split].
  - unfold bind, read, modify_cell. simpl. rewrite Hc. fold c1. fold s1. by rewrite Hcu1.
  - intros a b. rewrite (uses_store_same _ _ cu1) by done.
    unfold s1. rewrite (uses_store _ _ _ _ _ _ Hc). simpl.
    destruct (decide (a = self)) as [->|Ha].
    + unfold uses. rewrite Hc. split.
      * intros [[_ Hb]|[? _]]; [|done].
        apply elem_of_union in Hb as [Hb|Hb]; [right; set_solver|left; eauto].
      * intros [(? & [= <-] & ?)|[_ ->]]; left; (split; [done|]); set_solver.
    + split; [intros [[? _]|[_ ?]]; [done|by left]|].
      intros [?|[? _]]; [by right|done].
  - intros b a. rewrite (used_by_store _ _ _ _ _ _ Hcu1). simpl.
    assert (forall b a, used_by s1 b a <-> used_by s b a) as Hs1.
    { intros b' a'. by apply (used_by_store_same _ _ c). }
    rewrite Hs1. destruct (decide (b = u)) as [->|Hb].
    + rewrite elem_of_union, elem_of_singleton, Hcalc. split.
      * intros [[_ [->|H]]|[? _]]; auto; done.
      * intros [H|[_ ->]]; left; auto.
    + split; [intros [[? _]|[_ ?]]; [done|by left]|].
      intros [?|[? _]]; [by right|done].
Qed.

Lemma link_step fuel0 self q s0 :
  hoare (fun s => symmetric s /\ others_keep self s0 s)
        (Cell_Set_link (Sheet_SetCell fuel0) self q)
        (fun _ s => symmetric s /\ others_keep self s0 s).
Proof.
  unfold Cell_Set_link.
  apply (hoare_bind _ _ _ (fun found s =>
           (symmetric s /\ others_keep self s0 s) /\
           Sheet_GetConcreteCell s q = Returned found)).
  { apply hoare_read. intros s Hs. by destruct (Sheet_GetConcreteCell s q) eqn:Hg. }
  intros found.
  apply (hoare_bind _ _ _ (fun used s =>
           (symmetric s /\ others_keep self s0 s) /\
           forall u, used = Some u -> slot s u <> None)).
  { destruct found as [u|].
    - apply hoare_ret. intros s [Hs Hg]. split; [done|]. intros u' [= <-].
      apply GetConcreteCell_Some in Hg as [-> ?]. done.
    - intros s o s' [[Hsym Hkeep] Hg]. apply GetConcreteCell_None in Hg.
      unfold bind. destruct (Sheet_SetCell fuel0 q "" s) as [[[]|e] s1] eqn:Hrun.
      + pose proof (SetCell_empty_absent fuel0 q s Hg s _ s1 eq_refl Hrun) as [_ Hpl].
        intros [= <- <-].
        assert (symmetric s1 /\ others_keep self s0 s1) as Hs1.
        { split; [by eapply symmetric_placeholders|].
          intros a b Ha Hab. apply (uses_placeholders s s1); auto. }
        destruct (Sheet_GetConcreteCell s1 q) as [used|e] eqn:Hg1; [|done].
        split; [done|]. intros u ->. by apply GetConcreteCell_Some in Hg1 as [-> ?].
      + pose proof (SetCell_empty_absent fuel0 q s Hg s _ s1 eq_refl Hrun) as [_ Hpl].
        intros [= <- <-]. split; [by eapply symmetric_placeholders|].
        intros a b Ha Hab. apply (uses_placeholders s s1); auto. }
  intros [u|]; [|apply hoare_throw; by intros s [? ?]].
  intros s o s' [[Hsym Hkeep] Hu]. specialize (Hu u eq_refl).
  destruct (slot s self) as [c|] eqn:Hc.
  - destruct (link_edges s self u c Hc Hu) as (s2 & Hrun & Huses & Hused_by).
    rewrite Hrun. intros [= <- <-]. split.
    + intros a b. rewrite Huses, Hused_by, (Hsym a b). tauto.
    + intros a b Ha Hab. apply Huses. left. by apply Hkeep.
  - unfold bind, read. simpl. rewrite Hc. by intros [= <- <-].
Qed.

Lemma rewire_symmetric fuel0 self impl s0 :
  symmetric s0 ->
  hoare (eq s0) (Cell_Set_rewire (Sheet_SetCell fuel0) self impl)
    (fun o s => symmetric s /\ others_keep self s0 s /\
       (o = Returned tt -> Impl_GetReferencedCells impl = [] ->
        exists c, slot s self = Some c /\ using_cells_ c = ∅)).
Proof.
  intros Hsym0. unfold Cell_Set_rewire.
  apply (hoare_bind _ _ _ (fun _ s => symmetric s /\ others_keep self s0 s)).
  { apply hoare_modify_cell.
    - intros s c <- Hc. split.
      + intros a b. rewrite (uses_store_same _ _ c), (used_by_store_same _ _ c) by done.
        apply Hsym0.
      + intros a b _ Hab. by apply (uses_store_same _ _ c).
    - intros s <- _. split; [done|]. split; [by intros a b _ ?|done]. }
  intros _.
  apply (hoare_bind _ _ _ (fun c s =>
           (symmetric s /\ others_keep self s0 s) /\ slot s self = Some c)).
  { apply hoare_deref; [done|]. intros s [? ?] _. split; [done|]. by split. }
  intros c.
  apply (hoare_bind _ _ _ (fun _ s =>
           unlinking self (using_cells_ c) (elements (using_cells_ c)) s /\
           others_keep self s0 s)).
  { apply hoare_pre with
      (P' := fun s => unlinking self (using_cells_ c) [] s /\ others_keep self s0 s).
    { intros s [[Hs Hk] Hc]. split; [by apply unlinking_start|done]. }
    apply (hoare_for_each
             (fun done s => unlinking self (using_cells_ c) done s /\ others_keep self s0 s)).
    - intros done x rest Hl.
      eapply hoare_conseq; [apply (unlink_step self (using_cells_ c) s0 done x)| |].
      + apply elem_of_elements. rewrite Hl. set_solver.
      + done.
      + intros [?|?] s Hs; [exact Hs|done].
    - intros s Hs. exact Hs. }
  intros _.
  apply (hoare_bind _ _ _ (fun _ s =>
           symmetric s /\ others_keep self s0 s /\
           exists c, slot s self = Some c /\ using_cells_ c = ∅)).
  { apply hoare_modify_cell.
    - intros s c' [Hun Hk] Hc'. split; [by eapply unlinked_symmetric|]. split.
      + intros a b Ha Hab. apply (uses_store _ _ _ _ _ _ Hc'). right. auto.
      + rewrite (slot_store_occupied _ _ _ _ _ Hc'), decide_True by done. eauto.
    - intros s [((c' & Hc' & _) & _) _] Hnone. congruence. }
  intros _.
  apply hoare_pre with
    (P' := fun s => symmetric s /\ others_keep self s0 s /\
                    (Impl_GetReferencedCells impl = [] ->
                     exists c, slot s self = Some c /\ using_cells_ c = ∅)).
  { intros s (? & ? & ?). auto. }
  apply (hoare_for_each (fun _ s =>
           symmetric s /\ others_keep self s0 s /\
           (Impl_GetReferencedCells impl = [] ->
            exists c, slot s self = Some c /\ using_cells_ c = ∅))).
  - intros done x rest Hl s o s' (Hs & Hk & _) Hrun.
    destruct (link_step fuel0 self x s0 s o s' (conj Hs Hk) Hrun) as [Hs' Hk'].
    assert (Impl_GetReferencedCells impl <> []) as Hne.
    { rewrite Hl. by destruct done. }
    destruct o; (split; [done|]); (split; [done|]); done.
  - intros s (? & ? & ?). auto.
Qed.

Lemma commit_symmetric fuel0 fuel self impl s0 :
  symmetric s0 ->
  hoare (eq s0) (Cell_Set_commit (Sheet_SetCell fuel0) fuel self impl)
    (fun o s => symmetric s /\ others_keep self s0 s /\
       (o = Returned tt -> Impl_GetReferencedCells impl = [] ->
        exists c, slot s self = Some c /\ using_cells_ c = ∅)).
Proof.
  intros Hsym0. unfold Cell_Set_commit.
  apply (hoare_bind _ _ _ (fun _ s =>
           symmetric s /\ others_keep self s0 s /\
           (Impl_GetReferencedCells impl = [] ->
            exists c, slot s self = Some c /\ using_cells_ c = ∅))).
  { eapply hoare_conseq; [by apply rewire_symmetric|done|].
    intros [[]|e] s (? & ? & Hself); (split; [done|]); (split; [done|]); auto. }
  intros _ s o s' (Hs & Hk & Hself) Hrun.
  assert (same_but_caches s s') as Hsame.
  { by eapply (ResetCache_caches_only fuel self true s); [apply same_but_caches_refl|]. }
  split; [by eapply symmetric_caches|]. split.
  - intros a b Ha Hab. apply (uses_caches s s'); auto.
  - intros _ Hrefs. destruct (Hself Hrefs) as (c' & Hc' & Hu).
    specialize (Hsame self). rewrite Hc' in Hsame.
    destruct (slot s' self) as [c''|]; [|done].
    injection Hsame as _ _ Hu' _. exists c''. split; [done|]. congruence.
Qed.

Lemma symmetric_commit fuel0 fuel self impl :
  preserves symmetric (Cell_Set_commit (Sheet_SetCell fuel0) fuel self impl).
Proof.
  intros s o s' Hs Hrun.
  by destruct (commit_symmetric fuel0 fuel self impl s Hs s o s' eq_refl Hrun).
Qed.

Lemma symmetric_SetCell fuel pos text : preserves symmetric (Sheet_SetCell fuel pos text).
Proof.
  apply (walk_SetCell symmetric (fun _ => True)); try done.
  - apply symmetric_materialize.
  - intros fuel0 fuel' self impl _ _. apply symmetric_commit.
Qed.

Lemma symmetric_new : symmetric Sheet_new.
Proof.
  intros a b. unfold uses, used_by. rewrite !slot_new.
  split; intros (? & ? & _); done.
Qed.

(** [Sheet::ClearCell], line 158: releasing a cell without edges. *)
Lemma release_symmetric s pos c :
  symmetric s -> slot s pos = Some c ->
  using_cells_ c = ∅ -> calculated_cells_ c = ∅ ->
  symmetric (store pos None s).
Proof.
  intros Hsym Hc Hu Hcalc a b.
  assert (uses (store pos None s) a b <-> a <> pos /\ uses s a b) as ->.
  { unfold uses. rewrite (slot_store_occupied _ _ _ _ _ Hc).
    case_decide; split; try tauto; intros (? & ? & ?); done. }
  assert (used_by (store pos None s) b a <-> b <> pos /\ used_by s b a) as ->.
  { unfold used_by. rewrite (slot_store_occupied _ _ _ _ _ Hc).
    case_decide; split; try tauto; intros (? & ? & ?); done. }
  split.
  - intros [Ha Hab]. split; [|by apply Hsym].
    intros ->. apply Hsym in Hab as (c' & Hc' & Hin).
    assert (c' = c) as -> by congruence. set_solver.
  - intros [Hb Hba]. split; [|by apply Hsym].
    intros ->. apply Hsym in Hba as (c' & Hc' & Hin).
    assert (c' = c) as -> by congruence. set_solver.
Qed.

(** The slot at [p] holds a cell. *)
Definition allocated (p : Position) (s : Sheet) : Prop := slot s p <> None.

Lemma allocated_modify p pos f : preserves (allocated p) (modify_cell pos f).
Proof.
  apply preserves_modify_cell. intros s c Hp Hc. unfold allocated.
  rewrite (slot_store_occupied _ _ _ _ _ Hc). by case_decide.
Qed.

Lemma allocated_caches p s s' : same_but_caches s s' -> allocated p s -> allocated p s'.
Proof.
  unfold allocated. intros Hsame Hp Hnone. specialize (Hsame p).
  rewrite Hnone in Hsame. by destruct (slot s p).
Qed.

Lemma allocated_placeholders p s s' : placeholders s s' -> allocated p s -> allocated p s'.
Proof. intros Hpl Hp. unfold allocated. destruct (Hpl p) as [->|[_ ->]]; done. Qed.

Lemma allocated_SetCell p fuel pos text : preserves (allocated p) (Sheet_SetCell fuel pos text).
Proof.
  apply (walk_SetCell (allocated p) (fun _ => True)); try done.
  - intros pos' s Hv. apply allocated_placeholders. by apply materialize_placeholders.
  - intros fuel0 fuel' self impl Hrec _. apply commit_preserves; try done.
    + apply allocated_modify.
    + intros ? ?. apply allocated_modify.
    + intros ? ?. apply allocated_modify.
    + apply allocated_caches.
Qed.

Lemma allocated_commit p fuel0 fuel self impl :
  preserves (allocated p) (Cell_Set_commit (Sheet_SetCell fuel0) fuel self impl).
Proof.
  apply commit_preserves.
  - apply allocated_modify.
  - intros ? ?. apply allocated_modify.
  - intros ? ?. apply allocated_modify.
  - intros q. apply allocated_SetCell.
  - apply allocated_caches.
Qed.

Lemma used_by_allocated s p b : used_by s p b -> allocated p s.
Proof. intros (c & Hc & _). unfold allocated. congruence. Qed.

Lemma ClearCell_symmetric fuel pos s o s' :
  symmetric s -> Sheet_ClearCell fuel pos s = (o, s') ->
  symmetric s' /\ forall p b, used_by s p b -> b <> p -> allocated p s'.
Proof.
  intros Hsym. unfold Sheet_ClearCell.
  destruct (IsValid pos).
  2:{ intros [= <- <-]. split; [done|]. intros p b Hp _. by eapply used_by_allocated. }
  unfold bind at 1. unfold read at 1.
  destruct (in_extent s pos && bool_decide (slot s pos <> None)) eqn:Hocc.
  2:{ intros [= <- <-]. split; [done|]. intros p b Hp _. by eapply used_by_allocated. }
  apply andb_true_iff in Hocc as [_ Hsome]. apply bool_decide_eq_true in Hsome.
  destruct (slot s pos) as [c|] eqn:Hc; [clear Hsome|done].
  unfold bind at 1. unfold Cell_Clear at 1. unfold bind at 1, read at 1. simpl.
  rewrite Hc, Cell_Set_empty.
  destruct (Cell_Set_commit _ _ _ _ s) as [[[]|e] s1] eqn:Hrun.
  - destruct (commit_symmetric fuel fuel pos EmptyImpl s Hsym s _ s1 eq_refl Hrun)
      as (Hsym1 & Hkeep & Hself).
    destruct (Hself eq_refl eq_refl) as (c1 & Hc1 & Hu1).
    unfold bind, read. simpl. rewrite Hc1.
    assert (forall p, allocated p s -> allocated p s1) as Halloc.
    { intros p Hp. by eapply (allocated_commit p fuel fuel pos EmptyImpl s). }
    destruct (negb (Cell_IsReferenced c1)) eqn:Href; intros [= <- <-].
    + apply negb_true_iff, negb_false_iff, bool_decide_eq_true in Href.
      split; [by eapply release_symmetric|].
      intros p b Hpb Hne. unfold allocated.
      rewrite (slot_store_occupied _ _ _ _ _ Hc1). case_decide as Hp.
      * subst p. exfalso.
        assert (uses s1 b pos) as Hb by (apply Hkeep; [done|by apply Hsym]).
        apply Hsym1 in Hb as (c' & Hc' & Hin).
        assert (c' = c1) as -> by congruence. set_solver.
      * apply Halloc. by eapply used_by_allocated.
    + split; [done|]. intros p b Hpb _. apply Halloc. by eapply used_by_allocated.
  - intros [= <- <-].
    destruct (commit_symmetric fuel fuel pos EmptyImpl s Hsym s _ s1 eq_refl Hrun)
      as (Hsym1 & _ & _).
    split; [done|]. intros p b Hpb _.
    eapply (allocated_commit p fuel fuel pos EmptyImpl s); [|done].
    by eapply used_by_allocated.
Qed.

Lemma reachable_symmetric s : reachable s -> symmetric s.
Proof.
  apply (walk_reachable symmetric (fun _ => True)); try done.
  - apply symmetric_materialize.
  - apply symmetric_caches.
  - intros fuel0 fuel self impl _ _. apply symmetric_commit.
  - intros fuel pos _ s1 o s2 Hs Hrun. by eapply ClearCell_symmetric.
  - apply symmetric_new.
Qed.

(** C3: every public operation (setting, clearing, reading a value or a
    text, the printable size, printing), whatever its outcome, keeps the edges
    symmetric: a cell [a] lists [b] in [using_cells_] exactly when the cell
    [b] lists [a] in [calculated_cells_]; and a cell that another cell
    depends on is still allocated afterwards. *)
Theorem operations_preserve_edge_symmetry fuel op s o s' :
  symmetric s ->
  perform fuel op s = (o, s') ->
  symmetric s' /\
  forall p b, used_by s p b -> b <> p -> allocated p s'.
Proof.
  intros Hsym Hrun.
  assert (forall s1, same_but_caches s s1 ->
            symmetric s1 /\ forall p b, used_by s p b -> b <> p -> allocated p s1) as Hcaches.
  { intros s1 Hsame. split; [by eapply symmetric_caches|].
    intros p b Hpb _. eapply allocated_caches; [done|]. by eapply used_by_allocated. }
  destruct op as [pos text|pos|pos|pos| | |]; simpl in Hrun.
  - split; [by eapply symmetric_SetCell|].
    intros p b Hpb _. eapply allocated_SetCell; [|done]. by eapply used_by_allocated.
  - by eapply ClearCell_symmetric.
  - unfold bind, read in Hrun.
    destruct (Sheet_GetCell s pos) as [[c|]|e]; try (injection Hrun as <- <-; by apply Hcaches).
    destruct (Cell_GetValue fuel c s) as [[v|e] s1] eqn:Hget; injection Hrun as <- <-;
      apply Hcaches;
      by eapply (GetValue_caches_only fuel c s); [apply same_but_caches_refl|].
  - unfold bind, read in Hrun.
    destruct (Sheet_GetCell s pos) as [?|e]; injection Hrun as <- <-; by apply Hcaches.
  - injection Hrun as <- <-. by apply Hcaches.
  - apply Hcaches.
    by eapply (PrintValues_caches_only fuel s); [apply same_but_caches_refl|].
  - injection Hrun as <- <-. by apply Hcaches.
Qed.

(** ** Cache invalidation *)

(** The cached value of the formula cell at [p], if any. *)
Definition cache_of (s : Sheet) (p : Position) : option FormulaValue :=
  match slot s p with
  | Some c => match impl_ c with
              | FormulaImpl cache _ => cache
              | _ => None
              end
  | None => None
  end.

(** C2 as stated: no cell reachable from [p] along used-by edges holds a
    cached value. *)
Definition dependents_uncached (s : Sheet) (p : Position) : Prop :=
  forall c, rtc (used_by s) p c -> cache_of s c = None.

(** [c] is reached from [p] along the used-by edges of [s'] through cells
    that held a cached value in [s]: the cells the invalidation pass of a
    call at [p], from [s] to [s'], descends through. *)
Inductive invalidated (s s' : Sheet) (p : Position) : Position -> Prop :=
| invalidated_self : invalidated s s' p p
| invalidated_next x c :
    invalidated s s' p x ->
    x = p \/ cache_of s x <> None ->
    used_by s' x c ->
    invalidated s s' p c.

Lemma invalidated_reachable s s' p c : invalidated s s' p c -> rtc (used_by s') p c.
Proof.
  induction 1 as [|x c _ IH _ Hxc]; [done|]. eapply rtc_r; eauto.
Qed.

Lemma cache_of_store s p c0 c' x :
  slot s p = Some c0 ->
  cache_of (store p (Some c') s) x =
  if decide (x = p)
  then match impl_ c' with FormulaImpl cache _ => cache | _ => None end
  else cache_of s x.
Proof.
  intros Hp. unfold cache_of. rewrite (slot_store_occupied _ _ _ _ _ Hp). by case_decide.
Qed.

Lemma cache_of_placeholders s s' x : placeholders s s' -> cache_of s' x = cache_of s x.
Proof. intros Hpl. unfold cache_of. by destruct (Hpl x) as [->|[-> ->]]. Qed.

(** What a completed invalidation pass from [m] to [s'] guarantees: only
    caches changed, no cache appeared, and a cell that lost its cache took
    the caches of its dependents with it. *)
Definition invalidates (m s' : Sheet) : Prop :=
  same_but_caches m s' /\
  (forall x, cache_of m x = None -> cache_of s' x = None) /\
  (forall x c, cache_of m x <> None -> cache_of s' x = None ->
               used_by m x c -> cache_of s' c = None).

Lemma invalidates_refl m : invalidates m m.
Proof. split; [done|]. split; [done|]. intros x c Hx Hx'. done. Qed.

Lemma invalidates_trans m1 m2 m3 :
  invalidates m1 m2 -> invalidates m2 m3 -> invalidates m1 m3.
Proof.
  intros (Hs12 & Hm12 & Hd12) (Hs23 & Hm23 & Hd23).
  split; [by eapply same_but_caches_trans|]. split; [auto|].
  intros x c Hx1 Hx3 Hxc.
  destruct (cache_of m2 x) as [v|] eqn:Hx2.
  - apply (Hd23 x c); [congruence|done|]. by apply (used_by_caches m1 m2).
  - apply Hm23. by apply (Hd12 x c).
Qed.

Lemma HasCache_false c :
  Impl_HasCache (impl_ c) = false -> exists f, impl_ c = FormulaImpl None f.
Proof.
  destruct (impl_ c) as [| |[v|] f]; simpl; try done. eauto.
Qed.

Lemma cache_of_reset m self c x :
  slot m self = Some c ->
  cache_of (store self (Some (reset_cache c)) m) x =
  if decide (x = self) then None else cache_of m x.
Proof.
  intros Hc. rewrite (cache_of_store _ _ _ _ _ Hc). case_decide; [|done].
  by destruct c as [[]].
Qed.

Lemma ResetCache_invalidates fuel self force m s' :
  Cell_ResetCache fuel self force m = (Returned tt, s') ->
  invalidates m s' /\
  cache_of s' self = None /\
  (force = true \/ cache_of m self <> None ->
   forall c, used_by m self c -> cache_of s' c = None).
Proof.
  revert self force m s'. induction fuel as [|fuel IH]; intros self force m s'; simpl; [done|].
  unfold bind at 1, read at 1. simpl.
  destruct (slot m self) as [c|] eqn:Hc; [|done].
  destruct (Impl_HasCache (impl_ c) || force) eqn:Hgo.
  2:{ intros [= <-]. apply orb_false_iff in Hgo as [Hcache ->].
      destruct (HasCache_false c Hcache) as (f & Hf).
      assert (cache_of m self = None) as Hnone by (unfold cache_of; by rewrite Hc, Hf).
      split; [apply invalidates_refl|]. split; [done|]. intros [?|?]; done. }
  unfold bind at 1, modify_cell at 1. rewrite Hc.
  set (m1 := store self (Some (reset_cache c)) m).
  assert (forall l m1 s',
            for_each l (fun dependent => Cell_ResetCache fuel dependent false) m1
              = (Returned tt, s') ->
            invalidates m1 s' /\ forall d, d ∈ l -> cache_of s' d = None) as Hloop.
  { clear -IH. induction l as [|d l IHl]; intros m1 s'; simpl.
    - intros [= <-]. split; [apply invalidates_refl|]. intros d Hd. by apply elem_of_nil in Hd.
    - unfold bind at 1.
      destruct (Cell_ResetCache fuel d false m1) as [[[]|e] m2] eqn:Hd; [|done].
      intros Hrest. destruct (IH _ _ _ _ Hd) as (H12 & Hd2 & _).
      destruct (IHl _ _ Hrest) as (H23 & Hl).
      split; [by eapply invalidates_trans|].
      intros d' Hd'. apply elem_of_cons in Hd' as [->|Hd']; [|auto].
      by apply H23. }
  intros Hrun. destruct (Hloop _ _ _ Hrun) as ((Hsame & Hmono & Hdeps) & Hall).
  assert (same_but_caches m m1) as Hsame1.
  { apply same_but_caches_store; [apply reset_cache_idemp|done|done]. }
  assert (forall x, cache_of m1 x = if decide (x = self) then None else cache_of m x) as Hm1.
  { intros x. by apply cache_of_reset. }
  assert (forall d, used_by m self d -> cache_of s' d = None) as Hroot.
  { intros d (c' & Hc' & Hd). apply Hall, elem_of_elements. congruence. }
  split; [split; [|split]|split].
  - by eapply same_but_caches_trans.
  - intros x Hx. apply Hmono. rewrite Hm1. by case_decide.
  - intros x d Hx Hx' Hxd. destruct (decide (x = self)) as [->|Hne]; [auto|].
    apply (Hdeps x d); [|done|by apply (used_by_caches m m1)].
    rewrite Hm1. by rewrite decide_False.
  - apply Hmono. rewrite Hm1. by rewrite decide_True.
  - auto.
Qed.

(** Every cell but [p] has the cached value it had in [s0]. *)
Definition frame_others (p : Position) (s0 s : Sheet) : Prop :=
  forall x, x <> p -> cache_of s x = cache_of s0 x.

Lemma frame_others_modify p s0 pos f :
  (pos = p \/ forall c, impl_ (f c) = impl_ c) ->
  preserves (frame_others p s0) (modify_cell pos f).
Proof.
  intros Hf. apply preserves_modify_cell. intros s c Hs Hc x Hx.
  rewrite (cache_of_store _ _ _ _ _ Hc). case_decide as Hpos; [|auto].
  subst x. destruct Hf as [->|Hf]; [done|]. rewrite Hf, <- Hs by done.
  unfold cache_of. by rewrite Hc.
Qed.

Lemma rewire_frame fuel0 self impl s0 :
  preserves (frame_others self s0) (Cell_Set_rewire (Sheet_SetCell fuel0) self impl).
Proof.
  apply rewire_preserves.
  - apply frame_others_modify. by left.
  - intros pos u. apply frame_others_modify. by right.
  - intros u. apply frame_others_modify. by right.
  - intros q s o s' [Hs Hq] Hrun.
    destruct (SetCell_empty_absent fuel0 q s Hq s o s' eq_refl Hrun) as [_ Hpl].
    intros x Hx. rewrite (cache_of_placeholders s s') by done. auto.
Qed.

Lemma bind_Returned {A B} (m : Run A) (k : A -> Run B) s b s' :
  bind m k s = (Returned b, s') ->
  exists a s1, m s = (Returned a, s1) /\ k a s1 = (Returned b, s').
Proof. unfold bind. destruct (m s) as [[a|e] s1]; [eauto|done]. Qed.

(** The sheet [m] on which a successful [SetCell] starts its invalidation
    pass. *)
Lemma SetCell_Returned_inv fuel p text s s' :
  Sheet_SetCell fuel p text s = (Returned tt, s') ->
  exists fuel' m, frame_others p s m /\ Cell_ResetCache fuel' p true m = (Returned tt, s').
Proof.
  destruct fuel as [|fuel]; simpl; [done|].
  destruct (IsValid p) eqn:Hv; [|done].
  unfold bind at 1, update at 1. unfold Cell_Set.
  intros Hrun. apply bind_Returned in Hrun as (impl & s2 & Hcand & Hrun).
  apply bind_Returned in Hrun as ([|] & s3 & Hcheck & Hrun); [done|].
  injection Hcheck as _ <-.
  apply bind_Returned in Hrun as ([] & m & Hrewire & Hreset).
  exists fuel, m. split; [|done].
  pose proof (candidate_placeholders fuel text _ _ _ _ (placeholders_refl _) Hcand) as [Hpl _].
  assert (placeholders s s2) as Hpl2.
  { eapply placeholders_trans; [by apply materialize_placeholders|done]. }
  assert (frame_others p s s2) as Hframe.
  { intros x _. by apply cache_of_placeholders. }
  by eapply (rewire_frame fuel p impl s).
Qed.

(** *** No operation but the reading of a value fills a cache *)

(** The cell at [x] holds no cached value. *)
Definition uncached (x : Position) (s : Sheet) : Prop := cache_of s x = None.

Lemma uncached_modify_keep x pos f :
  (forall c, impl_ (f c) = impl_ c) -> preserves (uncached x) (modify_cell pos f).
Proof.
  intros Hf. apply preserves_modify_cell. intros s c Hs Hc. unfold uncached.
  rewrite (cache_of_store _ _ _ _ _ Hc). case_decide as Hpos; [|done].
  subst x. rewrite Hf. unfold uncached, cache_of in Hs. by rewrite Hc in Hs.
Qed.

Lemma uncached_modify_clear x pos f :
  (forall c, match impl_ (f c) with FormulaImpl (Some _) _ => False | _ => True end) ->
  preserves (uncached x) (modify_cell pos f).
Proof.
  intros Hf. apply preserves_modify_cell. intros s c Hs Hc. unfold uncached.
  rewrite (cache_of_store _ _ _ _ _ Hc). case_decide as Hpos; [|done].
  specialize (Hf c). by destruct (impl_ (f c)) as [| |[v|] ast].
Qed.

Lemma uncached_ResetCache x fuel self force :
  preserves (uncached x) (Cell_ResetCache fuel self force).
Proof.
  revert self force. induction fuel as [|fuel IH]; intros self force; simpl.
  - apply preserves_throw.
  - apply preserves_bind; [apply preserves_read|]. intros c.
    destruct (_ || _); [|apply preserves_ret].
    apply preserves_bind.
    + apply uncached_modify_clear. intros c'. simpl. by destruct (impl_ c').
    + intros _. apply preserves_for_each. auto.
Qed.

Lemma uncached_placeholders x s s' : placeholders s s' -> uncached x s -> uncached x s'.
Proof. intros Hpl. unfold uncached. by rewrite (cache_of_placeholders s s'). Qed.

Lemma uncached_commit x SetCell fuel self impl :
  (forall p, preserves (uncached x) (SetCell p ""%string)) ->
  match impl with FormulaImpl (Some _) _ => False | _ => True end ->
  preserves (uncached x) (Cell_Set_commit SetCell fuel self impl).
Proof.
  intros Hrec Himpl. unfold Cell_Set_commit.
  apply preserves_bind; [|intros _; apply uncached_ResetCache].
  apply rewire_preserves.
  - apply uncached_modify_clear. by intros c.
  - intros pos u. by apply uncached_modify_keep.
  - intros u. by apply uncached_modify_keep.
  - intros q. eapply hoare_pre; [|apply Hrec]. by intros s [? _].
Qed.

Lemma uncached_SetCell x fuel pos text : preserves (uncached x) (Sheet_SetCell fuel pos text).
Proof.
  revert pos text. induction fuel as [|fuel IH]; intros pos text; simpl.
  { apply preserves_throw. }
  destruct (IsValid pos) eqn:Hv; [|apply preserves_throw].
  apply preserves_bind.
  { apply hoare_update. intros s Hs.
    exact (uncached_placeholders x s _ (materialize_placeholders pos s Hv) Hs). }
  intros _. unfold Cell_Set.
  apply (hoare_bind _ _ _ (fun impl s =>
           uncached x s /\ match impl with FormulaImpl (Some _) _ => False | _ => True end)).
  { unfold Cell_Set_candidate. destruct text as [|c rest]; [by apply hoare_ret|].
    destruct (_ && _); [|by apply hoare_ret].
    apply (hoare_bind _ _ _ (fun _ s => uncached x s)).
    { apply hoare_read. intros s Hs. by destruct (ParseFormula rest). }
    intros formula.
    apply (hoare_bind _ _ _ (fun _ s => uncached x s)); [|intros _; by apply hoare_ret].
    eapply hoare_conseq; [|done|].
    - apply preserves_for_each. intros q _.
      destruct (IsValid q); [|apply preserves_ret].
      apply preserves_bind; [apply preserves_read|].
      intros [?|]; [apply preserves_ret|apply IH].
    - by intros [?|?] s Hs. }
  intros impl.
  apply (hoare_bind _ _ _ (fun _ s =>
           uncached x s /\ match impl with FormulaImpl (Some _) _ => False | _ => True end)).
  { apply hoare_read. intros s [Hs Hi]. by destruct (Cell_CheckCircularDependencies _ _ _ _). }
  intros [|]; [apply hoare_throw; by intros s [? ?]|].
  intros s o s' [Hs Hi]. by apply uncached_commit.
Qed.

Lemma uncached_ClearCell x fuel pos : preserves (uncached x) (Sheet_ClearCell fuel pos).
Proof.
  unfold Sheet_ClearCell. destruct (IsValid pos); [|apply preserves_throw].
  apply preserves_bind; [apply preserves_read|].
  intros [|]; [|apply preserves_ret].
  apply preserves_bind.
  { unfold Cell_Clear. apply preserves_bind; [apply preserves_read|]. intros c.
    rewrite Cell_Set_empty. apply uncached_commit; [|done].
    intros p. apply uncached_SetCell. }
  intros _.
  apply (hoare_bind _ _ _ (fun c s => uncached x s /\ slot s pos = Some c)).
  { apply hoare_deref; auto. }
  intros c. destruct (negb _); [|apply hoare_ret; by intros s [? ?]].
  apply hoare_update. intros s [Hs Hc]. unfold uncached, cache_of.
  rewrite (slot_store_occupied _ _ _ _ _ Hc). case_decide; [done|apply Hs].
Qed.

(** The operations that read no value of a cell: all but [GetValue] on a
    cell and [PrintValues]. *)
Definition reads_no_value (op : Operation) : bool :=
  match op with
  | OpGetValue _ | OpPrintValues => false
  | _ => true
  end.

(** [s'] is reached from [s] by operations that read no value, whatever
    their outcomes. *)
Definition without_reading : Sheet -> Sheet -> Prop :=
  rtc (fun s s' => exists fuel op o, reads_no_value op = true /\ perform fuel op s = (o, s')).

Lemma uncached_without_reading x s s' :
  without_reading s s' -> uncached x s -> uncached x s'.
Proof.
  induction 1 as [|s s1 s' (fuel & op & o & Hop & Hrun) _ IH]; [done|].
  intros Hs. apply IH. revert Hrun.
  destruct op as [pos text|pos|pos|pos| | |]; simpl in *; try done.
  - by apply uncached_SetCell.
  - by apply uncached_ClearCell.
  - unfold bind, read. destruct (Sheet_GetCell s pos); by intros [= _ <-].
  - by intros [= _ <-].
  - by intros [= _ <-].
Qed.

(** C2, amended: after a successful [SetCell] at [p], [p] has no cached
    value, and neither has any cell reached from [p] along used-by edges
    through cells that held a cached value before the call; the pass does
    not descend past a cell whose cache was already absent.  These cells
    stay without a cached value until a value is read: through every
    sequence of operations other than [GetValue] and [PrintValues]. *)
Theorem SetCell_invalidates_through_cached fuel p text s s' c :
  Sheet_SetCell fuel p text s = (Returned tt, s') ->
  invalidated s s' p c ->
  cache_of s' c = None /\
  forall s'', without_reading s' s'' -> cache_of s'' c = None.
Proof.
  intros Hrun Hpath.
  cut (cache_of s' c = None).
  { intros Hnone. split; [done|]. intros s'' Hlater.
    by apply (uncached_without_reading c s' s''). }
  apply SetCell_Returned_inv in Hrun as (fuel' & m & Hframe & Hreset).
  apply ResetCache_invalidates in Hreset as ((Hsame & Hmono & Hdeps) & Hself & Hroot).
  induction Hpath as [|x c _ IH Hx Hxc]; [done|].
  apply (used_by_caches m s') in Hxc; [|done].
  destruct (decide (x = p)) as [->|Hne]; [apply Hroot; auto|].
  destruct Hx as [->|Hx]; [done|].
  apply (Hdeps x c); [|done|done]. by rewrite Hframe.
Qed.

(** ** Values do not see placeholders *)

Lemma placeholders_store s t pos c c' :
  placeholders s t -> slot s pos = Some c ->
  placeholders (store pos (Some c') s) (store pos (Some c') t).
Proof.
  intros Hpl Hc q.
  assert (slot t pos = Some c) as Hc' by (destruct (Hpl pos) as [?|[? ?]]; congruence).
  rewrite (slot_store_occupied _ _ _ _ _ Hc), (slot_store_occupied _ _ _ _ _ Hc').
  case_decide; [by left|apply Hpl].
Qed.

Lemma placeholders_slot s t pos c : placeholders s t -> slot s pos = Some c -> slot t pos = Some c.
Proof. intros Hpl Hc. destruct (Hpl pos) as [?|[? ?]]; congruence. Qed.

Lemma GetCell_const_Some s pos q :
  Sheet_GetCell_const s pos = Returned (Some q) -> allocated q s.
Proof.
  unfold Sheet_GetCell_const, allocated. destruct (IsValid pos); [|done].
  destruct (in_extent s pos); [|done].
  destruct (slot s pos) eqn:Hs; [|done]. case_bool_decide; [done|].
  intros [= <-]. congruence.
Qed.

(** From a sheet satisfying [P], [m] behaves the same on a sheet with extra
    placeholders. *)
Definition simulates {A} (P : Sheet -> Prop) (m : Run A) : Prop :=
  forall s t o s1, placeholders s t -> P s -> m s = (o, s1) ->
    exists t1, m t = (o, t1) /\ placeholders s1 t1.

Lemma simulates_bind {A B} (P : Sheet -> Prop) (m : Run A) (k : A -> Run B)
    (R : A -> Sheet -> Prop) :
  simulates P m ->
  (forall s a s1, P s -> m s = (Returned a, s1) -> R a s1) ->
  (forall a, simulates (R a) (k a)) ->
  simulates P (bind m k).
Proof.
  intros Hm HR Hk s t o s1 Hpl HP. unfold bind.
  destruct (m s) as [[a|e] s2] eqn:Hms; destruct (Hm _ _ _ _ Hpl HP Hms) as (t2 & -> & Hpl2).
  - intros Hka. eapply Hk; eauto.
  - intros [= <- <-]. eauto.
Qed.

Lemma simulates_ret {A} P (a : A) : simulates P (ret a).
Proof. intros s t o s1 Hpl _ [= <- <-]. eauto. Qed.

Lemma simulates_throw {A} P e : simulates P (@throw A e).
Proof. intros s t o s1 Hpl _ [= <- <-]. eauto. Qed.

Lemma simulates_read {A} (P : Sheet -> Prop) (f : Sheet -> Outcome A) :
  (forall s t, placeholders s t -> P s -> f t = f s) -> simulates P (read f).
Proof.
  intros Hf s t o s1 Hpl HP [= <- <-]. exists t. split; [|done].
  unfold read. by rewrite (Hf s t).
Qed.

Lemma simulates_modify_cell pos f : simulates (allocated pos) (modify_cell pos f).
Proof.
  intros s t o s1 Hpl HP. unfold modify_cell, allocated in *.
  destruct (slot s pos) as [c|] eqn:Hc; [|done].
  rewrite (placeholders_slot _ _ _ _ Hpl Hc). intros [= <- <-].
  eexists. split; [done|]. by eapply placeholders_store.
Qed.

Lemma params_caches_only fuel s0 p :
  preserves (same_but_caches s0) (params (Cell_GetValue fuel) p).
Proof.
  unfold params. destruct (negb _); [apply preserves_throw|].
  apply preserves_bind; [apply preserves_read|].
  intros [q|]; [|apply preserves_ret].
  apply preserves_bind; [apply GetValue_caches_only|]. intros v. apply preserves_read.
Qed.

(** Reading a value on a sheet with extra placeholders gives the same
    outcome and fills the same caches. *)
Lemma GetValue_placeholders fuel self : simulates (allocated self) (Cell_GetValue fuel self).
Proof.
  revert self. induction fuel as [|fuel IH]; intros self; simpl; [apply simulates_throw|].
  apply (simulates_bind _ _ _ (fun c s => allocated self s)).
  { apply simulates_read. intros s t Hpl. unfold allocated. simpl.
    destruct (slot s self) as [c|] eqn:Hc; [|done].
    by rewrite (placeholders_slot _ _ _ _ Hpl Hc). }
  { by intros s a s1 HP [= _ <-]. }
  intros c. destruct (impl_ c) as [|text|[v|] f].
  - apply simulates_ret.
  - by apply simulates_read.
  - apply simulates_ret.
  - assert (forall e, simulates (fun _ => True) (Execute (params (Cell_GetValue fuel)) e))
      as Hexe.
    { induction e as [v|p|op e IHe|op l IHl r IHr]; simpl.
      - apply simulates_ret.
      - unfold params. destruct (negb _); [apply simulates_throw|].
        apply (simulates_bind _ _ _ (fun cell s => forall q, cell = Some q -> allocated q s)).
        + apply simulates_read. intros s t Hpl _. by apply GetCell_const_placeholders.
        + intros s cell s1 _ [= Hg <-] q ->. by eapply GetCell_const_Some.
        + intros [q|]; [|apply simulates_ret].
          apply (simulates_bind _ _ _ (fun _ _ => True)); [|done|].
          * intros s t o s1 Hpl Hq. by apply IH, Hq.
          * intros v. by apply simulates_read.
      - apply (simulates_bind _ _ _ (fun _ _ => True)); [done|done|].
        intros x. apply simulates_ret.
      - apply (simulates_bind _ _ _ (fun _ _ => True)); [done|done|]. intros x.
        apply (simulates_bind _ _ _ (fun _ _ => True)); [done|done|]. intros y.
        destruct (is_finite _); [apply simulates_ret|apply simulates_throw]. }
    apply (simulates_bind _ _ _ (fun _ s => allocated self s)).
    + intros s t o s1 Hpl _. unfold Formula_Evaluate.
      destruct (Execute _ _ s) as [o2 s2] eqn:Hrun.
      destruct (Hexe _ _ _ _ _ Hpl I Hrun) as (t2 & -> & Hpl2).
      destruct o2 as [d|[| | |fe| |]]; intros [= <- <-]; eauto.
    + intros s v s1 Hself Hrun. apply (allocated_caches self s); [|done].
      eapply (Evaluate_preserves (same_but_caches s));
        [intros p; apply GetValue_caches_only|apply same_but_caches_refl|done].
    + intros v. apply (simulates_bind _ _ _ (fun _ _ => True)).
      * apply simulates_modify_cell.
      * done.
      * intros _. apply simulates_ret.
Qed.

(** C1 as stated: a [SetCell] that throws [CircularDependencyException] has
    mutated nothing, so that what the sheet holds at the target is the same
    after the call as before. *)
Definition thrown_before_any_mutation : Prop :=
  forall fuel pos text s s',
    Sheet_SetCell fuel pos text s = (Thrown CircularDependencyException, s') ->
    slot s' pos = slot s pos.

(** C1, amended: when [SetCell] throws [CircularDependencyException], every
    cell of the sheet is exactly as before the call, with its implementation, cached
    value and both edge sets, so no edge is added or removed; a slot that
    was free is still free or holds a fresh empty cell without edges; the
    read-only lookup of any position answers as before; and reading the
    value of any cell has the outcome it had before. *)
Theorem SetCell_cycle_leaves_cells_unchanged fuel pos text s s' :
  Sheet_SetCell fuel pos text s = (Thrown CircularDependencyException, s') ->
  (forall q c, slot s q = Some c -> slot s' q = Some c) /\
  (forall q, slot s q = None -> slot s' q = None \/ slot s' q = Some Cell_new) /\
  (forall a b, (uses s' a b <-> uses s a b) /\ (used_by s' b a <-> used_by s b a)) /\
  (forall q, Sheet_GetCell_const s' q = Sheet_GetCell_const s q) /\
  (forall fuel' q o s1, allocated q s -> Cell_GetValue fuel' q s = (o, s1) ->
     exists s1', Cell_GetValue fuel' q s' = (o, s1')).
Proof.
  intros Hrun. apply SetCell_cycle_inv in Hrun as [Hv Hpl].
  assert (placeholders s s') as Hpl'.
  { eapply placeholders_trans; [by apply materialize_placeholders|done]. }
  split; [|split; [|split; [|split]]].
  - intros q c Hq. destruct (Hpl' q) as [?|[? ?]]; congruence.
  - intros q Hq. destruct (Hpl' q) as [?|[? ?]]; [left; congruence|by right].
  - intros a b. split; [by apply uses_placeholders|by apply used_by_placeholders].
  - intros q. by apply GetCell_const_placeholders.
  - intros fuel' q o s1 Hq Hget.
    destruct (GetValue_placeholders fuel' q s s' o s1 Hpl' Hq Hget) as (s1' & Hget' & _).
    eauto.
Qed.

(** ** The cell lookup of [Formula::Evaluate] *)

(** "Parseable in full as a double": the extraction of a double from a
    stream over [str] succeeds and leaves no character of [str] unread. *)
Definition parses_in_full (str : string) (d : float) : Prop :=
  ExtractDouble str = Some (d, ""%string).

(** The number, or the error, that the spec assigns to a referenced cell
    with value [v]. *)
Definition lookup_spec (v : CellValue) (r : Outcome float) : Prop :=
  match v with
  | VDouble d => r = Returned d
  | VString str =>
      (str = ""%string -> r = Returned 0%float) /\
      (forall d, str <> ""%string -> parses_in_full str d -> r = Returned d) /\
      (str <> ""%string -> (forall d, ~ parses_in_full str d) ->
       r = Thrown (ThrownFormulaError (mkFormulaError Value)))
  | VError fe => r = Thrown (ThrownFormulaError fe)
  end.

Lemma read_whole_double_Some str d : read_whole_double str = Some d <-> parses_in_full str d.
Proof.
  unfold read_whole_double, parses_in_full.
  destruct (ExtractDouble str) as [[digit unread]|]; [|done].
  case_bool_decide as Hunread; [subst unread|]; split; congruence.
Qed.

Lemma lookup_value_spec v : lookup_spec v (lookup_value v).
Proof.
  destruct v as [str|d|fe]; simpl; try done.
  case_bool_decide as Hstr.
  { split; [done|]. split; intros; done. }
  split; [done|]. destruct (read_whole_double str) as [digit|] eqn:Hread.
  - apply read_whole_double_Some in Hread. split.
    + intros d _ Hd. unfold parses_in_full in *. congruence.
    + intros _ Hnone. by destruct (Hnone digit).
  - split; [|done]. intros d _ Hd. apply read_whole_double_Some in Hd. congruence.
Qed.

(** The spec assigns one answer to each value. *)
Lemma lookup_spec_unique v r1 r2 : lookup_spec v r1 -> lookup_spec v r2 -> r1 = r2.
Proof.
  destruct v as [str|d|fe]; simpl; try congruence.
  intros (Hempty1 & Hnum1 & Hother1) (Hempty2 & Hnum2 & Hother2).
  destruct (decide (str = ""%string)) as [Hstr|Hstr]; [by rewrite Hempty1, Hempty2|].
  destruct (read_whole_double str) as [digit|] eqn:Hread.
  - apply read_whole_double_Some in Hread. by rewrite (Hnum1 digit), (Hnum2 digit).
  - assert (forall d, ~ parses_in_full str d) as Hnone.
    { intros d Hd. apply read_whole_double_Some in Hd. congruence. }
    by rewrite Hother1, Hother2.
Qed.

(** C4: the lookup raises [Ref] on an invalid position, yields 0 when the
    read-only [GetCell] finds no cell, and otherwise turns the value of the
    cell into the one number or error that the spec lists for it: a number
    gives itself, the empty string 0, a string that parses in full as a
    double that double, any other string [Value], and an error itself;
    [Evaluate] returns a raised [FormulaError] as its result and never lets
    one escape. *)
Theorem lookup_and_Evaluate_behaviour fuel (pos : Position) (ast_ : FormulaAST) (s : Sheet) :
  (IsValid pos = false ->
     params (Cell_GetValue fuel) pos s
       = (Thrown (ThrownFormulaError (mkFormulaError Ref)), s)) /\
  (IsValid pos = true -> Sheet_GetCell_const s pos = Returned None ->
     params (Cell_GetValue fuel) pos s = (Returned 0%float, s)) /\
  (forall cell v s',
     IsValid pos = true -> Sheet_GetCell_const s pos = Returned (Some cell) ->
     Cell_GetValue fuel cell s = (Returned v, s') ->
     exists r, lookup_spec v r /\ params (Cell_GetValue fuel) pos s = (r, s') /\
               forall r', lookup_spec v r' -> r' = r) /\
  (forall fe s',
     Execute (params (Cell_GetValue fuel)) (root_expr_ ast_) s
       = (Thrown (ThrownFormulaError fe), s') ->
     Formula_Evaluate (Cell_GetValue fuel) ast_ s = (Returned (FError fe), s')) /\
  (forall d s',
     Execute (params (Cell_GetValue fuel)) (root_expr_ ast_) s = (Returned d, s') ->
     Formula_Evaluate (Cell_GetValue fuel) ast_ s = (Returned (FDouble d), s')) /\
  (forall fe s',
     Formula_Evaluate (Cell_GetValue fuel) ast_ s <> (Thrown (ThrownFormulaError fe), s')).
Proof.
  split; [|split; [|split; [|split; [|split]]]].
  - intros Hv. unfold params. by rewrite Hv.
  - intros Hv Hcell. unfold params, bind, read. rewrite Hv. simpl. by rewrite Hcell.
  - intros cell v s' Hv Hcell Hget. exists (lookup_value v).
    split; [apply lookup_value_spec|]. split.
    + unfold params, bind, read. rewrite Hv. simpl. by rewrite Hcell, Hget.
    + intros r' Hr'. apply (lookup_spec_unique v); [done|apply lookup_value_spec].
  - intros fe s' Hrun. unfold Formula_Evaluate. by rewrite Hrun.
  - intros d s' Hrun. unfold Formula_Evaluate. by rewrite Hrun.
  - intros fe s'. unfold Formula_Evaluate.
    destruct (Execute _ _ s) as [[d|[]] s1]; done.
Qed.

(** ** No dangling pointer

    The model turns [p->] on a missing cell into the outcome
    [NullDereference].  On the sheets that the public operations build this
    outcome never occurs: every position stored in an edge set or listed by
    a formula holds a cell. *)

(** The [using_cells_] of every cell are the positions its implementation
    references. *)
Definition uses_match (s : Sheet) : Prop :=
  forall a c, slot s a = Some c ->
    forall q, q ∈ using_cells_ c <-> q ∈ Cell_GetReferencedCells c.

Definition well_formed (s : Sheet) : Prop := symmetric s /\ uses_match s.

(** Every position referenced by [impl] is valid and holds a cell. *)
Definition refs_allocated (impl : Impl) (s : Sheet) : Prop :=
  forall q, q ∈ Impl_GetReferencedCells impl -> IsValid q = true /\ allocated q s.

Lemma refs_valid impl q : q ∈ Impl_GetReferencedCells impl -> IsValid q = true.
Proof.
  destruct impl as [| |cache f]; simpl; try (intros Hq; by apply elem_of_nil in Hq).
  destruct (collect_valid_spec (cells_of f) [] (SSorted_nil _)) as [_ Hin].
  intros Hq. apply Hin in Hq as [Hq|[_ ?]]; [by apply elem_of_nil in Hq|done].
Qed.

Lemma well_formed_refs s a c :
  well_formed s -> slot s a = Some c -> refs_allocated (impl_ c) s.
Proof.
  intros [Hsym Hmatch] Hc q Hq. split; [by eapply refs_valid|].
  apply (Hmatch a c Hc) in Hq.
  assert (uses s a q) as Hu by (by exists c).
  apply Hsym in Hu. by eapply used_by_allocated.
Qed.

Lemma GetConcreteCell_allocated s q :
  IsValid q = true -> allocated q s -> Sheet_GetConcreteCell s q = Returned (Some q).
Proof.
  intros Hv Hq. rewrite GetConcreteCell_slot by done.
  unfold allocated in Hq. by destruct (slot s q).
Qed.

Lemma HasCircularDependency_no_null fuel s pos_const cell visitedPos :
  well_formed s -> allocated cell s ->
  Cell_HasCircularDependency fuel s pos_const (Some cell) visitedPos
    <> Thrown NullDereference.
Proof.
  intros Hwf. revert cell visitedPos.
  induction fuel as [|fuel IH]; intros cell visitedPos Hcell; simpl; [done|].
  unfold allocated in Hcell. destruct (slot s cell) as [c|] eqn:Hc; [|done].
  pose proof (well_formed_refs s cell c Hwf Hc) as Hrefs.
  unfold Cell_GetReferencedCells. unfold refs_allocated in Hrefs. revert Hrefs visitedPos.
  generalize (Impl_GetReferencedCells (impl_ c)). clear Hcell Hc c.
  induction l as [|d l IHl]; intros Hrefs visitedPos; simpl; [done|].
  destruct (Hrefs d) as [Hv Hd]; [set_solver|].
  rewrite (GetConcreteCell_allocated s d Hv Hd).
  assert (forall q, q ∈ l -> IsValid q = true /\ allocated q s) as Hl
    by (intros q Hq; apply Hrefs; set_solver).
  case_bool_decide; [done|]. case_bool_decide; [by apply IHl|].
  destruct (Cell_HasCircularDependency fuel s pos_const (Some d) _) as [[[|] v]|e] eqn:Hr.
  - done.
  - by apply IHl.
  - intros [= ->]. by apply (IH d ({[Some d]} ∪ visitedPos)).
Qed.

Lemma CheckCircularDependencies_no_null fuel impl pos s :
  well_formed s -> refs_allocated impl s ->
  Cell_CheckCircularDependencies fuel impl pos s <> Thrown NullDereference.
Proof.
  intros Hwf. unfold Cell_CheckCircularDependencies, refs_allocated.
  generalize (∅ : gset CellPtr).
  induction (Impl_GetReferencedCells impl) as [|d l IHl]; intros visitedPos Hrefs; simpl;
    [done|].
  destruct (Hrefs d) as [Hv Hd]; [set_solver|].
  assert (forall q, q ∈ l -> IsValid q = true /\ allocated q s) as Hl
    by (intros q Hq; apply Hrefs; set_solver).
  case_bool_decide; [done|].
  rewrite (GetConcreteCell_allocated s d Hv Hd).
  destruct (Cell_HasCircularDependency fuel s pos (Some d) _) as [[[|] v]|e] eqn:Hr.
  - done.
  - by apply IHl.
  - intros [= ->]. by eapply HasCircularDependency_no_null.
Qed.

Lemma candidate_allocates fuel text s0 :
  hoare (placeholders s0) (Cell_Set_candidate (Sheet_SetCell fuel) text)
        (fun o s => placeholders s0 s /\ o <> Thrown NullDereference /\
                    forall i, o = Returned i -> refs_allocated i s).
Proof.
  assert (forall i, Impl_GetReferencedCells i = [] -> forall s, refs_allocated i s) as Hnil.
  { intros i Hi s q Hq. rewrite Hi in Hq. by apply elem_of_nil in Hq. }
  unfold Cell_Set_candidate. destruct text as [|c rest].
  { apply hoare_ret. intros s Hs. split; [done|]. split; [done|]. intros i [= <-]. by apply Hnil. }
  destruct (_ && _).
  2:{ apply hoare_ret. intros s Hs. split; [done|]. split; [done|].
      intros i [= <-]. by apply Hnil. }
  apply (hoare_bind _ _ _ (fun _ s => placeholders s0 s)).
  { apply hoare_read. intros s Hs. unfold ParseFormula.
    destruct (ParseFormulaAST rest); [done|]. split; [done|]. split; [done|]. by intros i [=]. }
  intros formula. set (impl := FormulaImpl None formula).
  apply (hoare_bind _ _ _ (fun _ s => placeholders s0 s /\ refs_allocated impl s)).
  2:{ intros _. apply hoare_ret. intros s [Hs Hrefs]. split; [done|]. split; [done|].
      by intros i [= <-]. }
  apply hoare_pre with
    (P' := fun s => placeholders s0 s /\ forall q, q ∈ ([] : list Position) -> allocated q s).
  { intros s Hs. split; [done|]. intros q Hq. by apply elem_of_nil in Hq. }
  apply (hoare_for_each
           (fun done s => placeholders s0 s /\ forall q, q ∈ done -> allocated q s)).
  2:{ intros s [Hs Hall]. split; [done|]. intros q Hq. split; [by eapply refs_valid|auto]. }
  intros done q rest' Hl s o s' [Hs Hdone].
  assert (IsValid q = true) as Hq.
  { apply (refs_valid impl). rewrite Hl. set_solver. }
  rewrite Hq. unfold bind, read. rewrite (GetCell_slot _ _ Hq).
  destruct (slot s q) as [cq|] eqn:Hslot.
  - intros [= <- <-]. split; [done|]. intros q' Hq'.
    apply elem_of_app in Hq' as [?|Hq']; [auto|].
    apply list_elem_of_singleton in Hq' as ->. unfold allocated. congruence.
  - intros Hrun.
    destruct (SetCell_empty_absent fuel q s Hslot s o s' eq_refl Hrun) as [Hnew Hpl].
    destruct (SetCell_empty_outcome fuel q s o s' Hq Hslot Hrun) as [-> | ->].
    + split; [by eapply placeholders_trans|]. intros q' Hq'.
      apply elem_of_app in Hq' as [?|Hq'].
      * eapply allocated_placeholders; eauto.
      * apply list_elem_of_singleton in Hq' as ->. unfold allocated. by rewrite Hnew.
    + split; [by eapply placeholders_trans|]. split; [done|]. by intros i [=].
Qed.

Lemma hoare_assume {A} (fact : Prop) (P : Sheet -> Prop) (m : Run A) Q :
  (fact -> hoare P m Q) -> hoare (fun s => P s /\ fact) m Q.
Proof. intros Hm s o s' [HP Hfact]. by apply Hm. Qed.

(** The state of lines 56-76 of [Cell::Set] on the cell at [self]: no cell
    of [s0] has been released, the other cells have the implementation and
    the [using_cells_] they had in [s0], and [self] holds [impl] with a
    [using_cells_] that satisfies [U]. *)
Definition wiring (self : Position) (impl : Impl) (U : gset Position -> Prop)
    (s0 s : Sheet) : Prop :=
  (forall p, allocated p s0 -> allocated p s) /\
  (forall a c, a <> self -> slot s a = Some c ->
     exists c0, slot s0 a = Some c0 /\
                using_cells_ c = using_cells_ c0 /\ impl_ c = impl_ c0) /\
  (exists c, slot s self = Some c /\ impl_ c = impl /\ U (using_cells_ c)).

Lemma wiring_calculated self impl U s0 s pos c u :
  wiring self impl U s0 s -> slot s pos = Some c ->
  wiring self impl U s0 (store pos (Some (set_calculated u c)) s).
Proof.
  intros (Halloc & Hothers & (cs & Hcs & Hi & HU)) Hc. split; [|split].
  - intros p Hp. unfold allocated. rewrite (slot_store_occupied _ _ _ _ _ Hc).
    case_decide; [done|]. by apply Halloc.
  - intros a c' Ha. rewrite (slot_store_occupied _ _ _ _ _ Hc). case_decide as Hpos.
    + intros [= <-]. subst a. destruct (Hothers pos c Ha Hc) as (c0 & ? & ? & ?).
      exists c0. by simpl.
    + by apply Hothers.
  - rewrite (slot_store_occupied _ _ _ _ _ Hc). case_decide as Hpos.
    + subst pos. assert (cs = c) as -> by congruence.
      exists (set_calculated u c). by simpl.
    + by exists cs.
Qed.

Lemma wiring_using self impl U (U' : gset Position -> Prop) s0 s c u :
  wiring self impl U s0 s -> slot s self = Some c -> U' u ->
  wiring self impl U' s0 (store self (Some (set_using u c)) s).
Proof.
  intros (Halloc & Hothers & (cs & Hcs & Hi & HU)) Hc Hu. split; [|split].
  - intros p Hp. unfold allocated. rewrite (slot_store_occupied _ _ _ _ _ Hc).
    case_decide; [done|]. by apply Halloc.
  - intros a c' Ha. rewrite (slot_store_occupied _ _ _ _ _ Hc).
    rewrite decide_False by done. by apply Hothers.
  - rewrite (slot_store_occupied _ _ _ _ _ Hc), decide_True by done.
    assert (cs = c) as -> by congruence. exists (set_using u c). by simpl.
Qed.

Lemma wiring_uses_match self impl s0 s :
  uses_match s0 ->
  wiring self impl (fun u => forall q, q ∈ u <-> q ∈ Impl_GetReferencedCells impl) s0 s ->
  uses_match s.
Proof.
  intros Hmatch (_ & Hothers & (cs & Hcs & Hi & HU)) a c Hc q.
  destruct (decide (a = self)) as [->|Ha].
  - assert (cs = c) as -> by congruence. unfold Cell_GetReferencedCells. rewrite Hi. apply HU.
  - destruct (Hothers a c Ha Hc) as (c0 & Hc0 & Hu & Himpl).
    unfold Cell_GetReferencedCells. rewrite Hu, Himpl. apply (Hmatch a c0 Hc0).
Qed.

(** On a well-formed sheet where the cell at [self] and every cell that
    [impl] references exist, lines 56-76 run to their end and leave
    [using_cells_] equal to the references of [impl]. *)
Lemma rewire_wiring fuel0 self impl s0 :
  well_formed s0 -> allocated self s0 -> refs_allocated impl s0 ->
  hoare (eq s0) (Cell_Set_rewire (Sheet_SetCell fuel0) self impl)
        (fun o s => o = Returned tt /\
           wiring self impl (fun u => forall q, q ∈ u <-> q ∈ Impl_GetReferencedCells impl)
                  s0 s).
Proof.
  intros [Hsym Hmatch] Hself Hrefs. unfold allocated in Hself.
  destruct (slot s0 self) as [c0|] eqn:Hc0; [clear Hself|done].
  assert (forall x, x ∈ using_cells_ c0 -> allocated x s0) as Hused.
  { intros x Hx. assert (uses s0 self x) as Hu by (by exists c0).
    apply Hsym in Hu. by eapply used_by_allocated. }
  unfold Cell_Set_rewire.
  apply (hoare_bind _ _ _ (fun _ s => wiring self impl (eq (using_cells_ c0)) s0 s)).
  { apply hoare_modify_cell.
    - intros s c <- Hc. assert (c = c0) as -> by congruence. split; [|split].
      + intros p Hp. unfold allocated. rewrite (slot_store_occupied _ _ _ _ _ Hc0).
        by case_decide.
      + intros a c' Ha. rewrite (slot_store_occupied _ _ _ _ _ Hc0), decide_False by done.
        eauto.
      + rewrite (slot_store_occupied _ _ _ _ _ Hc0), decide_True by done.
        exists (set_impl impl c0). by simpl.
    - intros s <- Hnone. congruence. }
  intros _.
  apply (hoare_bind _ _ _ (fun c s => wiring self impl (eq (using_cells_ c0)) s0 s /\
                                      using_cells_ c = using_cells_ c0)).
  { apply hoare_deref.
    - intros s c Hw Hc. split; [done|]. destruct Hw as (_ & _ & (cs & Hcs & _ & HU)).
      congruence.
    - intros s (_ & _ & (cs & Hcs & _)) Hnone. congruence. }
  intros c. apply hoare_assume. intros HU.
  apply (hoare_bind _ _ _ (fun _ s => wiring self impl (eq (using_cells_ c0)) s0 s)).
  { apply (hoare_for_each (fun _ s => wiring self impl (eq (using_cells_ c0)) s0 s)); [|done].
    intros done x rest Hl.
    assert (allocated x s0) as Hx.
    { apply Hused. rewrite <- HU. apply elem_of_elements. rewrite Hl. set_solver. }
    unfold Cell_Set_unlink.
    apply (hoare_bind _ _ _ (fun cu s => wiring self impl (eq (using_cells_ c0)) s0 s /\
                                         slot s x = Some cu)).
    { apply hoare_deref; [done|]. intros s (Halloc & _) Hnone. by destruct (Halloc x Hx). }
    intros cu. apply hoare_modify_cell.
    - intros s cu' [Hw _] Hcu'. by apply wiring_calculated.
    - intros s [_ Hcu] Hnone. congruence. }
  intros _.
  apply (hoare_bind _ _ _ (fun _ s =>
           wiring self impl (fun u => forall q, q ∈ u <-> q ∈ ([] : list Position)) s0 s)).
  { apply hoare_modify_cell.
    - intros s cs Hw Hcs. eapply wiring_using; [done|done|]. set_solver.
    - intros s (_ & _ & (cs & Hcs & _)) Hnone. congruence. }
  intros _.
  apply (hoare_for_each (fun done s =>
           wiring self impl (fun u => forall q, q ∈ u <-> q ∈ done) s0 s)).
  2:{ by intros s Hw. }
  intros done q rest Hl.
  destruct (Hrefs q) as [Hv Hq]; [rewrite Hl; set_solver|].
  unfold Cell_Set_link.
  apply (hoare_bind _ _ _ (fun found s =>
           wiring self impl (fun u => forall q, q ∈ u <-> q ∈ done) s0 s /\
           found = Some q)).
  { apply hoare_read. intros s Hw. rewrite GetConcreteCell_allocated; [done|done|].
    destruct Hw as (Halloc & _). by apply Halloc. }
  intros found. apply hoare_assume. intros ->.
  apply (hoare_bind _ _ _ (fun used s =>
           wiring self impl (fun u => forall q, q ∈ u <-> q ∈ done) s0 s /\
           used = Some q)).
  { by apply hoare_ret. }
  intros used. apply hoare_assume. intros ->.
  apply (hoare_bind _ _ _ (fun c' s =>
           wiring self impl (fun u => forall q, q ∈ u <-> q ∈ done) s0 s /\
           slot s self = Some c')).
  { apply hoare_deref; [done|]. intros s (_ & _ & (cs & Hcs & _)) Hnone. congruence. }
  intros c'.
  apply (hoare_bind _ _ _ (fun _ s =>
           wiring self impl (fun u => forall x, x ∈ u <-> x ∈ done ++ [q]) s0 s)).
  { apply hoare_modify_cell.
    - intros s cs [Hw Hc'] Hcs. assert (cs = c') as -> by congruence.
      eapply wiring_using; [done|done|].
      destruct Hw as (_ & _ & (c2 & Hc2 & _ & Hdone)).
      assert (c2 = c') as -> by congruence.
      intros x. rewrite elem_of_union, elem_of_singleton, Hdone. set_solver.
    - intros s [_ Hc'] Hnone. congruence. }
  intros _.
  apply (hoare_bind _ _ _ (fun cu s =>
           wiring self impl (fun u => forall x, x ∈ u <-> x ∈ done ++ [q]) s0 s /\
           slot s q = Some cu)).
  { apply hoare_deref; [done|]. intros s (Halloc & _) Hnone. by destruct (Halloc q Hq). }
  intros cu. apply hoare_modify_cell.
  - intros s cu' [Hw _] Hcu'. by apply wiring_calculated.
  - intros s [_ Hcu] Hnone. congruence.
Qed.

Lemma rewire_wired fuel0 self impl s0 :
  well_formed s0 -> allocated self s0 -> refs_allocated impl s0 ->
  hoare (eq s0) (Cell_Set_rewire (Sheet_SetCell fuel0) self impl)
        (fun o s => o = Returned tt /\ uses_match s /\
                    forall p, allocated p s0 -> allocated p s).
Proof.
  intros Hwf Hself Hrefs s o s' Hs Hrun.
  destruct (rewire_wiring fuel0 self impl s0 Hwf Hself Hrefs s o s' Hs Hrun) as [Ho Hw].
  split; [done|]. split; [eapply wiring_uses_match; [apply Hwf|done]|]. by destruct Hw.
Qed.

Lemma ResetCache_no_null fuel self force s s' :
  symmetric s -> allocated self s ->
  Cell_ResetCache fuel self force s <> (Thrown NullDereference, s').
Proof.
  revert self force s s'. induction fuel as [|fuel IH]; intros self force s s' Hsym Hself;
    simpl; [done|].
  unfold bind at 1, read at 1. simpl. unfold allocated in Hself.
  destruct (slot s self) as [c|] eqn:Hc; [|done].
  destruct (_ || _); [|done].
  unfold bind at 1, modify_cell at 1. rewrite Hc.
  set (s1 := store self (Some (reset_cache c)) s).
  assert (same_but_caches s s1) as Hsame.
  { apply same_but_caches_store; [apply reset_cache_idemp|done|done]. }
  assert (forall d, d ∈ elements (calculated_cells_ c) -> allocated d s1) as Hdeps.
  { intros d Hd. apply (allocated_caches d s); [done|]. apply elem_of_elements in Hd.
    assert (used_by s self d) as Hu by (by exists c).
    apply Hsym in Hu as (cd & Hcd & _). unfold allocated. congruence. }
  assert (symmetric s1) as Hsym1 by by eapply symmetric_caches.
  clearbody s1. clear Hsame Hc. revert s1 Hsym1 Hdeps.
  induction (elements (calculated_cells_ c)) as [|d l IHl]; intros s1 Hsym1 Hdeps; simpl;
    [done|].
  unfold bind.
  destruct (Cell_ResetCache fuel d false s1) as [[[]|e] s2] eqn:Hd.
  - assert (same_but_caches s1 s2) as Hsame.
    { by eapply (ResetCache_caches_only fuel d false s1); [apply same_but_caches_refl|]. }
    apply IHl; [by eapply symmetric_caches|].
    intros d' Hd'. apply (allocated_caches d' s1); [done|]. apply Hdeps. set_solver.
  - intros [= -> <-]. eapply IH; [| |exact Hd]; [done|]. apply Hdeps. set_solver.
Qed.

Lemma GetValue_no_null fuel self :
  hoare (allocated self) (Cell_GetValue fuel self)
        (fun o _ => o <> Thrown NullDereference).
Proof.
  revert self. induction fuel as [|fuel IH]; intros self; simpl; [by apply hoare_throw|].
  apply (hoare_bind _ _ _ (fun _ s => allocated self s)).
  { apply hoare_deref; [done|]. intros s Hs Hnone. by destruct Hs. }
  intros c. destruct (impl_ c) as [|t|[v|] f].
  - by apply hoare_ret.
  - apply hoare_read. intros s _. by destruct t; simpl; [|case_bool_decide].
  - by apply hoare_ret.
  - assert (forall e, hoare (fun _ => True) (Execute (params (Cell_GetValue fuel)) e)
                        (fun o _ => o <> Thrown NullDereference)) as Hexe.
    { induction e as [v|p|op e IHe|op l IHl r IHr]; simpl.
      - by apply hoare_ret.
      - unfold params. destruct (negb _); [by apply hoare_throw|].
        apply (hoare_bind _ _ _ (fun cell s => forall q, cell = Some q -> allocated q s)).
        { apply hoare_read. intros s _.
          destruct (Sheet_GetCell_const s p) as [cell|e] eqn:Hg.
          - intros q ->. by eapply GetCell_const_Some.
          - unfold Sheet_GetCell_const in Hg. repeat case_match; congruence. }
        intros [q|]; [|by apply hoare_ret].
        apply (hoare_bind _ _ _ (fun _ _ => True)).
        { eapply hoare_conseq; [apply IH|by auto|]. intros [?|?] s Ho; [done|]. congruence. }
        intros v. apply hoare_read. intros s _. unfold lookup_value.
        repeat case_match; congruence.
      - apply (hoare_bind _ _ _ (fun _ _ => True)).
        + eapply hoare_conseq; [apply IHe|done|]. intros [?|?] s Ho; [done|]. congruence.
        + intros x. by apply hoare_ret.
      - apply (hoare_bind _ _ _ (fun _ _ => True)).
        { eapply hoare_conseq; [apply IHl|done|]. intros [?|?] s Ho; [done|]. congruence. }
        intros x. apply (hoare_bind _ _ _ (fun _ _ => True)).
        { eapply hoare_conseq; [apply IHr|done|]. intros [?|?] s Ho; [done|]. congruence. }
        intros y. destruct (is_finite _); [by apply hoare_ret|by apply hoare_throw]. }
    apply (hoare_bind _ _ _ (fun _ s => allocated self s)).
    + intros s o s' Hself Hrun.
      assert (allocated self s') as Hself'.
      { apply (allocated_caches self s); [|done].
        eapply (Evaluate_preserves (same_but_caches s));
          [intros p; apply GetValue_caches_only|apply same_but_caches_refl|done]. }
      unfold Formula_Evaluate in Hrun.
      destruct (Execute _ _ s) as [[d|e] s1] eqn:Hexec.
      * by injection Hrun as <- <-.
      * pose proof (Hexe _ _ _ _ I Hexec) as Hne.
        destruct e; injection Hrun as <- <-; done.
    + intros v. apply (hoare_bind _ _ _ (fun _ _ => True)); [|intros _; by apply hoare_ret].
      apply hoare_modify_cell; [done|]. intros s Hs Hnone. by destruct Hs.
Qed.

Lemma uses_match_placeholders s s' : placeholders s s' -> uses_match s -> uses_match s'.
Proof.
  intros Hpl Hmatch a c Hc q. destruct (Hpl a) as [Ha|[_ Ha]]; rewrite Ha in Hc.
  - by apply (Hmatch a c).
  - injection Hc as <-. set_solver.
Qed.

Lemma uses_match_caches s s' : same_but_caches s s' -> uses_match s -> uses_match s'.
Proof.
  intros Hsame Hmatch a c Hc q. specialize (Hsame a). rewrite Hc in Hsame.
  destruct (slot s a) as [c0|] eqn:Hc0; [|done].
  injection Hsame as Himpl _ Hu _. rewrite Hu, (Hmatch a c0 Hc0 q).
  unfold Cell_GetReferencedCells.
  by destruct (impl_ c) as [| |? ?], (impl_ c0) as [| |? ?]; simplify_eq/=.
Qed.

Lemma well_formed_placeholders s s' : placeholders s s' -> well_formed s -> well_formed s'.
Proof.
  intros Hpl [? ?]. split; [by eapply symmetric_placeholders|by eapply uses_match_placeholders].
Qed.

Lemma well_formed_caches s s' : same_but_caches s s' -> well_formed s -> well_formed s'.
Proof.
  intros Hsame [? ?]. split; [by eapply symmetric_caches|by eapply uses_match_caches].
Qed.

Lemma well_formed_new : well_formed Sheet_new.
Proof. split; [apply symmetric_new|]. intros a c. by rewrite slot_new. Qed.

Lemma commit_wired fuel0 fuel self impl :
  hoare (fun s => well_formed s /\ allocated self s /\ refs_allocated impl s)
        (Cell_Set_commit (Sheet_SetCell fuel0) fuel self impl)
        (fun o s => o <> Thrown NullDereference /\ well_formed s).
Proof.
  intros s o s' (Hwf & Hself & Hrefs) Hrun.
  pose proof (symmetric_commit fuel0 fuel self impl s o s' (proj1 Hwf) Hrun) as Hsym'.
  unfold Cell_Set_commit, bind in Hrun.
  destruct (Cell_Set_rewire _ self impl s) as [[[]|e] s1] eqn:Hrw.
  - destruct (rewire_wired fuel0 self impl s Hwf Hself Hrefs s _ s1 eq_refl Hrw)
      as (_ & Hmatch & Halloc).
    destruct (rewire_symmetric fuel0 self impl s (proj1 Hwf) s _ s1 eq_refl Hrw) as [Hsym1 _].
    split.
    + intros ->. by apply (ResetCache_no_null fuel self true s1 s' Hsym1 (Halloc _ Hself)).
    + split; [done|]. apply (uses_match_caches s1); [|done].
      by eapply (ResetCache_caches_only fuel self true s1); [apply same_but_caches_refl|].
  - by destruct (rewire_wired fuel0 self impl s Hwf Hself Hrefs s _ s1 eq_refl Hrw).
Qed.

Lemma Cell_Set_wired fuel0 fuel self text pos :
  hoare (fun s => well_formed s /\ allocated self s)
        (Cell_Set (Sheet_SetCell fuel0) fuel self text pos)
        (fun o s => o <> Thrown NullDereference /\ well_formed s).
Proof.
  unfold Cell_Set.
  apply (hoare_bind _ _ _ (fun impl s =>
           well_formed s /\ allocated self s /\ refs_allocated impl s)).
  { intros s o s' [Hwf Hself] Hrun.
    destruct (candidate_allocates fuel0 text s s o s' (placeholders_refl s) Hrun)
      as (Hpl & Hne & Hrefs).
    pose proof (well_formed_placeholders s s' Hpl Hwf) as Hwf'.
    destruct o as [impl|e]; [|split; [intros [= ->]; by apply Hne|done]].
    split; [done|]. split; [by eapply allocated_placeholders|auto]. }
  intros impl.
  apply (hoare_bind _ _ _ (fun _ s =>
           well_formed s /\ allocated self s /\ refs_allocated impl s)).
  { apply hoare_read. intros s (Hwf & Hself & Hrefs).
    pose proof (CheckCircularDependencies_no_null fuel impl pos s Hwf Hrefs) as Hne.
    destruct (Cell_CheckCircularDependencies fuel impl pos s) as [b|e]; [done|].
    split; [congruence|done]. }
  intros [|]; [apply hoare_throw; by intros s (? & _)|]. apply commit_wired.
Qed.

Lemma SetCell_wired fuel pos text :
  hoare well_formed (Sheet_SetCell fuel pos text)
        (fun o s => o <> Thrown NullDereference /\ well_formed s).
Proof.
  destruct fuel as [|fuel]; simpl; [by apply hoare_throw|].
  destruct (IsValid pos) eqn:Hv; [|by apply hoare_throw].
  apply (hoare_bind _ _ _ (fun _ s => well_formed s /\ allocated pos s)).
  2:{ intros _. apply Cell_Set_wired. }
  apply hoare_update. intros s Hwf. split.
  - eapply well_formed_placeholders; [by apply materialize_placeholders|done].
  - destruct (materialize_spec pos s Hv) as (_ & Hpos & _). unfold allocated. by rewrite Hpos.
Qed.

Lemma ClearCell_wired fuel pos :
  hoare well_formed (Sheet_ClearCell fuel pos)
        (fun o s => o <> Thrown NullDereference /\ well_formed s).
Proof.
  intros s o s' Hwf Hclear.
  destruct (ClearCell_symmetric fuel pos s o s' (proj1 Hwf) Hclear) as [Hsym' _].
  revert Hclear. unfold Sheet_ClearCell.
  destruct (IsValid pos); [|intros [= <- <-]; by destruct Hwf].
  unfold bind at 1. unfold read at 1.
  destruct (in_extent s pos && bool_decide (slot s pos <> None)) eqn:Hocc;
    [|intros [= <- <-]; by destruct Hwf].
  apply andb_true_iff in Hocc as [_ Hsome]. apply bool_decide_eq_true in Hsome.
  unfold bind at 1. unfold Cell_Clear at 1. unfold bind at 1, read at 1. simpl.
  destruct (slot s pos) as [c|] eqn:Hc; [clear Hsome|done].
  rewrite Cell_Set_empty.
  destruct (Cell_Set_commit _ _ _ _ s) as [[[]|e] s1] eqn:Hrun.
  - assert (well_formed s1) as [_ Hmatch1].
    { eapply (commit_wired fuel fuel pos EmptyImpl s); [|done].
      split; [done|]. split; [unfold allocated; congruence|].
      intros q Hq. by apply elem_of_nil in Hq. }
    unfold bind, read. simpl.
    destruct (slot s1 pos) as [c1|] eqn:Hc1.
    2:{ exfalso. eapply (allocated_commit pos fuel fuel pos EmptyImpl s); [|done..].
        unfold allocated. congruence. }
    destruct (negb (Cell_IsReferenced c1)); intros [= <- <-]; (split; [done|]).
    + split; [done|]. intros a ca. rewrite (slot_store_occupied _ _ _ _ _ Hc1).
      case_decide; [done|]. apply Hmatch1.
    + by split.
  - intros [= <- <-].
    eapply (commit_wired fuel fuel pos EmptyImpl s); [|done].
    split; [done|]. split; [unfold allocated; congruence|].
    intros q Hq. by apply elem_of_nil in Hq.
Qed.

Lemma PrintValues_no_null fuel :
  hoare (fun _ => True) (Sheet_PrintValues fuel) (fun o _ => o <> Thrown NullDereference).
Proof.
  unfold Sheet_PrintValues.
  assert (forall steps r c,
            hoare (fun _ => True) (PrintValues_cols fuel steps r c)
                  (fun o _ => o <> Thrown NullDereference)) as Hcols.
  { induction steps as [|steps IH]; intros r c; simpl; [by apply hoare_throw|].
    apply (hoare_bind _ _ _ (fun _ _ => True)); [by apply hoare_read|]. intros size.
    destruct (c <? cols size)%Z; [|by apply hoare_ret].
    apply (hoare_bind _ _ _ (fun occupied s =>
             occupied = true -> allocated (mkPosition r c) s)).
    { apply hoare_read. intros s _ Hocc. apply andb_true_iff in Hocc as [_ Hocc].
      by apply bool_decide_eq_true in Hocc. }
    intros occupied.
    apply (hoare_bind _ _ _ (fun _ _ => True)); [|intros _; apply IH].
    destruct occupied; [|by apply hoare_ret].
    apply (hoare_bind _ _ _ (fun _ _ => True)); [|intros _; by apply hoare_ret].
    eapply hoare_conseq; [apply (GetValue_no_null fuel (mkPosition r c))|by auto|].
    intros [?|?] s Ho; [done|]. congruence. }
  assert (forall steps r,
            hoare (fun _ => True) (PrintValues_rows fuel steps r)
                  (fun o _ => o <> Thrown NullDereference)) as Hrows; [|apply Hrows].
  induction steps as [|steps IH]; intros r; simpl; [by apply hoare_throw|].
  apply (hoare_bind _ _ _ (fun _ _ => True)); [by apply hoare_read|]. intros size.
  destruct (r <? rows size)%Z; [|by apply hoare_ret].
  apply (hoare_bind _ _ _ (fun _ _ => True)); [|intros _; apply IH].
  eapply hoare_conseq; [apply Hcols|done|]. by intros [?|?].
Qed.

(** No public operation started on a well-formed sheet dereferences a
    missing cell, and the sheet it leaves is well formed. *)
Lemma perform_wired fuel op :
  hoare well_formed (perform fuel op)
        (fun o s => o <> Thrown NullDereference /\ well_formed s).
Proof.
  destruct op as [pos text|pos|pos|pos| | |]; simpl.
  - apply SetCell_wired.
  - apply ClearCell_wired.
  - apply (hoare_bind _ _ _ (fun cell s =>
             well_formed s /\ forall q, cell = Some q -> allocated q s)).
    { apply hoare_read. intros s Hwf. unfold Sheet_GetCell at 1.
      destruct (IsValid pos) eqn:Hv; [|done].
      pose proof (GetCell_slot s pos Hv) as Hg. unfold Sheet_GetCell in Hg.
      rewrite Hv in Hg. rewrite Hg. split; [done|].
      destruct (slot s pos) eqn:Hs; [|done]. intros q [= <-]. unfold allocated. congruence. }
    intros [c|]; [|apply hoare_ret; by intros s [? _]].
    apply (hoare_bind _ _ _ (fun _ s => well_formed s)); [|intros _; by apply hoare_ret].
    intros s o s' [Hwf Hc] Hrun.
    assert (well_formed s') as Hwf'.
    { apply (well_formed_caches s); [|done].
      by eapply (GetValue_caches_only fuel c s); [apply same_but_caches_refl|]. }
    pose proof (GetValue_no_null fuel c s o s' (Hc c eq_refl) Hrun) as Hne.
    destruct o as [v|e]; [done|]. split; [congruence|done].
  - apply (hoare_bind _ _ _ (fun _ s => well_formed s)); [|intros _; by apply hoare_ret].
    apply hoare_read. intros s Hwf. unfold Sheet_GetCell.
    destruct (IsValid pos); [by destruct (in_extent s pos)|done].
  - by apply hoare_ret.
  - intros s o s' Hwf Hrun. split; [by eapply (PrintValues_no_null fuel s)|].
    apply (well_formed_caches s); [|done].
    by eapply (PrintValues_caches_only fuel s); [apply same_but_caches_refl|].
  - by apply hoare_ret.
Qed.

Lemma reachable_well_formed s : reachable s -> well_formed s.
Proof.
  induction 1 as [|fuel op s o s' _ IH Hrun]; [apply well_formed_new|].
  by destruct (perform_wired fuel op s o s' IH Hrun).
Qed.

(** ** The recursion bound

    [fuel] only bounds the depth of the model's recursion: a call that ends
    without exhausting it ends the same way with any larger bound. *)

Definition fuel_refines {A} (m m' : Run A) : Prop :=
  forall s o s', m s = (o, s') -> o <> Thrown FuelExhausted -> m' s = (o, s').

Lemma fuel_refines_refl {A} (m : Run A) : fuel_refines m m.
Proof. by intros s o s'. Qed.

Lemma fuel_refines_trans {A} (m1 m2 m3 : Run A) :
  fuel_refines m1 m2 -> fuel_refines m2 m3 -> fuel_refines m1 m3.
Proof. intros H12 H23 s o s' Hrun Ho. apply H23; [|done]. by apply H12. Qed.

Lemma fuel_refines_exhausted {A} (m : Run A) : fuel_refines (throw FuelExhausted) m.
Proof. by intros s o s' [= <- <-]. Qed.

Lemma fuel_refines_bind {A B} (m m' : Run A) (k k' : A -> Run B) :
  fuel_refines m m' -> (forall a, fuel_refines (k a) (k' a)) ->
  fuel_refines (bind m k) (bind m' k').
Proof.
  intros Hm Hk s o s'. unfold bind.
  destruct (m s) as [[a|e] s1] eqn:Hms.
  - rewrite (Hm _ _ _ Hms) by done. apply Hk.
  - intros [= <- <-] Ho. rewrite (Hm _ _ _ Hms); [done|]. by intros [= ->].
Qed.

Lemma fuel_refines_for_each {A} (l : list A) (body body' : A -> Run unit) :
  (forall x, fuel_refines (body x) (body' x)) ->
  fuel_refines (for_each l body) (for_each l body').
Proof.
  intros Hbody. induction l as [|x l IH]; simpl; [apply fuel_refines_refl|].
  by apply fuel_refines_bind.
Qed.

Lemma fuel_refines_read {A} (f f' : Sheet -> Outcome A) :
  (forall s, f s <> Thrown FuelExhausted -> f' s = f s) ->
  fuel_refines (read f) (read f').
Proof. intros Hf s o s' [= <- <-] Ho. unfold read. by rewrite Hf. Qed.

Lemma HasCircularDependency_loop_fuel recur recur' s pos_const refs visitedPos :
  (forall cell v, recur cell v <> Thrown FuelExhausted -> recur' cell v = recur cell v) ->
  HasCircularDependency_loop recur s pos_const refs visitedPos <> Thrown FuelExhausted ->
  HasCircularDependency_loop recur' s pos_const refs visitedPos
    = HasCircularDependency_loop recur s pos_const refs visitedPos.
Proof.
  intros Hrec. revert visitedPos. induction refs as [|d refs IH]; intros visitedPos; simpl; [done|].
  destruct (Sheet_GetConcreteCell s d) as [ref_cell|e]; [|done].
  case_bool_decide; [done|]. case_bool_decide; [apply IH|].
  destruct (recur ref_cell _) as [[[|] v]|e] eqn:Hr.
  - rewrite Hrec, Hr; [done|]. by rewrite Hr.
  - rewrite Hrec, Hr; [apply IH|]. by rewrite Hr.
  - intros He. rewrite Hrec, Hr; [done|]. by rewrite Hr.
Qed.

Lemma HasCircularDependency_fuel fuel s pos_const cell visitedPos :
  Cell_HasCircularDependency fuel s pos_const cell visitedPos <> Thrown FuelExhausted ->
  Cell_HasCircularDependency (S fuel) s pos_const cell visitedPos
    = Cell_HasCircularDependency fuel s pos_const cell visitedPos.
Proof.
  revert cell visitedPos. induction fuel as [|fuel IH]; intros cell visitedPos; [done|].
  change (Cell_HasCircularDependency (S (S fuel)) s pos_const cell visitedPos)
    with (match deref s cell with
          | Thrown e => Thrown e
          | Returned c =>
              HasCircularDependency_loop (Cell_HasCircularDependency (S fuel) s pos_const)
                s pos_const (Cell_GetReferencedCells c) visitedPos
          end).
  change (Cell_HasCircularDependency (S fuel) s pos_const cell visitedPos)
    with (match deref s cell with
          | Thrown e => Thrown e
          | Returned c =>
              HasCircularDependency_loop (Cell_HasCircularDependency fuel s pos_const)
                s pos_const (Cell_GetReferencedCells c) visitedPos
          end).
  destruct (deref s cell) as [c|e]; [|done].
  by apply HasCircularDependency_loop_fuel.
Qed.

Lemma CheckCircularDependencies_fuel fuel new_impl pos s :
  Cell_CheckCircularDependencies fuel new_impl pos s <> Thrown FuelExhausted ->
  Cell_CheckCircularDependencies (S fuel) new_impl pos s
    = Cell_CheckCircularDependencies fuel new_impl pos s.
Proof.
  unfold Cell_CheckCircularDependencies. generalize (∅ : gset CellPtr).
  induction (Impl_GetReferencedCells new_impl) as [|position cells IH]; intros visitedPos;
    [done|].
  cbn [CheckCircularDependencies_loop]. case_bool_decide; [done|].
  destruct (Sheet_GetConcreteCell s position) as [ref_cell|e]; [|done].
  destruct (Cell_HasCircularDependency fuel s pos ref_cell _) as [[[|] v]|e] eqn:Hr.
  - rewrite HasCircularDependency_fuel, Hr; [done|]. by rewrite Hr.
  - rewrite HasCircularDependency_fuel, Hr; [apply IH|]. by rewrite Hr.
  - intros He. rewrite HasCircularDependency_fuel, Hr; [done|].
    rewrite Hr. intros [= ->]. done.
Qed.

Lemma ResetCache_fuel fuel self force :
  fuel_refines (Cell_ResetCache fuel self force) (Cell_ResetCache (S fuel) self force).
Proof.
  revert self force. induction fuel as [|fuel IH]; intros self force;
    [apply fuel_refines_exhausted|].
  change (fuel_refines
    (let* c := read (fun s => deref s (Some self)) in
     if Impl_HasCache (impl_ c) || force then
       modify_cell self reset_cache >>>
       for_each (elements (calculated_cells_ c))
                (fun dependent => Cell_ResetCache fuel dependent false)
     else ret tt)
    (let* c := read (fun s => deref s (Some self)) in
     if Impl_HasCache (impl_ c) || force then
       modify_cell self reset_cache >>>
       for_each (elements (calculated_cells_ c))
                (fun dependent => Cell_ResetCache (S fuel) dependent false)
     else ret tt)).
  apply fuel_refines_bind; [apply fuel_refines_refl|]. intros c.
  destruct (_ || _); [|apply fuel_refines_refl].
  apply fuel_refines_bind; [apply fuel_refines_refl|]. intros _.
  apply fuel_refines_for_each. auto.
Qed.

Lemma Execute_fuel args args' e :
  (forall p, fuel_refines (args p) (args' p)) ->
  fuel_refines (Execute args e) (Execute args' e).
Proof.
  intros Hargs. induction e as [v|p|op e IH|op l IHl r IHr]; simpl.
  - apply fuel_refines_refl.
  - apply Hargs.
  - apply fuel_refines_bind; [done|]. intros x. apply fuel_refines_refl.
  - apply fuel_refines_bind; [done|]. intros x.
    apply fuel_refines_bind; [done|]. intros y. apply fuel_refines_refl.
Qed.

Lemma Evaluate_fuel GetValue GetValue' ast_ :
  (forall p, fuel_refines (GetValue p) (GetValue' p)) ->
  fuel_refines (Formula_Evaluate GetValue ast_) (Formula_Evaluate GetValue' ast_).
Proof.
  intros Hget s o s'. unfold Formula_Evaluate.
  assert (fuel_refines (Execute (params GetValue) (root_expr_ ast_))
                       (Execute (params GetValue') (root_expr_ ast_))) as Hexe.
  { apply Execute_fuel. intros p. unfold params.
    destruct (negb _); [apply fuel_refines_refl|].
    apply fuel_refines_bind; [apply fuel_refines_refl|].
    intros [c|]; [|apply fuel_refines_refl].
    apply fuel_refines_bind; [apply Hget|]. intros v. apply fuel_refines_refl. }
  destruct (Execute (params GetValue) _ s) as [[d|e] s1] eqn:Hrun.
  - intros [= <- <-] _. by rewrite (Hexe _ _ _ Hrun).
  - intros Ho Hne. rewrite (Hexe _ _ _ Hrun); [done|].
    intros [= ->]. by injection Ho as <- <-.
Qed.

Lemma GetValue_fuel fuel self :
  fuel_refines (Cell_GetValue fuel self) (Cell_GetValue (S fuel) self).
Proof.
  revert self. induction fuel as [|fuel IH]; intros self; [apply fuel_refines_exhausted|].
  change (fuel_refines
    (let* c := read (fun s => deref s (Some self)) in
     match impl_ c with
     | EmptyImpl => ret (VString "")
     | TextImpl text_ => read (fun _ => TextImpl_GetValue text_)
     | FormulaImpl (Some v) _ => ret (FormulaValue_to_CellValue v)
     | FormulaImpl None f =>
         let* v := Formula_Evaluate (Cell_GetValue fuel) f in
         modify_cell self (set_cache v) >>> ret (FormulaValue_to_CellValue v)
     end)
    (let* c := read (fun s => deref s (Some self)) in
     match impl_ c with
     | EmptyImpl => ret (VString "")
     | TextImpl text_ => read (fun _ => TextImpl_GetValue text_)
     | FormulaImpl (Some v) _ => ret (FormulaValue_to_CellValue v)
     | FormulaImpl None f =>
         let* v := Formula_Evaluate (Cell_GetValue (S fuel)) f in
         modify_cell self (set_cache v) >>> ret (FormulaValue_to_CellValue v)
     end)).
  apply fuel_refines_bind; [apply fuel_refines_refl|]. intros c.
  destruct (impl_ c) as [|t|[v|] f]; try apply fuel_refines_refl.
  apply fuel_refines_bind; [by apply Evaluate_fuel|]. intros v. apply fuel_refines_refl.
Qed.

Lemma Cell_Set_fuel SetCell SetCell' fuel self text pos :
  (forall p t, fuel_refines (SetCell p t) (SetCell' p t)) ->
  fuel_refines (Cell_Set SetCell fuel self text pos) (Cell_Set SetCell' (S fuel) self text pos).
Proof.
  intros Hrec. unfold Cell_Set. apply fuel_refines_bind.
  { unfold Cell_Set_candidate. destruct text as [|c rest]; [apply fuel_refines_refl|].
    destruct (_ && _); [|apply fuel_refines_refl].
    apply fuel_refines_bind; [apply fuel_refines_refl|]. intros formula.
    apply fuel_refines_bind; [|intros _; apply fuel_refines_refl].
    apply fuel_refines_for_each. intros q.
    destruct (IsValid q); [|apply fuel_refines_refl].
    apply fuel_refines_bind; [apply fuel_refines_refl|].
    intros [?|]; [apply fuel_refines_refl|apply Hrec]. }
  intros impl. apply fuel_refines_bind.
  { apply fuel_refines_read. intros s. apply CheckCircularDependencies_fuel. }
  intros [|]; [apply fuel_refines_refl|].
  unfold Cell_Set_commit. apply fuel_refines_bind; [|intros _; apply ResetCache_fuel].
  unfold Cell_Set_rewire.
  apply fuel_refines_bind; [apply fuel_refines_refl|]. intros _.
  apply fuel_refines_bind; [apply fuel_refines_refl|]. intros c.
  apply fuel_refines_bind; [apply fuel_refines_refl|]. intros _.
  apply fuel_refines_bind; [apply fuel_refines_refl|]. intros _.
  apply fuel_refines_for_each. intros q. unfold Cell_Set_link.
  apply fuel_refines_bind; [apply fuel_refines_refl|]. intros found.
  apply fuel_refines_bind; [|intros used; apply fuel_refines_refl].
  destruct found; [apply fuel_refines_refl|].
  apply fuel_refines_bind; [apply Hrec|]. intros _. apply fuel_refines_refl.
Qed.

Lemma SetCell_fuel fuel pos text :
  fuel_refines (Sheet_SetCell fuel pos text) (Sheet_SetCell (S fuel) pos text).
Proof.
  revert pos text. induction fuel as [|fuel IH]; intros pos text;
    [apply fuel_refines_exhausted|].
  change (fuel_refines
    (if IsValid pos then
       update (materialize pos) >>> Cell_Set (Sheet_SetCell fuel) fuel pos text pos
     else throw InvalidPositionException)
    (if IsValid pos then
       update (materialize pos) >>> Cell_Set (Sheet_SetCell (S fuel)) (S fuel) pos text pos
     else throw InvalidPositionException)).
  destruct (IsValid pos); [|apply fuel_refines_refl].
  apply fuel_refines_bind; [apply fuel_refines_refl|]. intros _.
  by apply Cell_Set_fuel.
Qed.

Lemma PrintValues_fuel fuel :
  fuel_refines (Sheet_PrintValues fuel) (Sheet_PrintValues (S fuel)).
Proof.
  unfold Sheet_PrintValues.
  assert (forall steps r c,
            fuel_refines (PrintValues_cols fuel steps r c)
                         (PrintValues_cols (S fuel) (S steps) r c)) as Hcols.
  { induction steps as [|steps IH]; intros r c; [apply fuel_refines_exhausted|].
    cbn [PrintValues_cols].
    apply fuel_refines_bind; [apply fuel_refines_refl|]. intros size.
    destruct (c <? cols size); [|apply fuel_refines_refl].
    apply fuel_refines_bind; [apply fuel_refines_refl|]. intros occupied.
    apply fuel_refines_bind; [|intros _; apply IH].
    destruct occupied; [|apply fuel_refines_refl].
    apply fuel_refines_bind; [apply GetValue_fuel|]. intros _. apply fuel_refines_refl. }
  assert (forall steps r,
            fuel_refines (PrintValues_rows fuel steps r)
                         (PrintValues_rows (S fuel) (S steps) r)) as Hrows; [|apply Hrows].
  induction steps as [|steps IH]; intros r; [apply fuel_refines_exhausted|].
  cbn [PrintValues_rows].
  apply fuel_refines_bind; [apply fuel_refines_refl|]. intros size.
  destruct (r <? rows size); [|apply fuel_refines_refl].
  apply fuel_refines_bind; [apply Hcols|]. intros _. apply IH.
Qed.

(** An operation that ends without exhausting the bound [n] ends in the
    same outcome and sheet under every bound [m >= n]. *)
Lemma perform_fuel_monotone n m op s o s' :
  (n <= m)%nat -> perform n op s = (o, s') -> o <> Thrown FuelExhausted ->
  perform m op s = (o, s').
Proof.
  intros Hle. revert s o s'. change (fuel_refines (perform n op) (perform m op)).
  induction Hle as [|m _ IH]; [apply fuel_refines_refl|].
  eapply fuel_refines_trans; [exact IH|]. clear IH.
  destruct op as [pos text|pos|pos|pos| | |]; simpl; try apply fuel_refines_refl.
  - apply SetCell_fuel.
  - unfold Sheet_ClearCell. destruct (IsValid pos); [|apply fuel_refines_refl].
    apply fuel_refines_bind; [apply fuel_refines_refl|].
    intros [|]; [|apply fuel_refines_refl].
    apply fuel_refines_bind; [|intros _; apply fuel_refines_refl].
    unfold Cell_Clear. apply fuel_refines_bind; [apply fuel_refines_refl|]. intros c.
    apply Cell_Set_fuel. intros p t. apply SetCell_fuel.
  - apply fuel_refines_bind; [apply fuel_refines_refl|].
    intros [c|]; [|apply fuel_refines_refl].
    apply fuel_refines_bind; [apply GetValue_fuel|]. intros _. apply fuel_refines_refl.
  - apply PrintValues_fuel.
Qed.

End Properties.

(** * Further properties of the engine *)

Section Coverage.
Context `{collab : Collaborators}.

(** ** The cycle check decides reachability *)

(** The cell at [a] holds a formula that references [b]: the edges that
    [Cell::HasCircularDependency] follows. *)
Definition refers (s : Sheet) (a b : Position) : Prop :=
  exists c, slot s a = Some c /\ b ∈ Cell_GetReferencedCells c.

Lemma HasCircularDependency_null fuel s pos_const visitedPos r :
  Cell_HasCircularDependency fuel s pos_const None visitedPos <> Returned r.
Proof. by destruct fuel. Qed.

(** An answer [true] comes with a path to [pos_const]. *)
Lemma HasCircularDependency_true fuel s pos_const cell visitedPos v :
  Cell_HasCircularDependency fuel s pos_const cell visitedPos = Returned (true, v) ->
  exists x, cell = Some x /\ tc (refers s) x pos_const.
Proof.
  revert cell visitedPos v.
  induction fuel as [|fuel IH]; intros cell visitedPos v; simpl; [done|].
  destruct cell as [x|]; simpl; [|done].
  destruct (slot s x) as [c|] eqn:Hc; [|done].
  intros Hloop. exists x. split; [done|].
  assert (forall d, d ∈ Cell_GetReferencedCells c -> refers s x d) as Hrefs
    by (intros d Hd; by exists c).
  revert visitedPos Hrefs Hloop.
  induction (Cell_GetReferencedCells c) as [|d l IHl]; intros visitedPos Hrefs; simpl; [done|].
  assert (forall d', d' ∈ l -> refers s x d') as Hl by (intros d' Hd'; apply Hrefs; set_solver).
  assert (refers s x d) as Hd by (apply Hrefs; set_solver).
  destruct (Sheet_GetConcreteCell s d) as [ref_cell|e] eqn:Hg; [|done].
  case_bool_decide as Hpos; [intros _; subst; by apply tc_once|].
  case_bool_decide; [by apply IHl|].
  destruct (Cell_HasCircularDependency fuel s pos_const ref_cell _) as [[[|] v']|e] eqn:Hr;
    [|by apply IHl|done].
  intros _. apply IH in Hr as (y & -> & Hpath).
  apply GetConcreteCell_Some in Hg as [-> _]. by apply tc_l with d.
Qed.

(** The cells in [visitedPos] other than those in [pending] have been
    searched: what they reference is not [pos_const] and is in [visitedPos]. *)
Definition searched (s : Sheet) (pos_const : Position) (pending : gset Position)
    (visitedPos : gset CellPtr) : Prop :=
  (None ∉ visitedPos) /\
  forall x, Some x ∈ visitedPos -> x ∉ pending ->
    forall y, refers s x y -> y <> pos_const /\ Some y ∈ visitedPos.

(** An answer [false] leaves everything reached from [x] searched. *)
Lemma HasCircularDependency_false fuel s pos_const x pending visitedPos v :
  Cell_HasCircularDependency fuel s pos_const (Some x) visitedPos = Returned (false, v) ->
  Some x ∈ visitedPos ->
  searched s pos_const (pending ∪ {[x]}) visitedPos ->
  visitedPos ⊆ v /\ searched s pos_const pending v.
Proof.
  revert x pending visitedPos v.
  induction fuel as [|fuel IH]; intros x pending visitedPos v; simpl; [done|].
  destruct (slot s x) as [c|] eqn:Hc; [|done].
  intros Hloop Hx Hsearched.
  assert (visitedPos ⊆ v /\ searched s pos_const (pending ∪ {[x]}) v /\
          forall d, d ∈ Cell_GetReferencedCells c -> d <> pos_const /\ Some d ∈ v)
    as (Hsub & [Hnull Hv] & Hrefs).
  { clear Hx. revert visitedPos Hsearched Hloop.
    induction (Cell_GetReferencedCells c) as [|d l IHl]; intros visitedPos Hsearched; simpl.
    { intros [= <-]. split; [done|]. split; [done|]. intros d Hd. by apply elem_of_nil in Hd. }
    destruct (Sheet_GetConcreteCell s d) as [ref_cell|e] eqn:Hg; [|done].
    case_bool_decide as Hpos; [done|]. case_bool_decide as Hseen.
    - intros Hloop. destruct (IHl visitedPos Hsearched Hloop) as (Hsub & Hs & Hl).
      split; [done|]. split; [done|]. intros d' Hd'.
      apply elem_of_cons in Hd' as [->|Hd']; [|auto]. split; [done|].
      destruct ref_cell as [y|]; [|by destruct Hsearched].
      apply GetConcreteCell_Some in Hg as [-> _]. by apply Hsub.
    - destruct ref_cell as [y|].
      2:{ destruct (Cell_HasCircularDependency fuel s pos_const None _) as [[[|] v']|e] eqn:Hr;
            [by apply HasCircularDependency_null in Hr..|done]. }
      apply GetConcreteCell_Some in Hg as [-> _].
      destruct (Cell_HasCircularDependency fuel s pos_const (Some d) _) as [[[|] v']|e] eqn:Hr;
        [done| |done].
      intros Hloop.
      destruct (IH d (pending ∪ {[x]}) _ _ Hr) as [Hsub' Hs']; [set_solver|..].
      { destruct Hsearched as [Hnull Hv]. split; [set_solver|].
        intros z Hz Hpending y Hy.
        assert (Some z ∈ visitedPos) as Hz' by set_solver.
        assert (z ∉ pending ∪ {[x]}) as Hz'' by set_solver.
        destruct (Hv z Hz' Hz'' y Hy). split; [done|set_solver]. }
      destruct (IHl v' Hs' Hloop) as (Hsub & Hs & Hl).
      split; [set_solver|]. split; [done|]. intros d' Hd'.
      apply elem_of_cons in Hd' as [->|Hd']; [|auto]. split; [done|]. set_solver. }
  split; [done|]. split; [done|]. intros z Hz Hpending y Hy.
  destruct (decide (z = x)) as [->|Hne].
  - destruct Hy as (c' & Hc' & Hy). assert (c' = c) as -> by congruence. auto.
  - apply (Hv z); [done|set_solver|done].
Qed.

Lemma searched_closed s pos_const v q y :
  searched s pos_const ∅ v -> Some q ∈ v -> q <> pos_const ->
  rtc (refers s) q y -> y <> pos_const /\ Some y ∈ v.
Proof.
  intros [_ Hv] Hq Hne Hpath. revert Hq Hne.
  induction Hpath as [|q z y Hstep _ IH]; [done|].
  intros Hq Hne. destruct (Hv q Hq (not_elem_of_empty q) z Hstep). auto.
Qed.

Lemma CheckCircularDependencies_true fuel s pos cells visitedPos :
  CheckCircularDependencies_loop fuel s pos cells visitedPos = Returned true ->
  exists q, q ∈ cells /\ rtc (refers s) q pos.
Proof.
  revert visitedPos. induction cells as [|d l IHl]; intros visitedPos; simpl; [done|].
  case_bool_decide as Hpos; [intros _; exists d; split; [set_solver|by subst]|].
  destruct (Sheet_GetConcreteCell s d) as [ref_cell|e] eqn:Hg; [|done].
  destruct (Cell_HasCircularDependency fuel s pos ref_cell _) as [[[|] v]|e] eqn:Hr; [| |done].
  - intros _. apply HasCircularDependency_true in Hr as (y & -> & Hpath).
    apply GetConcreteCell_Some in Hg as [-> _].
    exists d. split; [set_solver|by apply tc_rtc].
  - intros Hloop. destruct (IHl _ Hloop) as (q & Hq & Hpath). exists q. split; [set_solver|done].
Qed.

Lemma CheckCircularDependencies_false fuel s pos cells visitedPos :
  CheckCircularDependencies_loop fuel s pos cells visitedPos = Returned false ->
  searched s pos ∅ visitedPos ->
  exists v, visitedPos ⊆ v /\ searched s pos ∅ v /\
            forall d, d ∈ cells -> d <> pos /\ Some d ∈ v.
Proof.
  revert visitedPos. induction cells as [|d l IHl]; intros visitedPos; simpl.
  { intros _ Hs. exists visitedPos. split; [done|]. split; [done|].
    intros d Hd. by apply elem_of_nil in Hd. }
  case_bool_decide as Hpos; [done|].
  destruct (Sheet_GetConcreteCell s d) as [[y|]|e] eqn:Hg; [| |done].
  2:{ destruct (Cell_HasCircularDependency fuel s pos None _) as [[[|] v']|e] eqn:Hr;
        [by apply HasCircularDependency_null in Hr..|done]. }
  apply GetConcreteCell_Some in Hg as [-> _].
  destruct (Cell_HasCircularDependency fuel s pos (Some d) _) as [[[|] v]|e] eqn:Hr;
    [done| |done].
  intros Hloop Hs.
  destruct (HasCircularDependency_false fuel s pos d ∅ _ _ Hr) as [Hsub Hs']; [set_solver|..].
  { destruct Hs as [Hnull Hv]. split; [set_solver|].
    intros z Hz Hpending y Hy.
    assert (Some z ∈ visitedPos) as Hz' by set_solver.
    assert (z ∉ (∅ : gset Position)) as Hz'' by set_solver.
    destruct (Hv z Hz' Hz'' y Hy). split; [done|set_solver]. }
  destruct (IHl v Hloop Hs') as (v' & Hsub' & Hs'' & Hl).
  exists v'. split; [set_solver|]. split; [done|]. intros d' Hd'.
  apply elem_of_cons in Hd' as [->|Hd']; [|auto]. split; [congruence|set_solver].
Qed.

(** X1: when [Cell::CheckCircularDependencies] answers, the answer is [true]
    exactly when [pos] is one of the positions the candidate references or is
    reached from one of them along the references of the cells of the
    sheet. *)
Theorem CheckCircularDependencies_decides_reachability fuel new_impl pos s b :
  Cell_CheckCircularDependencies fuel new_impl pos s = Returned b ->
  (b = true <-> exists q, q ∈ Impl_GetReferencedCells new_impl /\ rtc (refers s) q pos).
Proof.
  unfold Cell_CheckCircularDependencies. intros Hcheck. destruct b.
  - split; [intros _|done]. by eapply CheckCircularDependencies_true.
  - split; [done|]. intros (q & Hq & Hpath). exfalso.
    destruct (CheckCircularDependencies_false _ _ _ _ _ Hcheck) as (v & _ & Hs & Hcells).
    { split; [set_solver|]. intros x Hx. set_solver. }
    destruct (Hcells q Hq) as [Hne Hv].
    by destruct (searched_closed s pos v q pos Hs Hv Hne Hpath).
Qed.

(** ** What [Cell::Set] builds from a text *)

(** The implementation that lines 34-47 of [Cell::Set] build from [text],
    or the exception of the parser. *)
Definition candidate_of (text : string) : Outcome Impl :=
  match text with
  | EmptyString => Returned EmptyImpl
  | String c rest =>
      if (2 <=? Z.of_nat (String.length text)) && bool_decide (c = FORMULA_SIGN) then
        match ParseFormula rest with
        | Returned formula => Returned (FormulaImpl None formula)
        | Thrown e => Thrown e
        end
      else Returned (TextImpl text)
  end.

Lemma candidate_of_refs text i q :
  candidate_of text = Returned i -> q ∈ Impl_GetReferencedCells i ->
  exists rest ast, text = String FORMULA_SIGN rest /\ rest <> ""%string /\
                   ParseFormulaAST rest = Some ast /\ i = FormulaImpl None ast.
Proof.
  destruct text as [|c rest]; simpl; [intros [= <-] Hq; by apply elem_of_nil in Hq|].
  destruct (_ <=? _) eqn:Hlen; simpl.
  2:{ intros [= <-] Hq. by apply elem_of_nil in Hq. }
  case_bool_decide as Hc; [|intros [= <-] Hq; by apply elem_of_nil in Hq].
  unfold ParseFormula. destruct (ParseFormulaAST rest) as [ast|] eqn:Hparse; [|done].
  intros [= <-] _. exists rest, ast. subst c. split; [done|]. split; [|done].
  intros ->. simpl in Hlen. done.
Qed.

Lemma candidate_of_formula rest ast :
  rest <> ""%string -> ParseFormulaAST rest = Some ast ->
  candidate_of (String FORMULA_SIGN rest) = Returned (FormulaImpl None ast).
Proof.
  intros Hrest Hparse. unfold candidate_of, ParseFormula. rewrite Hparse.
  destruct rest as [|c rest]; [done|]. simpl String.length.
  rewrite bool_decide_eq_true_2 by done.
  by replace (2 <=? Z.of_nat (S (S (String.length rest)))) with true
    by (symmetry; apply Z.leb_le; lia).
Qed.

Lemma candidate_outcome SetCell text :
  hoare (fun _ => True) (Cell_Set_candidate SetCell text)
        (fun o _ => forall i, o = Returned i -> candidate_of text = Returned i).
Proof.
  unfold Cell_Set_candidate, candidate_of. destruct text as [|c rest].
  { apply hoare_ret. by intros s _ i [= <-]. }
  destruct (_ && _); [|apply hoare_ret; by intros s _ i [= <-]].
  apply (hoare_bind _ _ _ (fun formula _ => ParseFormula rest = Returned formula)).
  { apply hoare_read. intros s _. by destruct (ParseFormula rest). }
  intros formula.
  apply (hoare_bind _ _ _ (fun _ _ => ParseFormula rest = Returned formula)).
  - intros s o s' Hparse _. by destruct o.
  - intros _. apply hoare_ret. intros s -> i [= <-]. done.
Qed.

(** ** The reference graph has no cycle *)

Definition acyclic (s : Sheet) : Prop := forall x, ~ tc (refers s) x x.

Lemma refers_placeholders s s' a b : placeholders s s' -> refers s' a b <-> refers s a b.
Proof.
  intros Hpl. unfold refers. destruct (Hpl a) as [->|[Hn ->]]; [done|].
  rewrite Hn. split; intros (c & [= <-] & Hb); by apply elem_of_nil in Hb.
Qed.

Lemma refers_caches s s' a b : same_but_caches s s' -> refers s' a b <-> refers s a b.
Proof.
  assert (forall s s' a b, same_but_caches s s' -> refers s a b -> refers s' a b) as Hone.
  { clear. intros s s' a b Hsame (c & Hc & Hb). specialize (Hsame a). rewrite Hc in Hsame.
    destruct (slot s' a) as [c'|] eqn:Hc'; [|done]. exists c'. split; [done|].
    injection Hsame as Himpl _ _ _. revert Hb. unfold Cell_GetReferencedCells.
    by destruct (impl_ c) as [| |? ?], (impl_ c') as [| |? ?]; simplify_eq/=. }
  intros Hsame. split; apply Hone; [|done].
  intros q. by rewrite Hsame.
Qed.

Lemma rtc_refers_placeholders s s' a b :
  placeholders s s' -> rtc (refers s') a b <-> rtc (refers s) a b.
Proof.
  intros Hpl.
  split; apply (rtc_congruence (fun x => x)); intros x y; by rewrite (refers_placeholders s s').
Qed.

Lemma acyclic_subgraph s s' :
  (forall a b, refers s' a b -> refers s a b) -> acyclic s -> acyclic s'.
Proof.
  intros Hsub Hs x Hx. apply (Hs x). revert Hx. by apply (tc_congruence (fun x => x)).
Qed.

Lemma tc_first_step {A} (R : relation A) x y : tc R x y -> exists z, R x z /\ rtc R z y.
Proof.
  destruct 1 as [x y Hxy|x z y Hxz Hzy]; [by exists y|].
  exists z. split; [done|by apply tc_rtc].
Qed.

(** Redirecting the edges that leave one node [pos] to targets from which
    [pos] was not reached keeps a graph without cycles free of them. *)
Lemma acyclic_redirect {A} (E E' : relation A) (pos : A) (targets : A -> Prop) :
  (forall a b, E' a b -> (a = pos /\ targets b) \/ (a <> pos /\ E a b)) ->
  (forall x, ~ tc E x x) ->
  (forall r, targets r -> ~ rtc E r pos) ->
  forall x, ~ tc E' x x.
Proof.
  intros Hstep Hacyclic Hfar.
  assert (forall r y, rtc E' r y ->
            rtc E r y \/ (rtc E r pos /\ rtc E' r pos /\ rtc E' pos y)) as Hsplit.
  { intros r y Hpath. induction Hpath as [r|r z y Hrz Hzy IH]; [by left|].
    destruct (Hstep r z Hrz) as [[-> _]|[_ Hrz']].
    - right. split; [done|]. split; [done|]. by apply rtc_l with z.
    - destruct IH as [IH|(IH1 & IH2 & IH3)].
      + left. by apply rtc_l with z.
      + right. split; [by apply rtc_l with z|]. split; [by apply rtc_l with z|done]. }
  assert (forall w, E' pos w -> ~ rtc E' w pos) as Hpos.
  { intros w Hw Hback. destruct (Hstep pos w Hw) as [[_ Hr]|[? _]]; [|done].
    apply (Hfar w Hr). by destruct (Hsplit w pos Hback) as [?|(? & _)]. }
  intros x Hx. apply tc_first_step in Hx as (z & Hxz & Hzx).
  destruct (Hstep x z Hxz) as [[-> _]|[Hne Hxz']]; [by apply (Hpos z)|].
  destruct (Hsplit z x Hzx) as [Hback|(_ & Hzpos & Hposx)].
  - apply (Hacyclic x). by apply tc_rtc_r with z; [apply tc_once|].
  - inversion Hposx as [|? w ? Hw Hwx]; subst; [done|].
    apply (Hpos w Hw). etrans; [exact Hwx|]. by apply rtc_l with z.
Qed.

Lemma wiring_refers self impl U s0 s a b :
  wiring self impl U s0 s -> refers s a b ->
  (a = self /\ b ∈ Impl_GetReferencedCells impl) \/ (a <> self /\ refers s0 a b).
Proof.
  intros (_ & Hothers & (cs & Hcs & Hi & _)) (c & Hc & Hb).
  destruct (decide (a = self)) as [->|Ha].
  - left. split; [done|]. assert (c = cs) as -> by congruence.
    by rewrite <- Hi.
  - right. split; [done|]. destruct (Hothers a c Ha Hc) as (c0 & Hc0 & _ & Himpl).
    exists c0. split; [done|]. unfold Cell_GetReferencedCells in *. by rewrite <- Himpl.
Qed.

Lemma commit_acyclic fuel0 fuel self impl :
  hoare (fun s => well_formed s /\ allocated self s /\ refs_allocated impl s /\ acyclic s /\
                  forall q, q ∈ Impl_GetReferencedCells impl -> ~ rtc (refers s) q self)
        (Cell_Set_commit (Sheet_SetCell fuel0) fuel self impl)
        (fun _ s => acyclic s).
Proof.
  intros s o s' (Hwf & Hself & Hrefs & Hacyclic & Hfar) Hrun.
  unfold Cell_Set_commit, bind in Hrun.
  destruct (Cell_Set_rewire _ self impl s) as [o1 s1] eqn:Hrw.
  destruct (rewire_wiring fuel0 self impl s Hwf Hself Hrefs s _ s1 eq_refl Hrw) as [-> Hw].
  assert (acyclic s1) as Hs1.
  { pose proof (fun a b => wiring_refers self impl _ s s1 a b Hw) as Hstep.
    exact (acyclic_redirect (refers s) (refers s1) self
             (fun q => q ∈ Impl_GetReferencedCells impl) Hstep Hacyclic Hfar). }
  apply (acyclic_subgraph s1); [|done]. intros a b. apply (refers_caches s1 s').
  by eapply (ResetCache_caches_only fuel self true s1); [apply same_but_caches_refl|].
Qed.

Lemma GetConcreteCell_throws s q e :
  Sheet_GetConcreteCell s q = Thrown e -> e = InvalidPositionException.
Proof.
  unfold Sheet_GetConcreteCell. destruct (IsValid q); [|by intros [= <-]].
  by destruct (in_extent s q).
Qed.

(** The search itself raises no [CircularDependencyException]: it answers. *)
Lemma HasCircularDependency_throws fuel s pos_const cell visitedPos :
  Cell_HasCircularDependency fuel s pos_const cell visitedPos
    <> Thrown CircularDependencyException.
Proof.
  revert cell visitedPos. induction fuel as [|fuel IH]; intros cell visitedPos; simpl; [done|].
  destruct cell as [x|]; simpl; [|done]. destruct (slot s x) as [c|]; [|done].
  revert visitedPos.
  induction (Cell_GetReferencedCells c) as [|d l IHl]; intros visitedPos; simpl; [done|].
  destruct (Sheet_GetConcreteCell s d) as [ref_cell|e] eqn:Hg.
  2:{ apply GetConcreteCell_throws in Hg as ->. done. }
  case_bool_decide; [done|]. case_bool_decide; [by apply IHl|].
  destruct (Cell_HasCircularDependency fuel s pos_const ref_cell _) as [[[|] v]|e] eqn:Hr;
    [done|by apply IHl|].
  intros [= ->]. by apply IH in Hr.
Qed.

Lemma CheckCircularDependencies_throws fuel impl pos s :
  Cell_CheckCircularDependencies fuel impl pos s <> Thrown CircularDependencyException.
Proof.
  unfold Cell_CheckCircularDependencies. generalize (∅ : gset CellPtr).
  induction (Impl_GetReferencedCells impl) as [|d l IHl]; intros visitedPos; simpl; [done|].
  case_bool_decide; [done|].
  destruct (Sheet_GetConcreteCell s d) as [ref_cell|e] eqn:Hg.
  2:{ apply GetConcreteCell_throws in Hg as ->. done. }
  destruct (Cell_HasCircularDependency fuel s pos ref_cell _) as [[[|] v]|e] eqn:Hr;
    [done|by apply IHl|].
  intros [= ->]. by apply HasCircularDependency_throws in Hr.
Qed.

Lemma Check_false_unreachable fuel impl pos s q :
  Cell_CheckCircularDependencies fuel impl pos s = Returned false ->
  q ∈ Impl_GetReferencedCells impl -> ~ rtc (refers s) q pos.
Proof.
  unfold Cell_CheckCircularDependencies. intros Hcheck Hq Hpath.
  destruct (CheckCircularDependencies_false _ _ _ _ _ Hcheck) as (v & _ & Hs & Hcells).
  { split; [set_solver|]. intros x Hx. set_solver. }
  destruct (Hcells q Hq) as [Hne Hv].
  by destruct (searched_closed s pos v q pos Hs Hv Hne Hpath).
Qed.

Lemma Cell_Set_acyclic fuel0 fuel pos text :
  hoare (fun s => well_formed s /\ allocated pos s /\ acyclic s)
        (Cell_Set (Sheet_SetCell fuel0) fuel pos text pos)
        (fun _ s => acyclic s).
Proof.
  unfold Cell_Set.
  apply (hoare_bind _ _ _ (fun impl s =>
           well_formed s /\ allocated pos s /\ refs_allocated impl s /\ acyclic s)).
  { intros s o s' (Hwf & Hself & Hacyclic) Hrun.
    destruct (candidate_allocates fuel0 text s s o s' (placeholders_refl s) Hrun)
      as (Hpl & _ & Hrefs).
    assert (acyclic s') as Hacyclic'.
    { apply (acyclic_subgraph s); [|done]. intros a b. by apply (refers_placeholders s s'). }
    destruct o as [impl|e]; [|done].
    split; [by eapply well_formed_placeholders|].
    split; [by eapply allocated_placeholders|]. split; [auto|done]. }
  intros impl.
  apply (hoare_bind _ _ _ (fun cyclic s =>
           well_formed s /\ allocated pos s /\ refs_allocated impl s /\ acyclic s /\
           (cyclic = false ->
            forall q, q ∈ Impl_GetReferencedCells impl -> ~ rtc (refers s) q pos))).
  { apply hoare_read. intros s (Hwf & Hself & Hrefs & Hacyclic).
    destruct (Cell_CheckCircularDependencies fuel impl pos s) as [b|e] eqn:Hcheck; [|done].
    do 4 (split; [done|]). intros -> q. by apply (Check_false_unreachable fuel). }
  intros [|]; [apply hoare_throw; by intros s (_ & _ & _ & ? & _)|].
  eapply hoare_pre; [|apply commit_acyclic].
  intros s (? & ? & ? & ? & Hfar). do 4 (split; [done|]). by apply Hfar.
Qed.

Lemma SetCell_acyclic fuel pos text :
  hoare (fun s => well_formed s /\ acyclic s) (Sheet_SetCell fuel pos text)
        (fun _ s => acyclic s).
Proof.
  destruct fuel as [|fuel]; simpl; [apply hoare_throw; by intros s [_ ?]|].
  destruct (IsValid pos) eqn:Hv; [|apply hoare_throw; by intros s [_ ?]].
  apply (hoare_bind _ _ _ (fun _ s => well_formed s /\ allocated pos s /\ acyclic s)).
  2:{ intros _. apply Cell_Set_acyclic. }
  apply hoare_update. intros s [Hwf Hacyclic].
  pose proof (materialize_placeholders pos s Hv) as Hpl.
  split; [by eapply well_formed_placeholders|]. split.
  - destruct (materialize_spec pos s Hv) as (_ & Hpos & _). unfold allocated. by rewrite Hpos.
  - apply (acyclic_subgraph s); [|done]. intros a b.
    by apply (refers_placeholders s (materialize pos s)).
Qed.

Lemma ClearCell_acyclic fuel pos :
  hoare (fun s => well_formed s /\ acyclic s) (Sheet_ClearCell fuel pos)
        (fun _ s => acyclic s).
Proof.
  intros s o s' [Hwf Hacyclic]. unfold Sheet_ClearCell.
  destruct (IsValid pos); [|by intros [= <- <-]].
  unfold bind at 1. unfold read at 1.
  destruct (in_extent s pos && bool_decide (slot s pos <> None)) eqn:Hocc;
    [|by intros [= <- <-]].
  apply andb_true_iff in Hocc as [_ Hsome]. apply bool_decide_eq_true in Hsome.
  unfold bind at 1. unfold Cell_Clear at 1. unfold bind at 1, read at 1. simpl.
  destruct (slot s pos) as [c|] eqn:Hc; [clear Hsome|done].
  rewrite Cell_Set_empty.
  destruct (Cell_Set_commit _ _ _ _ s) as [o1 s1] eqn:Hrun.
  assert (acyclic s1) as Hs1.
  { eapply (commit_acyclic fuel fuel pos EmptyImpl s); [|done].
    split; [done|]. split; [unfold allocated; congruence|].
    split; [intros q Hq; by apply elem_of_nil in Hq|]. split; [done|].
    intros q Hq. by apply elem_of_nil in Hq. }
  destruct o1 as [[]|e]; [|by intros [= <- <-]].
  unfold bind, read. simpl.
  destruct (slot s1 pos) as [c1|] eqn:Hc1; [|by intros [= <- <-]].
  destruct (negb (Cell_IsReferenced c1)); intros [= <- <-]; [|done].
  apply (acyclic_subgraph s1); [|done]. intros a b (ca & Hca & Hb).
  rewrite (slot_store_occupied _ _ _ _ _ Hc1) in Hca. case_decide; [done|]. by exists ca.
Qed.

Lemma perform_acyclic fuel op :
  hoare (fun s => well_formed s /\ acyclic s) (perform fuel op) (fun _ s => acyclic s).
Proof.
  assert (forall s s', same_but_caches s s' -> acyclic s -> acyclic s') as Hcaches.
  { intros s s' Hsame. apply acyclic_subgraph. intros a b. by apply (refers_caches s s'). }
  destruct op as [pos text|pos|pos|pos| | |]; simpl.
  - apply SetCell_acyclic.
  - apply ClearCell_acyclic.
  - intros s o s' [_ Hacyclic]. unfold bind, read.
    destruct (Sheet_GetCell s pos) as [[c|]|e]; try by intros [= <- <-].
    destruct (Cell_GetValue fuel c s) as [o1 s1] eqn:Hrun.
    assert (acyclic s1).
    { apply (Hcaches s); [|done].
      by eapply (GetValue_caches_only fuel c s); [apply same_but_caches_refl|]. }
    destruct o1; by intros [= <- <-].
  - intros s o s' [_ Hacyclic]. unfold bind, read.
    destruct (Sheet_GetCell s pos) as [?|?]; by intros [= <- <-].
  - apply hoare_ret. by intros s [_ ?].
  - intros s o s' [_ Hacyclic] Hrun. apply (Hcaches s); [|done].
    by eapply (PrintValues_caches_only fuel s); [apply same_but_caches_refl|].
  - apply hoare_ret. by intros s [_ ?].
Qed.

Lemma reachable_acyclic s : reachable s -> acyclic s.
Proof.
  induction 1 as [|fuel op s o s' Hreach IH Hrun].
  - intros x Hx. apply tc_first_step in Hx as (z & (c & Hc & _) & _). by rewrite slot_new in Hc.
  - eapply (perform_acyclic fuel op s); [|done]. split; [by apply reachable_well_formed|done].
Qed.

Lemma refers_uses s a b : uses_match s -> refers s a b <-> uses s a b.
Proof.
  intros Hmatch. unfold refers, uses. split; intros (c & Hc & Hb); exists c; (split; [done|]);
    by apply (Hmatch a c Hc).
Qed.

Lemma tc_flip {A} (R R' : relation A) x y :
  (forall a b, R a b -> R' b a) -> tc R x y -> tc R' y x.
Proof.
  intros Hflip. induction 1 as [x y Hxy|x z y Hxz _ IH]; [by apply tc_once, Hflip|].
  apply tc_r with z; [done|by apply Hflip].
Qed.

(** X2: on every sheet built through the public operations the dependency
    graph has no cycle, whether read from the references of the formulas,
    from [using_cells_] or from [calculated_cells_]. *)
Theorem reachable_sheets_have_no_cycle s x :
  reachable s ->
  ~ tc (refers s) x x /\ ~ tc (uses s) x x /\ ~ tc (used_by s) x x.
Proof.
  intros Hreach. pose proof (reachable_acyclic s Hreach x) as Hx.
  destruct (reachable_well_formed s Hreach) as [Hsym Hmatch].
  assert (~ tc (uses s) x x) as Hu.
  { intros Hu. apply Hx. revert Hu. apply (tc_congruence (fun x => x)).
    intros a b. by apply refers_uses. }
  split; [done|]. split; [done|]. intros Hd. apply Hu.
  apply (tc_flip (used_by s)); [|done]. intros a b. apply Hsym.
Qed.

(** X3: [SetCell] throws [CircularDependencyException] only for a formula
    one of whose referenced positions is [pos] or reaches [pos] along the
    references of the sheet, and it never succeeds with such a formula. *)
Theorem SetCell_rejects_exactly_cycles fuel pos text s o s' :
  Sheet_SetCell fuel pos text s = (o, s') ->
  (o = Thrown CircularDependencyException ->
     exists rest ast q,
       text = String FORMULA_SIGN rest /\ ParseFormulaAST rest = Some ast /\
       q ∈ Formula_GetReferencedCells ast /\ rtc (refers s) q pos) /\
  (o = Returned tt ->
     forall rest ast q,
       text = String FORMULA_SIGN rest -> rest <> ""%string ->
       ParseFormulaAST rest = Some ast ->
       q ∈ Formula_GetReferencedCells ast -> ~ rtc (refers s) q pos).
Proof.
  destruct fuel as [|fuel]; simpl; [by intros [= <- <-]|].
  destruct (IsValid pos) eqn:Hv; [|by intros [= <- <-]].
  unfold bind at 1, update at 1. intros Hrun. revert Hrun.
  cut (hoare (eq (materialize pos s))
            (Cell_Set (Sheet_SetCell fuel) fuel pos text pos)
            (fun o _ =>
               (o = Thrown CircularDependencyException ->
                exists rest ast q,
                  text = String FORMULA_SIGN rest /\ ParseFormulaAST rest = Some ast /\
                  q ∈ Formula_GetReferencedCells ast /\ rtc (refers s) q pos) /\
               (o = Returned tt ->
                forall rest ast q,
                  text = String FORMULA_SIGN rest -> rest <> ""%string ->
                  ParseFormulaAST rest = Some ast ->
                  q ∈ Formula_GetReferencedCells ast -> ~ rtc (refers s) q pos))).
  { intros Hset Hrun. exact (Hset _ _ _ eq_refl Hrun). }
  unfold Cell_Set.
  apply (hoare_bind _ _ _ (fun impl s2 =>
           placeholders s s2 /\ candidate_of text = Returned impl)).
  { intros s1 o1 s2 <- Hrun.
    destruct (candidate_placeholders fuel text (materialize pos s) _ _ _
                (placeholders_refl _) Hrun) as [Hpl Hne].
    pose proof (candidate_outcome _ text _ _ _ I Hrun) as Hshape.
    destruct o1 as [impl|e].
    - split; [|by apply Hshape].
      eapply placeholders_trans; [by apply materialize_placeholders|done].
    - split; [|done]. intros [= ->]. by destruct Hne. }
  intros impl.
  apply (hoare_bind _ _ _ (fun cyclic s2 =>
           placeholders s s2 /\ candidate_of text = Returned impl /\
           Cell_CheckCircularDependencies fuel impl pos s2 = Returned cyclic)).
  { apply hoare_read. intros s2 [Hpl Hshape].
    pose proof (CheckCircularDependencies_throws fuel impl pos s2) as Hne.
    destruct (Cell_CheckCircularDependencies fuel impl pos s2); [done|].
    split; [|done]. intros [= ->]. by destruct Hne. }
  intros [|].
  - apply hoare_throw. intros s2 (Hpl & Hshape & Hcheck). split; [intros _|done].
    apply CheckCircularDependencies_true in Hcheck as (q & Hq & Hpath).
    destruct (candidate_of_refs text impl q Hshape Hq) as (rest & ast & -> & _ & Hparse & ->).
    exists rest, ast, q. do 3 (split; [done|]). by apply (rtc_refers_placeholders s s2).
  - intros s2 o1 s3 (Hpl & Hshape & Hcheck) Hrun. split.
    + intros ->. exfalso.
      by eapply (commit_never_cycle _ fuel pos impl (SetCell_empty_never_cycle fuel) s2).
    + intros _ rest ast q -> Hrest Hparse Hq Hpath.
      rewrite (candidate_of_formula rest ast Hrest Hparse) in Hshape. injection Hshape as <-.
      apply (Check_false_unreachable fuel _ pos s2 q Hcheck Hq).
      by apply (rtc_refers_placeholders s s2).
Qed.

(** ** The recursion bound is never the reason an assignment fails

    The searches of [Cell::Set] end: the cycle check visits every cell at
    most once, and the invalidation pass follows a graph without cycles. *)

(** The positions that hold a cell. *)
Definition occupied (s : Sheet) : list Position :=
  mjoin (imap (fun r rw =>
                 omap id (imap (fun c (o : option Cell) =>
                                  (fun _ => mkPosition (Z.of_nat r) (Z.of_nat c)) <$> o) rw))
              (cells_ s)).

Lemma occupied_allocated s q : allocated q s -> q ∈ occupied s.
Proof.
  unfold allocated, slot, occupied. destruct q as [r c]; simpl.
  destruct ((0 <=? r) && (0 <=? c)) eqn:Hnonneg; [|done].
  apply andb_true_iff in Hnonneg as [Hr Hc]. apply Z.leb_le in Hr, Hc.
  destruct (cells_ s !! Z.to_nat r) as [rw|] eqn:Hrw; [|done].
  destruct (rw !! Z.to_nat c) as [[cell|]|] eqn:Hcell; [|done..]. intros _.
  apply list_elem_of_join. eexists. split; [|apply elem_of_lookup_imap; eauto].
  apply list_elem_of_omap. exists (Some (mkPosition r c)). split; [|done].
  apply elem_of_lookup_imap. exists (Z.to_nat c), (Some cell). split; [|done].
  simpl. by rewrite !Z2Nat.id.
Qed.

Lemma HasCircularDependency_enough (s : Sheet) (pos_const : Position) (U : gset CellPtr) :
  well_formed s -> (forall q, allocated q s -> Some q ∈ U) ->
  forall fuel x visitedPos,
    allocated x s -> (size (U ∖ visitedPos) < fuel)%nat ->
    exists b v, Cell_HasCircularDependency fuel s pos_const (Some x) visitedPos
                  = Returned (b, v) /\ visitedPos ⊆ v.
Proof.
  intros Hwf Hcover. induction fuel as [|fuel IH]; intros x visitedPos Hx Hsize; [lia|].
  simpl. unfold allocated in Hx. destruct (slot s x) as [c|] eqn:Hc; [|done].
  pose proof (well_formed_refs s x c Hwf Hc) as Hrefs.
  unfold refs_allocated in Hrefs. unfold Cell_GetReferencedCells.
  revert visitedPos Hsize Hrefs. generalize (Impl_GetReferencedCells (impl_ c)).
  clear Hx Hc c. induction l as [|d l IHl]; intros visitedPos Hsize Hrefs; simpl.
  { by exists false, visitedPos. }
  destruct (Hrefs d) as [Hv Hd]; [set_solver|].
  assert (forall q, q ∈ l -> IsValid q = true /\ allocated q s) as Hl
    by (intros q Hq; apply Hrefs; set_solver).
  rewrite (GetConcreteCell_allocated s d Hv Hd). cbv beta iota.
  case_bool_decide; [by exists true, visitedPos|].
  case_bool_decide as Hseen; [by apply IHl|].
  destruct (IH d ({[(Some d : CellPtr)]} ∪ visitedPos) Hd) as (b & v & Hr & Hsub).
  { assert (U ∖ ({[(Some d : CellPtr)]} ∪ visitedPos) ⊂ U ∖ visitedPos) as Hless.
    { split; [set_solver|]. intros Hsub. specialize (Hsub (Some d)).
      specialize (Hcover d Hd). set_solver. }
    apply subset_size in Hless. lia. }
  rewrite Hr. destruct b; [exists true, v; split; [done|set_solver]|].
  destruct (IHl v) as (b & v' & Hloop & Hsub'); [|done|].
  { assert (U ∖ v ⊆ U ∖ visitedPos) as Hle by set_solver.
    apply subseteq_size in Hle. lia. }
  exists b, v'. split; [done|set_solver].
Qed.

Lemma CheckCircularDependencies_enough (s : Sheet) (pos : Position) (U : gset CellPtr)
    (fuel : nat) (impl : Impl) :
  well_formed s -> (forall q, allocated q s -> Some q ∈ U) ->
  refs_allocated impl s -> (size U < fuel)%nat ->
  exists b, Cell_CheckCircularDependencies fuel impl pos s = Returned b.
Proof.
  intros Hwf Hcover Hrefs Hsize. unfold Cell_CheckCircularDependencies.
  unfold refs_allocated in Hrefs. generalize (∅ : gset CellPtr). revert Hrefs.
  induction (Impl_GetReferencedCells impl) as [|d l IHl]; intros Hrefs visitedPos; simpl.
  { by exists false. }
  destruct (Hrefs d) as [Hv Hd]; [set_solver|].
  assert (forall q, q ∈ l -> IsValid q = true /\ allocated q s) as Hl
    by (intros q Hq; apply Hrefs; set_solver).
  case_bool_decide; [by exists true|].
  rewrite (GetConcreteCell_allocated s d Hv Hd). cbv beta iota.
  destruct (HasCircularDependency_enough s pos U Hwf Hcover fuel d
              ({[(Some d : CellPtr)]} ∪ visitedPos) Hd) as (b & v & Hr & _).
  { assert (U ∖ ({[(Some d : CellPtr)]} ∪ visitedPos) ⊆ U) as Hle by set_solver.
    apply subseteq_size in Hle. lia. }
  rewrite Hr. destruct b; [by exists true|]. by apply IHl.
Qed.

Lemma bound_for_all {A} (P : A -> nat -> Prop) (l : list A) :
  (forall x, x ∈ l -> exists N, forall n, (N <= n)%nat -> P x n) ->
  exists N, forall x, x ∈ l -> forall n, (N <= n)%nat -> P x n.
Proof.
  induction l as [|x l IH]; intros Hl.
  { exists O. intros x Hx. by apply elem_of_nil in Hx. }
  destruct IH as [N HN]; [intros y Hy; apply Hl; set_solver|].
  destruct (Hl x) as [M HM]; [set_solver|].
  exists (N `max` M)%nat. intros y Hy n Hn.
  apply elem_of_cons in Hy as [->|Hy]; [apply HM|apply HN]; (done || lia).
Qed.

(** The invalidation pass from a cell below which the used-by edges end. *)
Lemma ResetCache_enough s0 self :
  symmetric s0 -> allocated self s0 -> sn (used_by s0) self ->
  exists N, forall fuel, (N <= fuel)%nat ->
    forall s force, same_but_caches s0 s ->
      exists s', Cell_ResetCache fuel self force s = (Returned tt, s').
Proof.
  intros Hsym Hself Hsn. revert Hself.
  induction Hsn as [self _ IH]. intros Hself.
  unfold allocated in Hself. destruct (slot s0 self) as [c0|] eqn:Hc0; [clear Hself|done].
  destruct (bound_for_all
              (fun d n => forall s force, same_but_caches s0 s ->
                 exists s', Cell_ResetCache n d force s = (Returned tt, s'))
              (elements (calculated_cells_ c0))) as [N HN].
  { intros d Hd. apply elem_of_elements in Hd.
    assert (used_by s0 self d) as Hu by (by exists c0).
    apply IH; [done|]. apply Hsym in Hu as (cd & Hcd & _). unfold allocated. congruence. }
  exists (S N). intros [|fuel] Hfuel s force Hsame; [lia|]. simpl.
  unfold bind at 1, read at 1. simpl.
  pose proof (Hsame self) as Hslot. rewrite Hc0 in Hslot.
  destruct (slot s self) as [c|] eqn:Hc; [|done].
  injection Hslot as _ Hcalc _ _.
  destruct (_ || _); [|by eexists].
  unfold bind at 1, modify_cell at 1. rewrite Hc, Hcalc.
  set (s1 := store self (Some (reset_cache c)) s).
  assert (same_but_caches s0 s1) as Hsame1.
  { apply same_but_caches_store; [apply reset_cache_idemp|done|done]. }
  clearbody s1. clear Hc Hcalc Hsame c s.
  assert (forall d, d ∈ elements (calculated_cells_ c0) ->
            forall s, same_but_caches s0 s ->
              exists s', Cell_ResetCache fuel d false s = (Returned tt, s')) as Hdeps.
  { intros d Hd s Hs. apply (HN d Hd fuel); [lia|done]. }
  clear HN. revert s1 Hsame1 Hdeps.
  induction (elements (calculated_cells_ c0)) as [|d l IHl]; intros s1 Hsame1 Hdeps; simpl.
  { by eexists. }
  destruct (Hdeps d ltac:(set_solver) s1 Hsame1) as [s2 Hd].
  unfold bind. rewrite Hd. apply IHl.
  - by eapply (ResetCache_caches_only fuel d false s0 s1).
  - intros d' Hd'. apply Hdeps. set_solver.
Qed.

Lemma tc_last_step {A} (R : relation A) x y : tc R x y -> exists z, R z y.
Proof. induction 1 as [x y Hxy|x z y _ _ IH]; [by exists x|done]. Qed.

(** On a well-formed sheet without cycles the used-by edges below every
    cell end. *)
Lemma used_by_sn s x : well_formed s -> acyclic s -> sn (used_by s) x.
Proof.
  intros [Hsym Hmatch] Hacyclic. apply tc_finite_sn.
  - intros y Hy. apply (Hacyclic y).
    assert (tc (uses s) y y) as Hu.
    { apply (tc_flip (used_by s)); [|done]. intros a b. apply Hsym. }
    revert Hu. apply (tc_congruence (fun x => x)). intros a b. by apply refers_uses.
  - exists (occupied s). intros y Hy. apply tc_last_step in Hy as (z & Hzy).
    apply occupied_allocated. apply Hsym in Hzy as (cy & Hcy & _). unfold allocated. congruence.
Qed.

(** *** Fresh cells *)

Lemma ResetCache_fresh_returns fuel p s0 :
  hoare (fresh_at p s0) (Cell_ResetCache (S fuel) p true)
        (fun o s => fresh_at p s0 s /\ o = Returned tt).
Proof.
  intros s o s' [Hother Hp]. simpl. unfold bind, read, modify_cell. simpl. rewrite Hp. simpl.
  change (calculated_cells_ Cell_new) with (∅ : gset Position).
  rewrite elements_empty. simpl. rewrite Hp. unfold ret. intros [= <- <-]. split; [|done].
  by apply (fresh_at_store p s0 s).
Qed.

Lemma commit_fresh_returns SetCell fuel p s0 :
  hoare (fresh_at p s0) (Cell_Set_commit SetCell (S fuel) p EmptyImpl)
        (fun o s => fresh_at p s0 s /\ o = Returned tt).
Proof.
  unfold Cell_Set_commit.
  apply (hoare_bind _ _ _ (fun _ s => fresh_at p s0 s));
    [|intros _; apply ResetCache_fresh_returns].
  unfold Cell_Set_rewire.
  assert (forall (f : Cell -> Cell), f Cell_new = Cell_new ->
            hoare (fresh_at p s0) (modify_cell p f)
              (fun o s => match o with
                          | Returned _ => fresh_at p s0 s
                          | Thrown e => fresh_at p s0 s /\ @Thrown unit e = Returned tt
                          end)) as Hmod.
  { intros f Hf. apply hoare_modify_cell.
    - intros s c Hfr Hs. destruct Hfr as [? Hp].
      assert (c = Cell_new) as -> by congruence. rewrite Hf. by apply fresh_at_store.
    - intros s [_ Hp] Hs. congruence. }
  apply (hoare_bind _ _ _ (fun _ s => fresh_at p s0 s)); [by apply Hmod|]. intros _.
  apply (hoare_bind _ _ _ (fun c s => fresh_at p s0 s /\ c = Cell_new)).
  { apply hoare_deref.
    - intros s c [Hother Hp] Hs. split; [done|congruence].
    - intros s [Hother Hp] Hs. congruence. }
  intros c.
  apply (hoare_bind _ _ _ (fun _ s => fresh_at p s0 s)).
  { intros s o s' [Hf ->] Hrun. change (using_cells_ Cell_new) with (∅ : gset Position) in Hrun.
    rewrite elements_empty in Hrun. by injection Hrun as <- <-. }
  intros _. apply (hoare_bind _ _ _ (fun _ s => fresh_at p s0 s)); [by apply Hmod|].
  intros _. by apply hoare_ret.
Qed.

(** [SetCell(p, "")] on a free valid position returns and leaves a fresh
    cell there. *)
Lemma SetCell_empty_returns fuel p s :
  IsValid p = true -> slot s p = None ->
  exists s', Sheet_SetCell (S (S fuel)) p ""%string s = (Returned tt, s') /\ fresh_at p s s'.
Proof.
  intros Hv Hnone. cbn [Sheet_SetCell]. rewrite Hv.
  unfold bind at 1, update at 1. rewrite Cell_Set_empty.
  destruct (Cell_Set_commit _ (S fuel) p EmptyImpl (materialize p s)) as [o s'] eqn:Hrun.
  assert (fresh_at p s (materialize p s)) as Hfresh0.
  { destruct (materialize_spec p s Hv) as (Hother & Hp & _).
    split; [done|]. by rewrite Hp, Hnone. }
  destruct (commit_fresh_returns _ fuel p s _ o s' Hfresh0 Hrun) as [Hfresh ->].
  by exists s'.
Qed.

(** *** The candidate *)

Lemma SetCell_fuel_le n m pos text :
  (n <= m)%nat -> fuel_refines (Sheet_SetCell n pos text) (Sheet_SetCell m pos text).
Proof.
  induction 1 as [|m _ IH]; [apply fuel_refines_refl|].
  eapply fuel_refines_trans; [exact IH|apply SetCell_fuel].
Qed.

Lemma ResetCache_fuel_le n m self force :
  (n <= m)%nat -> fuel_refines (Cell_ResetCache n self force) (Cell_ResetCache m self force).
Proof.
  induction 1 as [|m _ IH]; [apply fuel_refines_refl|].
  eapply fuel_refines_trans; [exact IH|apply ResetCache_fuel].
Qed.

Lemma candidate_fuel SetCell SetCell' text :
  (forall p t, fuel_refines (SetCell p t) (SetCell' p t)) ->
  fuel_refines (Cell_Set_candidate SetCell text) (Cell_Set_candidate SetCell' text).
Proof.
  intros Hrec. unfold Cell_Set_candidate. destruct text as [|c rest]; [apply fuel_refines_refl|].
  destruct (_ && _); [|apply fuel_refines_refl].
  apply fuel_refines_bind; [apply fuel_refines_refl|]. intros formula.
  apply fuel_refines_bind; [|intros _; apply fuel_refines_refl].
  apply fuel_refines_for_each. intros q.
  destruct (IsValid q); [|apply fuel_refines_refl].
  apply fuel_refines_bind; [apply fuel_refines_refl|].
  intros [?|]; [apply fuel_refines_refl|apply Hrec].
Qed.

Lemma rewire_fuel SetCell SetCell' self impl :
  (forall p t, fuel_refines (SetCell p t) (SetCell' p t)) ->
  fuel_refines (Cell_Set_rewire SetCell self impl) (Cell_Set_rewire SetCell' self impl).
Proof.
  intros Hrec. unfold Cell_Set_rewire.
  apply fuel_refines_bind; [apply fuel_refines_refl|]. intros _.
  apply fuel_refines_bind; [apply fuel_refines_refl|]. intros c.
  apply fuel_refines_bind; [apply fuel_refines_refl|]. intros _.
  apply fuel_refines_bind; [apply fuel_refines_refl|]. intros _.
  apply fuel_refines_for_each. intros q. unfold Cell_Set_link.
  apply fuel_refines_bind; [apply fuel_refines_refl|]. intros found.
  apply fuel_refines_bind; [|intros used; apply fuel_refines_refl].
  destruct found; [apply fuel_refines_refl|].
  apply fuel_refines_bind; [apply Hrec|]. intros _. apply fuel_refines_refl.
Qed.

(** With a bound of 2 for the nested [SetCell] calls, building the
    candidate ends in the implementation of [candidate_of], or in the
    exception of the parser. *)
Lemma candidate_enough fuel text s0 :
  hoare (placeholders s0) (Cell_Set_candidate (Sheet_SetCell (S (S fuel))) text)
        (fun o s => placeholders s0 s /\
                    match candidate_of text with
                    | Returned i => o = Returned i
                    | Thrown e => o = Thrown e
                    end).
Proof.
  unfold Cell_Set_candidate, candidate_of. destruct text as [|c rest]; [by apply hoare_ret|].
  destruct (_ && _); [|by apply hoare_ret].
  apply (hoare_bind _ _ _ (fun formula s =>
           placeholders s0 s /\ ParseFormula rest = Returned formula)).
  { apply hoare_read. intros s Hs. by destruct (ParseFormula rest). }
  intros formula.
  apply (hoare_bind _ _ _ (fun _ s =>
           placeholders s0 s /\ ParseFormula rest = Returned formula)).
  2:{ intros _. apply hoare_ret. by intros s [? ->]. }
  apply (hoare_for_each (fun _ s =>
           placeholders s0 s /\ ParseFormula rest = Returned formula)); [|done].
  intros _ q _ _ s o s' [Hs Hparse]. rewrite Hparse.
  destruct (IsValid q) eqn:Hq; [|by intros [= <- <-]].
  unfold bind, read. rewrite (GetCell_slot _ _ Hq).
  destruct (slot s q) eqn:Hslot; [by intros [= <- <-]|].
  destruct (SetCell_empty_returns fuel q s Hq Hslot) as (s1 & -> & Hother & Hnew).
  intros [= <- <-]. split; [|done].
  eapply placeholders_trans; [done|]. intros x.
  destruct (decide (x = q)) as [->|Hx]; [right|left]; auto.
Qed.

Lemma candidate_of_throws text e : candidate_of text = Thrown e -> e = FormulaException.
Proof.
  destruct text as [|c rest]; simpl; [done|]. destruct (_ && _); [|done].
  unfold ParseFormula. destruct (ParseFormulaAST rest); [done|]. by intros [= <-].
Qed.

(** *** The rewiring and the invalidation pass *)

Lemma rewire_sound fuel0 self impl s :
  well_formed s -> acyclic s -> allocated self s -> refs_allocated impl s ->
  (forall q, q ∈ Impl_GetReferencedCells impl -> ~ rtc (refers s) q self) ->
  exists s1, Cell_Set_rewire (Sheet_SetCell fuel0) self impl s = (Returned tt, s1) /\
             well_formed s1 /\ acyclic s1 /\ allocated self s1.
Proof.
  intros Hwf Hacyclic Hself Hrefs Hfar.
  destruct (Cell_Set_rewire _ self impl s) as [o s1] eqn:Hrw.
  destruct (rewire_wiring fuel0 self impl s Hwf Hself Hrefs s _ s1 eq_refl Hrw) as [-> Hw].
  destruct (rewire_symmetric fuel0 self impl s (proj1 Hwf) s _ s1 eq_refl Hrw) as [Hsym _].
  exists s1. split; [done|]. split; [|split].
  - split; [done|]. eapply wiring_uses_match; [apply Hwf|done].
  - pose proof (fun a b => wiring_refers self impl _ s s1 a b Hw) as Hstep.
    exact (acyclic_redirect (refers s) (refers s1) self
             (fun q => q ∈ Impl_GetReferencedCells impl) Hstep Hacyclic Hfar).
  - destruct Hw as (Halloc & _). by apply Halloc.
Qed.

Lemma commit_enough self impl s :
  well_formed s -> acyclic s -> allocated self s -> refs_allocated impl s ->
  (forall q, q ∈ Impl_GetReferencedCells impl -> ~ rtc (refers s) q self) ->
  exists N, forall fuel0 fuel, (N <= fuel)%nat ->
    exists s', Cell_Set_commit (Sheet_SetCell fuel0) fuel self impl s = (Returned tt, s').
Proof.
  intros Hwf Hacyclic Hself Hrefs Hfar.
  destruct (rewire_sound 0 self impl s Hwf Hacyclic Hself Hrefs Hfar)
    as (s1 & Hrw & Hwf1 & Hacyclic1 & Hself1).
  destruct (ResetCache_enough s1 self (proj1 Hwf1) Hself1 (used_by_sn s1 self Hwf1 Hacyclic1))
    as [N HN].
  exists N. intros fuel0 fuel Hfuel. unfold Cell_Set_commit, bind.
  rewrite (rewire_fuel (Sheet_SetCell 0) (Sheet_SetCell fuel0) self impl
             (fun p t => SetCell_fuel_le 0 fuel0 p t (Nat.le_0_l fuel0)) s _ s1 Hrw) by done.
  apply (HN fuel Hfuel). apply same_but_caches_refl.
Qed.

(** What [SetCell] answers on a valid position, once the recursion bound
    is large enough. *)
Definition Set_answer (s : Sheet) (pos : Position) (text : string) (o : Outcome unit) : Prop :=
  match candidate_of text with
  | Thrown e => o = Thrown FormulaException
  | Returned impl =>
      (o = Thrown CircularDependencyException /\
       exists q, q ∈ Impl_GetReferencedCells impl /\ rtc (refers s) q pos) \/
      (o = Returned tt /\
       forall q, q ∈ Impl_GetReferencedCells impl -> ~ rtc (refers s) q pos)
  end.

Lemma Cell_Set_enough pos text s :
  well_formed s -> acyclic s -> allocated pos s ->
  exists N, forall fuel, (N <= fuel)%nat ->
    exists o s', Cell_Set (Sheet_SetCell fuel) fuel pos text pos s = (o, s') /\
                 Set_answer s pos text o.
Proof.
  intros Hwf Hacyclic Hself. unfold Set_answer.
  destruct (Cell_Set_candidate (Sheet_SetCell 2) text s) as [o2 s2] eqn:Hcand.
  destruct (candidate_enough 0 text s s o2 s2 (placeholders_refl s) Hcand) as [Hpl Ho2].
  destruct (candidate_allocates 2 text s s o2 s2 (placeholders_refl s) Hcand)
    as (_ & _ & Hrefs).
  assert (forall fuel, (2 <= fuel)%nat ->
            Cell_Set_candidate (Sheet_SetCell fuel) text s = (o2, s2)) as Hsame.
  { intros fuel Hfuel.
    apply (candidate_fuel (Sheet_SetCell 2) (Sheet_SetCell fuel) text
             (fun p t => SetCell_fuel_le 2 fuel p t Hfuel) s o2 s2 Hcand).
    destruct (candidate_of text) as [i|e] eqn:Hof; subst o2; [done|].
    apply candidate_of_throws in Hof as ->. done. }
  destruct (candidate_of text) as [impl|e] eqn:Hof; subst o2.
  2:{ apply candidate_of_throws in Hof as ->. exists 2%nat. intros fuel Hfuel.
      exists (Thrown FormulaException), s2. split; [|done].
      unfold Cell_Set, bind. by rewrite (Hsame fuel Hfuel). }
  specialize (Hrefs impl eq_refl).
  pose proof (well_formed_placeholders s s2 Hpl Hwf) as Hwf2.
  assert (acyclic s2) as Hacyclic2.
  { apply (acyclic_subgraph s); [|done]. intros a b. by apply (refers_placeholders s s2). }
  pose proof (allocated_placeholders pos s s2 Hpl Hself) as Hself2.
  set (U := list_to_set (Some <$> occupied s2) : gset CellPtr).
  assert (forall q, allocated q s2 -> Some q ∈ U) as Hcover.
  { intros q Hq. apply elem_of_list_to_set, list_elem_of_fmap. exists q.
    split; [done|by apply occupied_allocated]. }
  assert (forall fuel, (size U < fuel)%nat ->
            exists b, Cell_CheckCircularDependencies fuel impl pos s2 = Returned b /\
              (b = true <-> exists q, q ∈ Impl_GetReferencedCells impl /\
                                      rtc (refers s) q pos)) as Hcheck.
  { intros fuel Hfuel.
    destruct (CheckCircularDependencies_enough s2 pos U fuel impl Hwf2 Hcover Hrefs Hfuel)
      as [b Hb].
    exists b. split; [done|]. destruct b.
    - split; [intros _|done]. apply CheckCircularDependencies_true in Hb as (q & Hq & Hpath).
      exists q. split; [done|]. by apply (rtc_refers_placeholders s s2).
    - split; [done|]. intros (q & Hq & Hpath). exfalso.
      apply (Check_false_unreachable _ _ _ _ q Hb Hq). by apply (rtc_refers_placeholders s s2). }
  destruct (Hcheck (S (size U)) ltac:(lia)) as ([|] & _ & Hpath0).
  - destruct Hpath0 as [Hpath0 _]. specialize (Hpath0 eq_refl).
    exists (2 `max` S (size U))%nat. intros fuel Hfuel.
    destruct (Hcheck fuel ltac:(lia)) as (b & Hb & Hpath). destruct Hpath as [_ Hpath].
    rewrite (Hpath Hpath0) in Hb.
    exists (Thrown CircularDependencyException), s2. split; [|by left].
    unfold Cell_Set, bind, read. rewrite (Hsame fuel ltac:(lia)). by rewrite Hb.
  - assert (forall q, q ∈ Impl_GetReferencedCells impl -> ~ rtc (refers s) q pos) as Hfar.
    { intros q Hq Hpath. destruct Hpath0 as [_ Hpath0]. by discriminate Hpath0; exists q. }
    destruct (commit_enough pos impl s2 Hwf2 Hacyclic2 Hself2 Hrefs) as [Nc HNc].
    { intros q Hq Hpath. apply (Hfar q Hq). by apply (rtc_refers_placeholders s s2). }
    exists ((2 `max` S (size U)) `max` Nc)%nat. intros fuel Hfuel.
    destruct (Hcheck fuel ltac:(lia)) as (b & Hb & Hpath).
    destruct b.
    { destruct Hpath as [Hpath _]. destruct (Hpath eq_refl) as (q & Hq & Hq').
      by destruct (Hfar q Hq). }
    destruct (HNc fuel fuel ltac:(lia)) as [s' Hcommit].
    exists (Returned tt), s'. split; [|by right].
    unfold Cell_Set, bind, read. rewrite (Hsame fuel ltac:(lia)). by rewrite Hb.
Qed.

(** X4: on a sheet built through the public operations [SetCell] ends once
    the recursion bound is large enough, and its outcome is decided by the
    position, the parser and the reference graph: an invalid position gives
    [InvalidPositionException]; a formula the parser rejects gives
    [FormulaException]; a candidate one of whose references is [pos] or
    reaches [pos] gives [CircularDependencyException]; every other call
    returns. *)
Theorem SetCell_ends_with_decided_outcome s pos text :
  reachable s ->
  exists N, forall fuel, (N <= fuel)%nat ->
    exists o s', Sheet_SetCell fuel pos text s = (o, s') /\
      if IsValid pos then Set_answer s pos text o
      else o = Thrown InvalidPositionException.
Proof.
  intros Hreach. destruct (IsValid pos) eqn:Hv.
  2:{ exists 1%nat. intros [|fuel] Hfuel; [lia|]. simpl. rewrite Hv. by eexists _, _. }
  pose proof (reachable_well_formed s Hreach) as Hwf.
  pose proof (reachable_acyclic s Hreach) as Hacyclic.
  pose proof (materialize_placeholders pos s Hv) as Hpl.
  destruct (Cell_Set_enough pos text (materialize pos s)) as [N HN].
  - by eapply well_formed_placeholders.
  - apply (acyclic_subgraph s); [|done]. intros a b.
    by apply (refers_placeholders s (materialize pos s)).
  - destruct (materialize_spec pos s Hv) as (_ & Hpos & _). unfold allocated. by rewrite Hpos.
  - exists (S N). intros [|fuel] Hfuel; [lia|]. simpl. rewrite Hv.
    destruct (HN fuel ltac:(lia)) as (o & s' & Hrun & Hanswer).
    exists o, s'. split; [unfold bind at 1, update at 1; by rewrite Hrun|].
    revert Hanswer. unfold Set_answer. destruct (candidate_of text) as [impl|e]; [|done].
    intros [[-> (q & Hq & Hpath)]|[-> Hfar]]; [left|right]; (split; [done|]).
    + exists q. split; [done|]. by apply (rtc_refers_placeholders s (materialize pos s)).
    + intros q Hq Hpath. apply (Hfar q Hq).
      by apply (rtc_refers_placeholders s (materialize pos s)).
Qed.

(** ** What an assignment stores *)

Lemma GetText_ResetCache i : Impl_GetText (Impl_ResetCache i) = Impl_GetText i.
Proof. by destruct i. Qed.

Lemma GetText_caches c c' : reset_cache c' = reset_cache c -> Cell_GetText c' = Cell_GetText c.
Proof.
  intros [= Himpl _ _ _]. unfold Cell_GetText.
  by rewrite <- (GetText_ResetCache (impl_ c')), Himpl, GetText_ResetCache.
Qed.

(** The sheet that lines 53-79 of [Cell::Set] leave, whatever the outcome
    of the invalidation pass: the cell at [self] holds the candidate and
    uses what it references; no other cell changed its text or what it uses;
    no cell appeared or disappeared. *)
Definition committed (self : Position) (impl : Impl) (s s' : Sheet) : Prop :=
  (exists c', slot s' self = Some c' /\
              Impl_ResetCache (impl_ c') = Impl_ResetCache impl /\
              forall q, q ∈ using_cells_ c' <-> q ∈ Impl_GetReferencedCells impl) /\
  (forall a c', a <> self -> slot s' a = Some c' ->
     exists c, slot s a = Some c /\ using_cells_ c' = using_cells_ c /\
               Impl_ResetCache (impl_ c') = Impl_ResetCache (impl_ c)) /\
  (forall a, allocated a s <-> allocated a s').

Lemma commit_committed fuel0 fuel self impl s o s' :
  well_formed s -> allocated self s -> refs_allocated impl s ->
  Cell_Set_commit (Sheet_SetCell fuel0) fuel self impl s = (o, s') ->
  committed self impl s s'.
Proof.
  intros Hwf Hself Hrefs Hrun. unfold Cell_Set_commit, bind in Hrun.
  destruct (Cell_Set_rewire _ self impl s) as [o1 s1] eqn:Hrw.
  destruct (rewire_wiring fuel0 self impl s Hwf Hself Hrefs s _ s1 eq_refl Hrw)
    as [-> (Halloc & Hothers & (cs & Hcs & Hi & HU))].
  assert (same_but_caches s1 s') as Hsame.
  { by eapply (ResetCache_caches_only fuel self true s1); [apply same_but_caches_refl|]. }
  assert (forall a c', slot s' a = Some c' ->
            exists c1, slot s1 a = Some c1 /\ reset_cache c' = reset_cache c1) as Hback.
  { intros a c' Hc'. specialize (Hsame a). rewrite Hc' in Hsame.
    destruct (slot s1 a) as [c1|]; [|done]. exists c1. split; [done|].
    simpl in Hsame. congruence. }
  split; [|split].
  - specialize (Hsame self). rewrite Hcs in Hsame.
    destruct (slot s' self) as [c'|]; [|done]. exists c'. split; [done|].
    injection Hsame as Himpl _ Hu _. rewrite Himpl, Hu, Hi. done.
  - intros a c' Ha Hc'. destruct (Hback a c' Hc') as (c1 & Hc1 & [= Himpl _ Hu _]).
    destruct (Hothers a c1 Ha Hc1) as (c & Hc & Hu1 & Himpl1).
    exists c. split; [done|]. split; [congruence|]. by rewrite Himpl, Himpl1.
  - intros a. split.
    + intros Ha. apply (allocated_caches a s1); [done|]. by apply Halloc.
    + intros Ha. unfold allocated in Ha. destruct (slot s' a) as [c'|] eqn:Hc'; [|done].
      destruct (Hback a c' Hc') as (c1 & Hc1 & _).
      destruct (decide (a = self)) as [->|Hne]; [done|].
      destruct (Hothers a c1 Hne Hc1) as (c & Hc & _). unfold allocated. congruence.
Qed.

(** The steps of a [SetCell] that returned. *)
Lemma SetCell_Returned_parts fuel pos text s s' :
  Sheet_SetCell fuel pos text s = (Returned tt, s') ->
  exists fuel' impl s2,
    IsValid pos = true /\ placeholders s s2 /\ allocated pos s2 /\
    candidate_of text = Returned impl /\ refs_allocated impl s2 /\
    Cell_CheckCircularDependencies fuel' impl pos s2 = Returned false /\
    Cell_Set_commit (Sheet_SetCell fuel') fuel' pos impl s2 = (Returned tt, s').
Proof.
  destruct fuel as [|fuel]; simpl; [done|].
  destruct (IsValid pos) eqn:Hv; [|done].
  unfold bind at 1, update at 1. unfold Cell_Set.
  intros Hrun. apply bind_Returned in Hrun as (impl & s2 & Hcand & Hrun).
  apply bind_Returned in Hrun as ([|] & s3 & Hcheck & Hrun); [done|].
  unfold read in Hcheck. injection Hcheck as Hcheck <-.
  pose proof (materialize_placeholders pos s Hv) as Hpl1.
  destruct (candidate_allocates fuel text _ _ _ _ (placeholders_refl _) Hcand)
    as (Hpl & _ & Hrefs).
  exists fuel, impl, s2. split; [done|]. split; [by eapply placeholders_trans|].
  split; [|split; [|split; [auto|done]]].
  - apply (allocated_placeholders pos (materialize pos s)); [done|].
    destruct (materialize_spec pos s Hv) as (_ & Hpos & _). unfold allocated. by rewrite Hpos.
  - by apply (candidate_outcome _ text _ _ _ I Hcand).
Qed.

Lemma candidate_of_plain impl text : candidate_of text = Returned impl ->
  Impl_ResetCache impl = impl.
Proof.
  destruct text as [|c rest]; simpl; [by intros [= <-]|].
  destruct (_ && _); [|by intros [= <-]].
  destruct (ParseFormula rest); [|done]. by intros [= <-].
Qed.

Lemma ResetCache_uncached i i' :
  Impl_ResetCache i' = Impl_ResetCache i -> Impl_ResetCache i = i ->
  (forall v f, i' <> FormulaImpl (Some v) f) -> i' = i.
Proof.
  intros Heq Hi Hnone. rewrite Hi in Heq. rewrite <- Heq.
  destruct i' as [| |[v|] f]; try done. by destruct (Hnone v f).
Qed.

(** X5: after a [SetCell(pos, text)] that returned, on a sheet built through
    the public operations, the cell at [pos] holds the implementation that
    [Cell::Set] builds from [text], without a cached value, so that
    [GetText] answers [text] itself, or for a formula the sign [=] followed
    by the printed expression; its [using_cells_] are the referenced positions,
    each of which holds a cell that lists [pos] in its [calculated_cells_]. *)
Theorem SetCell_stores_candidate fuel pos text s s' :
  reachable s ->
  Sheet_SetCell fuel pos text s = (Returned tt, s') ->
  exists impl c',
    candidate_of text = Returned impl /\
    slot s' pos = Some c' /\ impl_ c' = impl /\
    Cell_GetText c' = Impl_GetText impl /\
    (forall q, q ∈ using_cells_ c' <-> q ∈ Impl_GetReferencedCells impl) /\
    (forall q, q ∈ Impl_GetReferencedCells impl ->
       Sheet_GetCell s' q = Returned (Some q) /\ used_by s' q pos).
Proof.
  intros Hreach Hrun. pose proof (reachable_well_formed s Hreach) as Hwf.
  assert (symmetric s') as Hsym'.
  { by eapply (symmetric_SetCell fuel pos text s); [apply Hwf|]. }
  destruct (SetCell_Returned_parts _ _ _ _ _ Hrun)
    as (fuel' & impl & s2 & Hv & Hpl & Hself & Hof & Hrefs & _ & Hcommit).
  pose proof (well_formed_placeholders s s2 Hpl Hwf) as Hwf2.
  destruct (commit_committed _ _ _ _ _ _ _ Hwf2 Hself Hrefs Hcommit)
    as ((c' & Hc' & Himpl & Hu) & _ & _).
  assert (impl_ c' = impl) as Hexact.
  { apply ResetCache_uncached; [done|by eapply candidate_of_plain|].
    intros v f Hcached. unfold Cell_Set_commit in Hcommit.
    apply bind_Returned in Hcommit as ([] & s3 & _ & Hreset).
    destruct (ResetCache_invalidates _ _ _ _ _ Hreset) as (_ & Hnone & _).
    unfold cache_of in Hnone. by rewrite Hc', Hcached in Hnone. }
  exists impl, c'. do 3 (split; [done|]). split; [unfold Cell_GetText; by rewrite Hexact|].
  split; [done|]. intros q Hq.
  assert (used_by s' q pos) as Hused.
  { apply Hsym'. exists c'. split; [done|]. by apply Hu. }
  split; [|done]. destruct Hused as (cq & Hcq & _).
  rewrite GetCell_slot by by eapply refs_valid. by rewrite Hcq.
Qed.

Lemma candidate_of_text text :
  text <> ""%string -> (forall rest, text = String FORMULA_SIGN rest -> rest = ""%string) ->
  candidate_of text = Returned (TextImpl text).
Proof.
  intros Hne Hplain. destruct text as [|c rest]; [done|]. simpl.
  destruct (_ <=? _) eqn:Hlen; [|done]. simpl. case_bool_decide as Hc; [|done].
  subst c. rewrite (Hplain rest eq_refl) in Hlen. done.
Qed.

(** The value a text cell shows: the text without a leading escape sign. *)
Definition shown (text : string) : string :=
  match text with
  | String c rest => if bool_decide (c = ESCAPE_SIGN) then rest else text
  | EmptyString => ""
  end.

(** X6: a text that is not a formula, once stored by a [SetCell] that
    returned, is what [GetText] answers, and [GetValue] answers it without a
    leading escape sign and leaves the sheet as it is. *)
Theorem SetCell_text_round_trip fuel pos text s s' n :
  reachable s ->
  text <> ""%string ->
  (forall rest, text = String FORMULA_SIGN rest -> rest = ""%string) ->
  Sheet_SetCell fuel pos text s = (Returned tt, s') ->
  (exists c', slot s' pos = Some c' /\ Cell_GetText c' = text) /\
  Sheet_GetCell_const s' pos = Returned (Some pos) /\
  Cell_GetValue (S n) pos s' = (Returned (VString (shown text)), s').
Proof.
  intros Hreach Hne Hplain Hrun. pose proof (reachable_well_formed s Hreach) as Hwf.
  destruct (SetCell_Returned_parts _ _ _ _ _ Hrun)
    as (fuel' & impl & s2 & Hv & Hpl & Hself & Hof & Hrefs & _ & Hcommit).
  rewrite (candidate_of_text text Hne Hplain) in Hof. injection Hof as <-.
  pose proof (well_formed_placeholders s s2 Hpl Hwf) as Hwf2.
  destruct (commit_committed _ _ _ _ _ _ _ Hwf2 Hself Hrefs Hcommit)
    as ((c' & Hc' & Himpl & _) & _ & _).
  assert (impl_ c' = TextImpl text) as Hexact.
  { simpl in Himpl. by destruct (impl_ c') as [| |? ?]. }
  assert (Cell_GetText c' = text) as Htext by (unfold Cell_GetText; by rewrite Hexact).
  split; [by exists c'|]. split.
  - rewrite GetCell_const_slot by done. rewrite Hc', Htext. by rewrite bool_decide_eq_false_2.
  - simpl. unfold bind, read. simpl. rewrite Hc', Hexact.
    destruct text as [|c rest]; [done|]. simpl. by case_bool_decide.
Qed.

(** ** Clearing a cell *)

Lemma committed_calculated self impl s s' c c' :
  symmetric s -> symmetric s' -> ~ uses s self self ->
  committed self impl s s' ->
  slot s self = Some c -> slot s' self = Some c' ->
  self ∉ Impl_GetReferencedCells impl ->
  calculated_cells_ c' = calculated_cells_ c.
Proof.
  intros Hsym Hsym' Hloop ((c1 & Hc1 & _ & Hu) & Hothers & Halloc) Hc Hc' Hself.
  assert (c1 = c') as -> by congruence.
  apply set_eq. intros a. split.
  - intros Ha. assert (used_by s' self a) as Hused by (by exists c').
    apply Hsym' in Hused as (ca' & Hca' & Hin).
    destruct (decide (a = self)) as [->|Hne].
    { exfalso. assert (ca' = c') as -> by congruence. by apply Hself, Hu. }
    destruct (Hothers a ca' Hne Hca') as (ca & Hca & Husing & _).
    assert (uses s a self) as Huses by (exists ca; split; [done|congruence]).
    apply Hsym in Huses as (c0 & Hc0 & Hin0). congruence.
  - intros Ha. assert (used_by s self a) as Hused by (by exists c).
    apply Hsym in Hused as (ca & Hca & Hin).
    destruct (decide (a = self)) as [->|Hne].
    { exfalso. apply Hloop. by exists ca. }
    assert (allocated a s') as Ha' by (apply Halloc; unfold allocated; congruence).
    unfold allocated in Ha'. destruct (slot s' a) as [ca'|] eqn:Hca'; [|done].
    destruct (Hothers a ca' Hne Hca') as (ca0 & Hca0 & Hu0 & _).
    assert (uses s' a self) as Huses by (exists ca'; split; [done|congruence]).
    apply Hsym' in Huses as (c0 & Hc0 & Hin0). congruence.
Qed.

(** X7: on a sheet built through the public operations [ClearCell] ends
    once the recursion bound is large enough.  On an invalid position it
    throws [InvalidPositionException]; where there is no cell it does
    nothing; a cell that no other cell uses is released; a cell that is used
    stays, empty, using nothing, and still listing the cells that use it. *)
Theorem ClearCell_releases_or_empties s pos :
  reachable s ->
  exists N, forall fuel, (N <= fuel)%nat ->
    exists o s', Sheet_ClearCell fuel pos s = (o, s') /\
      if IsValid pos then
        o = Returned tt /\
        match slot s pos with
        | None => s' = s
        | Some c =>
            if bool_decide (calculated_cells_ c = ∅) then slot s' pos = None
            else exists c', slot s' pos = Some c' /\ impl_ c' = EmptyImpl /\
                            using_cells_ c' = ∅ /\
                            calculated_cells_ c' = calculated_cells_ c
        end
      else o = Thrown InvalidPositionException /\ s' = s.
Proof.
  intros Hreach. unfold Sheet_ClearCell. destruct (IsValid pos) eqn:Hv.
  2:{ exists O. intros fuel _. by eexists _, _. }
  destruct (slot s pos) as [c|] eqn:Hc.
  2:{ exists O. intros fuel _. exists (Returned tt), s. split; [|done].
      unfold bind, read. rewrite Hc. rewrite bool_decide_eq_false_2 by (by intros []).
      by rewrite andb_false_r. }
  pose proof (reachable_well_formed s Hreach) as Hwf.
  pose proof (reachable_acyclic s Hreach) as Hacyclic.
  assert (allocated pos s) as Hself by (unfold allocated; congruence).
  assert (refs_allocated EmptyImpl s) as Hrefs by (intros q Hq; by apply elem_of_nil in Hq).
  destruct (commit_enough pos EmptyImpl s Hwf Hacyclic Hself Hrefs) as [N HN].
  { intros q Hq. by apply elem_of_nil in Hq. }
  exists N. intros fuel Hfuel. destruct (HN fuel fuel Hfuel) as [s1 Hcommit].
  pose proof (commit_committed _ _ _ _ _ _ _ Hwf Hself Hrefs Hcommit) as Hcommitted.
  pose proof (symmetric_commit fuel fuel pos EmptyImpl s _ s1 (proj1 Hwf) Hcommit) as Hsym1.
  pose proof Hcommitted as ((c1 & Hc1 & Himpl & Hu) & _).
  assert (calculated_cells_ c1 = calculated_cells_ c) as Hcalc.
  { apply (committed_calculated pos EmptyImpl s s1); try done; [apply Hwf| |set_solver].
    intros Hloop. apply (Hacyclic pos), tc_once. by apply refers_uses; [apply Hwf|]. }
  assert (impl_ c1 = EmptyImpl) as Hempty by (simpl in Himpl; by destruct (impl_ c1) as [| |? ?]).
  assert (using_cells_ c1 = ∅) as Hnone by (apply set_eq; intros q; rewrite Hu; set_solver).
  unfold bind at 1, read at 1. rewrite (slot_in_extent _ _ _ Hc), Hc.
  rewrite bool_decide_eq_true_2 by done. simpl.
  unfold bind at 1. unfold Cell_Clear, bind at 1, read at 1. simpl. rewrite Hc, Cell_Set_empty.
  rewrite Hcommit. unfold bind, read. simpl. rewrite Hc1.
  unfold Cell_IsReferenced. rewrite negb_involutive, Hcalc.
  case_bool_decide as Hfree.
  - exists (Returned tt), (store pos None s1). split; [done|]. split; [done|].
    by rewrite (slot_store_occupied _ _ _ _ _ Hc1), decide_True.
  - exists (Returned tt), s1. split; [done|]. split; [done|]. by exists c1.
Qed.

(** ** What an operation leaves alone *)

(** The cell at [q] keeps its text and what it uses; where there was no
    cell, at most an empty one that uses nothing appeared. *)
Definition untouched (q : Position) (s s' : Sheet) : Prop :=
  match slot s q with
  | Some c => exists c', slot s' q = Some c' /\ Cell_GetText c' = Cell_GetText c /\
                         using_cells_ c' = using_cells_ c
  | None => forall c', slot s' q = Some c' ->
                       Cell_GetText c' = ""%string /\ using_cells_ c' = ∅
  end.

Lemma untouched_refl q s : untouched q s s.
Proof. unfold untouched. destruct (slot s q) as [c|] eqn:Hc; [by exists c|congruence]. Qed.

Lemma untouched_trans q s1 s2 s3 : untouched q s1 s2 -> untouched q s2 s3 -> untouched q s1 s3.
Proof.
  unfold untouched. destruct (slot s1 q) as [c1|].
  - intros (c2 & -> & Ht & Hu) (c3 & Hc3 & Ht' & Hu'). exists c3. split; [done|]. split; congruence.
  - intros H12 H23. destruct (slot s2 q) as [c2|].
    + destruct (H12 c2 eq_refl) as [Ht Hu]. destruct H23 as (c3 & Hc3 & Ht' & Hu').
      intros c' Hc'. assert (c' = c3) as -> by congruence. split; congruence.
    + done.
Qed.

Lemma untouched_placeholders q s s' : placeholders s s' -> untouched q s s'.
Proof.
  intros Hpl. unfold untouched. destruct (Hpl q) as [Heq|[Hnone Hnew]].
  - rewrite Heq. destruct (slot s q) as [c|]; [by exists c|done].
  - rewrite Hnone, Hnew. by intros c' [= <-].
Qed.

Lemma untouched_caches q s s' : same_but_caches s s' -> untouched q s s'.
Proof.
  intros Hsame. unfold untouched. specialize (Hsame q).
  destruct (slot s q) as [c|], (slot s' q) as [c'|]; try done.
  exists c'. split; [done|]. simpl in Hsame. injection Hsame as Himpl _ Hu _.
  split; [|done]. unfold Cell_GetText.
  by rewrite <- (GetText_ResetCache (impl_ c')), Himpl, GetText_ResetCache.
Qed.

Lemma untouched_committed q self impl s s' :
  q <> self -> committed self impl s s' -> untouched q s s'.
Proof.
  intros Hq (_ & Hothers & Halloc). unfold untouched.
  destruct (slot s q) as [c|] eqn:Hc.
  - assert (allocated q s') as Hq' by (apply Halloc; unfold allocated; congruence).
    unfold allocated in Hq'. destruct (slot s' q) as [c'|] eqn:Hc'; [|done].
    destruct (Hothers q c' Hq Hc') as (c0 & Hc0 & Hu & Himpl).
    assert (c0 = c) as -> by congruence. exists c'. split; [done|]. split; [|done].
    unfold Cell_GetText. by rewrite <- (GetText_ResetCache (impl_ c')), Himpl, GetText_ResetCache.
  - intros c' Hc'. exfalso.
    assert (allocated q s) as Hq0 by (apply Halloc; unfold allocated; congruence). done.
Qed.

Lemma SetCell_untouched q fuel pos text s o s' :
  q <> pos -> well_formed s -> Sheet_SetCell fuel pos text s = (o, s') -> untouched q s s'.
Proof.
  intros Hq Hwf. destruct fuel as [|fuel]; simpl.
  { intros [= <- <-]. apply untouched_refl. }
  destruct (IsValid pos) eqn:Hv; [|intros [= <- <-]; apply untouched_refl].
  unfold bind at 1, update at 1. intros Hrun. revert Hrun.
  cut (hoare (fun s1 => placeholders s s1 /\ allocated pos s1)
             (Cell_Set (Sheet_SetCell fuel) fuel pos text pos)
             (fun _ s' => untouched q s s')).
  { intros Hset. apply Hset. split; [by apply materialize_placeholders|].
    destruct (materialize_spec pos s Hv) as (_ & Hpos & _). unfold allocated. by rewrite Hpos. }
  unfold Cell_Set.
  apply (hoare_bind _ _ _ (fun impl s2 =>
           placeholders s s2 /\ allocated pos s2 /\ refs_allocated impl s2)).
  { intros s1 o1 s2 [Hpl Hself] Hcand.
    destruct (candidate_allocates fuel text s1 s1 o1 s2 (placeholders_refl _) Hcand)
      as (Hpl2 & _ & Hrefs).
    assert (placeholders s s2) as Hpl' by (by eapply placeholders_trans).
    destruct o1 as [impl|e]; [|by apply untouched_placeholders].
    split; [done|]. split; [by apply (allocated_placeholders pos s1)|auto]. }
  intros impl.
  apply (hoare_bind _ _ _ (fun _ s2 =>
           placeholders s s2 /\ allocated pos s2 /\ refs_allocated impl s2)).
  { apply hoare_read. intros s2 (Hpl & Hself & Hrefs).
    destruct (Cell_CheckCircularDependencies _ _ _ _); [done|by apply untouched_placeholders]. }
  intros [|]; [apply hoare_throw; intros s2 (Hpl & _); by apply untouched_placeholders|].
  intros s2 o2 s3 (Hpl & Hself & Hrefs) Hcommit.
  apply (untouched_trans q s s2); [by apply untouched_placeholders|].
  apply (untouched_committed q pos impl); [done|].
  eapply commit_committed; [by eapply well_formed_placeholders|done..].
Qed.

Lemma ClearCell_untouched q fuel pos s o s' :
  q <> pos -> well_formed s -> Sheet_ClearCell fuel pos s = (o, s') -> untouched q s s'.
Proof.
  intros Hq Hwf. unfold Sheet_ClearCell.
  destruct (IsValid pos); [|intros [= <- <-]; apply untouched_refl].
  unfold bind at 1. unfold read at 1.
  destruct (in_extent s pos && bool_decide (slot s pos <> None)) eqn:Hocc;
    [|intros [= <- <-]; apply untouched_refl].
  apply andb_true_iff in Hocc as [_ Hsome]. apply bool_decide_eq_true in Hsome.
  unfold bind at 1. unfold Cell_Clear at 1. unfold bind at 1, read at 1. simpl.
  destruct (slot s pos) as [c|] eqn:Hc; [clear Hsome|done].
  rewrite Cell_Set_empty.
  destruct (Cell_Set_commit _ _ _ _ s) as [o1 s1] eqn:Hcommit.
  assert (untouched q s s1) as Hs1.
  { apply (untouched_committed q pos EmptyImpl); [done|].
    eapply commit_committed; [done| | |done].
    - unfold allocated. congruence.
    - intros x Hx. by apply elem_of_nil in Hx. }
  destruct o1 as [[]|e]; [|by intros [= <- <-]].
  unfold bind, read. simpl.
  destruct (slot s1 pos) as [c1|] eqn:Hc1; [|by intros [= <- <-]].
  destruct (negb (Cell_IsReferenced c1)); intros [= <- <-]; [|done].
  unfold untouched in *. by rewrite (slot_store_occupied _ _ _ _ _ Hc1), decide_False.
Qed.

(** The position an operation writes to. *)
Definition target (op : Operation) : option Position :=
  match op with
  | OpSetCell pos _ | OpClearCell pos => Some pos
  | _ => None
  end.

(** X8: an operation on a sheet built through the public operations,
    whatever its outcome, leaves every cell but the one it is aimed at with
    its text and its [using_cells_]; where there was no cell at most an empty
    placeholder appears.  Reading operations are aimed at no cell. *)
Theorem operations_leave_other_cells fuel op s o s' q :
  reachable s ->
  perform fuel op s = (o, s') ->
  target op <> Some q ->
  untouched q s s'.
Proof.
  intros Hreach Hrun Hq. pose proof (reachable_well_formed s Hreach) as Hwf.
  destruct op as [pos text|pos|pos|pos| | |]; simpl in Hrun, Hq.
  - eapply SetCell_untouched; [|done..]. congruence.
  - eapply ClearCell_untouched; [|done..]. congruence.
  - revert Hrun. unfold bind, read.
    destruct (Sheet_GetCell s pos) as [[c|]|e]; try (intros [= <- <-]; apply untouched_refl).
    destruct (Cell_GetValue fuel c s) as [o1 s1] eqn:Hget.
    assert (untouched q s s1).
    { apply untouched_caches.
      by eapply (GetValue_caches_only fuel c s); [apply same_but_caches_refl|]. }
    destruct o1; by intros [= <- <-].
  - revert Hrun. unfold bind, read.
    destruct (Sheet_GetCell s pos) as [?|?]; intros [= <- <-]; apply untouched_refl.
  - injection Hrun as <- <-. apply untouched_refl.
  - apply untouched_caches.
    by eapply (PrintValues_caches_only fuel s); [apply same_but_caches_refl|].
  - injection Hrun as <- <-. apply untouched_refl.
Qed.

(** ** Values are cached *)

(** X9: a value that [GetValue] returned is returned again by the next
    [GetValue] of the same cell, which leaves the sheet as it is: a formula
    is evaluated once and its result is served from the cache. *)
Theorem GetValue_again fuel self s v s' n :
  Cell_GetValue fuel self s = (Returned v, s') ->
  Cell_GetValue (S n) self s' = (Returned v, s').
Proof.
  destruct fuel as [|fuel]; simpl; [done|].
  unfold bind at 1, read at 1. simpl.
  destruct (slot s self) as [c|] eqn:Hc; [|done].
  destruct (impl_ c) as [|t|[v0|] f] eqn:Himpl.
  - intros [= <- <-]. unfold bind, read. simpl. by rewrite Hc, Himpl.
  - unfold read. intros [= Hv <-]. unfold bind, read. simpl. rewrite Hc, Himpl. by rewrite Hv.
  - intros [= <- <-]. unfold bind, read. simpl. by rewrite Hc, Himpl.
  - intros Hrun. apply bind_Returned in Hrun as (fv & s1 & Heval & Hrun).
    apply bind_Returned in Hrun as ([] & s2 & Hmod & Hret).
    injection Hret as <- <-.
    assert (same_but_caches s s1) as Hsame.
    { eapply (Evaluate_preserves (same_but_caches s));
        [intros p; apply GetValue_caches_only|apply same_but_caches_refl|done]. }
    specialize (Hsame self). rewrite Hc in Hsame.
    unfold modify_cell in Hmod. destruct (slot s1 self) as [c1|] eqn:Hc1; [|done].
    injection Hmod as <-. simpl in Hsame. injection Hsame as Hreset _ _ _.
    rewrite Himpl in Hreset. simpl in Hreset.
    assert (exists cache, impl_ c1 = FormulaImpl cache f) as [cache Hc1impl].
    { destruct (impl_ c1) as [| |cache f']; try done. injection Hreset as ->. by exists cache. }
    unfold bind, read. simpl.
    rewrite (slot_store_occupied _ _ _ _ _ Hc1), decide_True by done.
    unfold set_cache. rewrite Hc1impl. done.
Qed.

(** ** The printable area *)

Lemma printable_at_printable s k c :
  printable_at (cells_ s) k c <-> printable s (mkPosition (Z.of_nat k) (Z.of_nat c)).
Proof.
  rewrite printable_printable_at. simpl. rewrite !Nat2Z.id. split; [|tauto].
  intros Hp. repeat split; [lia|lia|done].
Qed.

Lemma GetPrintableSize_covers s p :
  printable s p ->
  row p < rows (Sheet_GetPrintableSize s) /\ col p < cols (Sheet_GetPrintableSize s).
Proof.
  intros Hp. apply printable_printable_at in Hp as (Hr & Hc & Hp).
  destruct (printable_rows_spec (cells_ s) 0 (mkSize 0 0)) as (_ & Hcover & _).
  destruct (Hcover _ _ Hp). unfold Sheet_GetPrintableSize. simpl in *. lia.
Qed.

Lemma GetPrintableSize_attained s :
  let size := Sheet_GetPrintableSize s in
  (rows size = 0 \/ exists k c, printable_at (cells_ s) k c /\ rows size = Z.of_nat k + 1) /\
  (cols size = 0 \/ exists k c, printable_at (cells_ s) k c /\ cols size = Z.of_nat c + 1) /\
  0 <= rows size /\ 0 <= cols size.
Proof.
  destruct (printable_rows_spec (cells_ s) 0 (mkSize 0 0)) as ((Hr & Hc) & _ & Hrows & Hcols).
  unfold Sheet_GetPrintableSize. simpl in *. split; [|split; [|done]].
  - destruct Hrows as [?|(k & c & ? & ?)]; [by left|right]. by exists k, c.
  - destruct Hcols as [?|(k & c & ? & ?)]; [by left|right]. by exists k, c.
Qed.

Lemma GetPrintableSize_le s s' :
  (forall p, printable s p -> printable s' p) ->
  rows (Sheet_GetPrintableSize s) <= rows (Sheet_GetPrintableSize s') /\
  cols (Sheet_GetPrintableSize s) <= cols (Sheet_GetPrintableSize s').
Proof.
  intros Hsub.
  destruct (GetPrintableSize_attained s) as (Hrows & Hcols & _).
  destruct (GetPrintableSize_attained s') as (_ & _ & Hr' & Hc').
  split.
  - destruct Hrows as [->|(k & c & Hp & ->)]; [done|].
    apply printable_at_printable, Hsub, GetPrintableSize_covers in Hp as [? _]. simpl in *. lia.
  - destruct Hcols as [->|(k & c & Hp & ->)]; [done|].
    apply printable_at_printable, Hsub, GetPrintableSize_covers in Hp as [_ ?]. simpl in *. lia.
Qed.

(** X10: the printable size grows with the set of positions that hold a
    non-empty text and depends on nothing else: not on empty cells, rows
    or columns at the end of the table, cached values or edges. *)
Theorem GetPrintableSize_depends_on_texts s s' :
  ((forall p, printable s p -> printable s' p) ->
   rows (Sheet_GetPrintableSize s) <= rows (Sheet_GetPrintableSize s') /\
   cols (Sheet_GetPrintableSize s) <= cols (Sheet_GetPrintableSize s')) /\
  ((forall p, printable s p <-> printable s' p) ->
   Sheet_GetPrintableSize s = Sheet_GetPrintableSize s').
Proof.
  split; [apply GetPrintableSize_le|]. intros Hsame.
  destruct (GetPrintableSize_le s s') as [? ?]; [intros p; apply Hsame|].
  destruct (GetPrintableSize_le s' s) as [? ?]; [intros p; apply Hsame|].
  destruct (Sheet_GetPrintableSize s), (Sheet_GetPrintableSize s'). simpl in *.
  f_equal; lia.
Qed.

(** X11: the printable size lies inside the table: [rows] is at most the
    number of rows of [cells_], so the accesses [cells_[row]] of the printing
    loops are in range, and [cols] is at most the length of some row. *)
Theorem GetPrintableSize_within_table s :
  0 <= rows (Sheet_GetPrintableSize s) <= Z.of_nat (length (cells_ s)) /\
  0 <= cols (Sheet_GetPrintableSize s) /\
  (cols (Sheet_GetPrintableSize s) = 0 \/
   exists r, 0 <= r < rows (Sheet_GetPrintableSize s) /\
             cols (Sheet_GetPrintableSize s) <= row_size s r).
Proof.
  destruct (GetPrintableSize_attained s) as (Hrows & Hcols & Hr & Hc).
  split; [split; [done|]|split; [done|]].
  - destruct Hrows as [->|(k & c & (rw & cell & Hrw & _) & ->)]; [lia|].
    apply lookup_lt_Some in Hrw. lia.
  - destruct Hcols as [?|(k & c & Hp & Hcols)]; [by left|right].
    exists (Z.of_nat k). pose proof Hp as (rw & cell & Hrw & Hcell & _).
    apply printable_at_printable, GetPrintableSize_covers in Hp as [? _]. simpl in *.
    split; [lia|]. unfold row_size. rewrite Nat2Z.id, Hrw. simpl.
    apply lookup_lt_Some in Hcell. lia.
Qed.

(** ** Printing the texts *)

Lemma append_cons c (s t : string) : String.append (String c s) t = String c (String.append s t).
Proof. done. Qed.

Lemma append_nil_r (s : string) : String.append s "" = s.
Proof. induction s as [|c s IH]; [done|]. by rewrite append_cons, IH. Qed.

Lemma append_assoc (s t u : string) :
  String.append (String.append s t) u = String.append s (String.append t u).
Proof. induction s as [|c s IH]; [done|]. by rewrite !append_cons, IH. Qed.

(** The text shown at row [r], column [c]: empty where there is no cell. *)
Definition text_at (s : Sheet) (r c : Z) : string :=
  match slot s (mkPosition r c) with
  | Some cell => Cell_GetText cell
  | None => ""
  end.

(** A printed row: the texts of columns [0 .. cols-1] separated by tabs,
    then a newline. *)
Definition printed_row (s : Sheet) (r : Z) : string :=
  String.append
    (String.concat tab (text_at s r <$> seqZ 0 (cols (Sheet_GetPrintableSize s))))
    newline.

Lemma PrintTexts_cell_spec s r c output :
  PrintTexts_cell s r c output =
  String.append output
    (String.append (if bool_decide (c = 0) then ""%string else tab) (text_at s r c)).
Proof.
  unfold PrintTexts_cell, text_at.
  assert (forall out : string,
            (if c <? row_size s r
             then match slot s (mkPosition r c) with
                  | Some cell => String.append out (Cell_GetText cell)
                  | None => out
                  end
             else out) =
            String.append out (match slot s (mkPosition r c) with
                               | Some cell => Cell_GetText cell
                               | None => ""%string
                               end)) as Hcell.
  { intros out. destruct (slot s (mkPosition r c)) as [cell|] eqn:Hslot.
    - apply slot_in_extent in Hslot. unfold in_extent in Hslot. simpl in Hslot.
      apply andb_true_iff in Hslot as [_ ->]. done.
    - rewrite append_nil_r. by destruct (c <? row_size s r). }
  rewrite Hcell. case_bool_decide; [done|]. by rewrite append_assoc.
Qed.

Lemma concat_cons_cons sep (x y : string) (l : list string) :
  String.concat sep (x :: y :: l) =
  String.append x (String.append sep (String.concat sep (y :: l))).
Proof. done. Qed.

Lemma concat_empty_cons (x : string) (l : list string) :
  String.concat "" (x :: l) = String.append x (String.concat "" l).
Proof. destruct l as [|y l]; [by rewrite append_nil_r|]. by rewrite concat_cons_cons. Qed.

Lemma concat_cons_tab (x : string) (l : list string) :
  String.concat tab (x :: l) =
  String.append x (String.concat "" ((fun t => String.append tab t) <$> l)).
Proof.
  revert x. induction l as [|y l IH]; intros x; [by rewrite append_nil_r|].
  rewrite concat_cons_cons, IH, fmap_cons, concat_empty_cons. by rewrite append_assoc.
Qed.

Lemma PrintTexts_cols_spec s r (l : list Z) output :
  (forall c, c ∈ l -> c <> 0) ->
  foldl (fun output col => PrintTexts_cell s r col output) output l =
  String.append output
    (String.concat "" ((fun c => String.append tab (text_at s r c)) <$> l)).
Proof.
  revert output. induction l as [|c l IH]; intros output Hl.
  { simpl. by rewrite append_nil_r. }
  rewrite fmap_cons, concat_empty_cons. cbn [foldl].
  rewrite IH by (intros c' Hc'; apply Hl; set_solver).
  rewrite PrintTexts_cell_spec, bool_decide_eq_false_2 by (apply Hl; set_solver).
  by rewrite append_assoc.
Qed.

Lemma PrintTexts_row_spec s r output :
  PrintTexts_row s r output = String.append output (printed_row s r).
Proof.
  unfold PrintTexts_row, printed_row.
  destruct (decide (0 < cols (Sheet_GetPrintableSize s))) as [Hpos|Hnone].
  - rewrite (seqZ_cons 0) by done. rewrite fmap_cons, concat_cons_tab. cbn [foldl].
    rewrite PrintTexts_cols_spec by (intros c Hc; apply elem_of_seqZ in Hc; lia).
    rewrite PrintTexts_cell_spec, bool_decide_eq_true_2 by done.
    rewrite <- list_fmap_compose. by rewrite !append_assoc.
  - rewrite seqZ_nil by lia. simpl. done.
Qed.

(** X12: [PrintTexts] appends to the stream, for each row of the printable
    area in turn, the texts of the columns of the printable area separated by
    tabs and ended by a newline, a missing cell counting as the empty text;
    what was in the stream stays in front. *)
Theorem PrintTexts_writes_rows s output :
  Sheet_PrintTexts s output =
  String.append output
    (String.concat "" (printed_row s <$> seqZ 0 (rows (Sheet_GetPrintableSize s)))).
Proof.
  unfold Sheet_PrintTexts. generalize (seqZ 0 (rows (Sheet_GetPrintableSize s))).
  intros l. revert output. induction l as [|r l IH]; intros output.
  { simpl. by rewrite append_nil_r. }
  rewrite fmap_cons, concat_empty_cons. cbn [foldl].
  by rewrite IH, PrintTexts_row_spec, append_assoc.
Qed.

(** ** Pointers and edges *)

(** X13: no public operation on a sheet built through the public
    operations dereferences a null [Cell*]: the outcome that the model
    records for [p->] on a missing cell never occurs. *)
Theorem operations_never_dereference_null fuel op s o s' :
  reachable s -> perform fuel op s = (o, s') -> o <> Thrown NullDereference.
Proof.
  intros Hreach Hrun.
  by destruct (perform_wired fuel op s o s' (reachable_well_formed s Hreach) Hrun).
Qed.

(** X14: on a sheet built through the public operations the
    [using_cells_] of a cell are exactly the positions its formula
    references; each of them is valid and holds a cell that lists the cell
    in its [calculated_cells_]; and no cell uses itself. *)
Theorem using_cells_are_the_references s p c :
  reachable s -> slot s p = Some c ->
  (forall q, q ∈ using_cells_ c <-> q ∈ Cell_GetReferencedCells c) /\
  (forall q, q ∈ using_cells_ c ->
     IsValid q = true /\ exists cq, slot s q = Some cq /\ p ∈ calculated_cells_ cq) /\
  p ∉ using_cells_ c.
Proof.
  intros Hreach Hc. destruct (reachable_well_formed s Hreach) as [Hsym Hmatch].
  split; [by apply (Hmatch p c)|]. split.
  - intros q Hq. split.
    + apply (refs_valid (impl_ c)). by apply (Hmatch p c Hc).
    + assert (uses s p q) as Hu by (by exists c). by apply Hsym in Hu.
  - intros Hself. apply (reachable_acyclic s Hreach p), tc_once.
    exists c. split; [done|]. by apply (Hmatch p c Hc).
Qed.

(** ** Assignments and the printable area *)

Lemma candidate_of_GetText text impl :
  candidate_of text = Returned impl -> text <> ""%string -> Impl_GetText impl <> ""%string.
Proof.
  destruct text as [|c rest]; [done|]. simpl. destruct (_ && _).
  - destruct (ParseFormula rest); [|done]. by intros [= <-].
  - by intros [= <-].
Qed.

(** X15: after a [SetCell(pos, text)] with a non-empty text that returned,
    on a sheet built through the public operations, the read-only [GetCell]
    finds the cell and the printable size covers [pos]. *)
Theorem SetCell_extends_printable_area fuel pos text s s' :
  reachable s -> text <> ""%string ->
  Sheet_SetCell fuel pos text s = (Returned tt, s') ->
  Sheet_GetCell_const s' pos = Returned (Some pos) /\
  row pos < rows (Sheet_GetPrintableSize s') /\
  col pos < cols (Sheet_GetPrintableSize s').
Proof.
  intros Hreach Hne Hrun. pose proof (reachable_well_formed s Hreach) as Hwf.
  destruct (SetCell_Returned_parts _ _ _ _ _ Hrun)
    as (fuel' & impl & s2 & Hv & Hpl & Hself & Hof & Hrefs & _ & Hcommit).
  pose proof (well_formed_placeholders s s2 Hpl Hwf) as Hwf2.
  destruct (commit_committed _ _ _ _ _ _ _ Hwf2 Hself Hrefs Hcommit)
    as ((c' & Hc' & Himpl & _) & _ & _).
  assert (Cell_GetText c' <> ""%string) as Htext.
  { unfold Cell_GetText. rewrite <- GetText_ResetCache, Himpl, GetText_ResetCache.
    by eapply candidate_of_GetText. }
  split.
  - rewrite GetCell_const_slot by done. rewrite Hc'. by rewrite bool_decide_eq_false_2.
  - apply GetPrintableSize_covers. by exists c'.
Qed.

(** X16: after a [ClearCell(pos)] that returned, on a sheet built through
    the public operations, the read-only [GetCell] finds no cell at [pos]
    and the printable size has not grown. *)
Theorem ClearCell_shrinks_printable_area fuel pos s s' :
  reachable s ->
  Sheet_ClearCell fuel pos s = (Returned tt, s') ->
  Sheet_GetCell_const s' pos = Returned None /\
  rows (Sheet_GetPrintableSize s') <= rows (Sheet_GetPrintableSize s) /\
  cols (Sheet_GetPrintableSize s') <= cols (Sheet_GetPrintableSize s).
Proof.
  intros Hreach Hrun. pose proof (reachable_well_formed s Hreach) as Hwf.
  assert (forall c', slot s' pos = Some c' -> Cell_GetText c' = ""%string) as Hpos.
  { revert Hrun. unfold Sheet_ClearCell.
    destruct (IsValid pos) eqn:Hv; [|done].
    unfold bind at 1. unfold read at 1.
    destruct (in_extent s pos && bool_decide (slot s pos <> None)) eqn:Hocc.
    2:{ intros [= <-] c' Hc'. apply andb_false_iff in Hocc as [Hout|Hfree].
        - apply not_in_extent_slot in Hout. congruence.
        - apply bool_decide_eq_false in Hfree. destruct Hfree. congruence. }
    apply andb_true_iff in Hocc as [_ Hsome]. apply bool_decide_eq_true in Hsome.
    unfold bind at 1. unfold Cell_Clear at 1. unfold bind at 1, read at 1. simpl.
    destruct (slot s pos) as [c|] eqn:Hc; [clear Hsome|done].
    rewrite Cell_Set_empty.
    destruct (Cell_Set_commit _ _ _ _ s) as [[[]|e] s1] eqn:Hcommit; [|done].
    assert (committed pos EmptyImpl s s1) as ((c1 & Hc1 & Himpl & _) & _).
    { eapply commit_committed; [done| | |done].
      - unfold allocated. congruence.
      - intros x Hx. by apply elem_of_nil in Hx. }
    unfold bind, read. simpl. rewrite Hc1.
    destruct (negb (Cell_IsReferenced c1)); intros [= <-] c' Hc'.
    - by rewrite (slot_store_occupied _ _ _ _ _ Hc1), decide_True in Hc'.
    - assert (c' = c1) as -> by congruence. unfold Cell_GetText.
      by rewrite <- GetText_ResetCache, Himpl. }
  assert (forall p, printable s' p -> printable s p) as Hsub.
  { intros p (c' & Hc' & Ht). destruct (decide (p = pos)) as [->|Hp].
    { by destruct Ht; apply Hpos. }
    pose proof (ClearCell_untouched p fuel pos s _ s' Hp Hwf Hrun) as Hun.
    unfold untouched in Hun. destruct (slot s p) as [c|] eqn:Hc.
    - destruct Hun as (c0 & Hc0 & Ht0 & _). exists c. split; [done|]. congruence.
    - by destruct (Hun c' Hc') as [? _]. }
  split; [|by apply GetPrintableSize_le].
  destruct (IsValid pos) eqn:Hv.
  - rewrite GetCell_const_slot by done. destruct (slot s' pos) as [c'|] eqn:Hc'; [|done].
    by rewrite (Hpos c' eq_refl), bool_decide_eq_true_2.
  - unfold Sheet_ClearCell in Hrun. by rewrite Hv in Hrun.
Qed.

(** ** How the operations change a sheet *)

Lemma SetCell_shape fuel pos text s o s' :
  well_formed s -> Sheet_SetCell fuel pos text s = (o, s') ->
  placeholders s s' \/
  exists impl s2, candidate_of text = Returned impl /\ placeholders s s2 /\
                  committed pos impl s2 s'.
Proof.
  intros Hwf. destruct fuel as [|fuel]; simpl.
  { intros [= <- <-]. left. apply placeholders_refl. }
  destruct (IsValid pos) eqn:Hv; [|intros [= <- <-]; left; apply placeholders_refl].
  unfold bind at 1, update at 1. intros Hrun. revert Hrun.
  cut (hoare (fun s1 => placeholders s s1 /\ allocated pos s1)
             (Cell_Set (Sheet_SetCell fuel) fuel pos text pos)
             (fun _ s' => placeholders s s' \/
                exists impl s2, candidate_of text = Returned impl /\ placeholders s s2 /\
                                committed pos impl s2 s')).
  { intros Hset. apply Hset. split; [by apply materialize_placeholders|].
    destruct (materialize_spec pos s Hv) as (_ & Hpos & _). unfold allocated. by rewrite Hpos. }
  unfold Cell_Set.
  apply (hoare_bind _ _ _ (fun impl s2 =>
           placeholders s s2 /\ allocated pos s2 /\ refs_allocated impl s2 /\
           candidate_of text = Returned impl)).
  { intros s1 o1 s2 [Hpl Hself] Hcand.
    destruct (candidate_allocates fuel text s1 s1 o1 s2 (placeholders_refl _) Hcand)
      as (Hpl2 & _ & Hrefs).
    pose proof (candidate_outcome _ text _ _ _ I Hcand) as Hof.
    assert (placeholders s s2) as Hpl' by (by eapply placeholders_trans).
    destruct o1 as [impl|e]; [|by left].
    split; [done|]. split; [by apply (allocated_placeholders pos s1)|]. split; auto. }
  intros impl.
  apply (hoare_bind _ _ _ (fun _ s2 =>
           placeholders s s2 /\ allocated pos s2 /\ refs_allocated impl s2 /\
           candidate_of text = Returned impl)).
  { apply hoare_read. intros s2 (Hpl & Hself & Hrefs & Hof).
    destruct (Cell_CheckCircularDependencies _ _ _ _); [done|by left]. }
  intros [|]; [apply hoare_throw; intros s2 (Hpl & _); by left|].
  intros s2 o2 s3 (Hpl & Hself & Hrefs & Hof) Hcommit. right. exists impl, s2.
  split; [done|]. split; [done|].
  eapply commit_committed; [by eapply well_formed_placeholders|done..].
Qed.

Lemma ClearCell_shape fuel pos s o s' :
  well_formed s -> Sheet_ClearCell fuel pos s = (o, s') ->
  s' = s \/
  exists s1, committed pos EmptyImpl s s1 /\
             (s' = s1 \/ exists c1, slot s1 pos = Some c1 /\ s' = store pos None s1).
Proof.
  intros Hwf. unfold Sheet_ClearCell.
  destruct (IsValid pos); [|intros [= <- <-]; by left].
  unfold bind at 1. unfold read at 1.
  destruct (in_extent s pos && bool_decide (slot s pos <> None)) eqn:Hocc;
    [|intros [= <- <-]; by left].
  apply andb_true_iff in Hocc as [_ Hsome]. apply bool_decide_eq_true in Hsome.
  unfold bind at 1. unfold Cell_Clear at 1. unfold bind at 1, read at 1. simpl.
  destruct (slot s pos) as [c|] eqn:Hc; [clear Hsome|done].
  rewrite Cell_Set_empty.
  destruct (Cell_Set_commit _ _ _ _ s) as [o1 s1] eqn:Hcommit.
  assert (committed pos EmptyImpl s s1) as Hcommitted.
  { eapply commit_committed; [done| | |done].
    - unfold allocated. congruence.
    - intros x Hx. by apply elem_of_nil in Hx. }
  intros Hrun. right. exists s1. split; [done|]. revert Hrun.
  destruct o1 as [[]|e]; [|intros [= <- <-]; by left].
  unfold bind, read. simpl.
  destruct (slot s1 pos) as [c1|] eqn:Hc1; [|intros [= <- <-]; by left].
  destruct (negb (Cell_IsReferenced c1)); intros [= <- <-]; [right; by exists c1|by left].
Qed.

(** A property of sheets that survives the four ways in which the public
    operations change a sheet holds on every sheet they build. *)
Lemma reachable_invariant (I : Sheet -> Prop) :
  I Sheet_new ->
  (forall s s', placeholders s s' -> I s -> I s') ->
  (forall s s', same_but_caches s s' -> I s -> I s') ->
  (forall text self impl s s',
     candidate_of text = Returned impl -> committed self impl s s' -> I s -> I s') ->
  (forall pos c s, slot s pos = Some c -> I s -> I (store pos None s)) ->
  forall s, reachable s -> I s.
Proof.
  intros Hnew Hpl Hcaches Hcommitted Hrelease s Hreach.
  induction Hreach as [|fuel op s o s' Hreach IH Hrun]; [done|].
  pose proof (reachable_well_formed s Hreach) as Hwf.
  destruct op as [pos text|pos|pos|pos| | |]; simpl in Hrun.
  - destruct (SetCell_shape _ _ _ _ _ _ Hwf Hrun) as [?|(impl & s2 & Hof & ? & ?)]; [eauto|].
    apply (Hcommitted text pos impl s2 s'); eauto.
  - destruct (ClearCell_shape _ _ _ _ _ Hwf Hrun)
      as [->|(s1 & Hs1 & [->|(c1 & Hc1 & ->)])]; [done|..].
    + by apply (Hcommitted ""%string pos EmptyImpl s s1).
    + apply (Hrelease pos c1); [done|]. by apply (Hcommitted ""%string pos EmptyImpl s s1).
  - revert Hrun. unfold bind, read.
    destruct (Sheet_GetCell s pos) as [[c|]|e]; try by intros [= <- <-].
    destruct (Cell_GetValue fuel c s) as [o1 s1] eqn:Hget.
    assert (I s1).
    { apply (Hcaches s); [|done].
      by eapply (GetValue_caches_only fuel c s); [apply same_but_caches_refl|]. }
    destruct o1; by intros [= <- <-].
  - revert Hrun. unfold bind, read.
    destruct (Sheet_GetCell s pos) as [?|?]; by intros [= <- <-].
  - by injection Hrun as <- <-.
  - apply (Hcaches s); [|done].
    by eapply (PrintValues_caches_only fuel s); [apply same_but_caches_refl|].
  - by injection Hrun as <- <-.
Qed.

(** ** Reading a value ends *)

(** The cells that occur in an expression. *)
Fixpoint expr_cells (e : Expr) : list Position :=
  match e with
  | NumberExpr _ => []
  | CellExpr cell => [cell]
  | UnaryOpExpr _ operand => expr_cells operand
  | BinaryOpExpr _ lhs rhs => expr_cells lhs ++ expr_cells rhs
  end.

(** The list [cells_] of a [FormulaAST] holds the cells of its expression,
    as the parser of FormulaAST.cpp fills it. *)
Definition collects_cells (ast : FormulaAST) : Prop :=
  forall p, p ∈ expr_cells (root_expr_ ast) -> p ∈ cells_of ast.

Definition parser_collects_cells : Prop :=
  forall text ast, ParseFormulaAST text = Some ast -> collects_cells ast.

Definition asts_ok (s : Sheet) : Prop :=
  forall p c cache f, slot s p = Some c -> impl_ c = FormulaImpl cache f -> collects_cells f.

Lemma reachable_asts_ok s : parser_collects_cells -> reachable s -> asts_ok s.
Proof.
  intros Hparser. apply reachable_invariant.
  - intros p c cache f Hc. by rewrite slot_new in Hc.
  - intros s1 s2 Hpl Hs1 p c cache f Hc Himpl. destruct (Hpl p) as [Heq|[_ Hnew]].
    + rewrite Heq in Hc. eauto.
    + rewrite Hnew in Hc. injection Hc as <-. done.
  - intros s1 s2 Hsame Hs1 p c cache f Hc Himpl. specialize (Hsame p). rewrite Hc in Hsame.
    destruct (slot s1 p) as [c1|] eqn:Hc1; [|done]. simpl in Hsame.
    injection Hsame as Hreset _ _ _. rewrite Himpl in Hreset. simpl in Hreset.
    destruct (impl_ c1) as [| |cache1 f1] eqn:Himpl1; try done. injection Hreset as ->.
    by apply (Hs1 p c1 cache1 f1).
  - intros text self impl s1 s2 Hof ((c' & Hc' & Himpl' & _) & Hothers & _) Hs1 p c cache f Hc Hf.
    destruct (decide (p = self)) as [->|Hp].
    + assert (c = c') as -> by congruence. rewrite Hf in Himpl'. simpl in Himpl'.
      destruct impl as [| |cache0 f0] eqn:Himpl; try done. injection Himpl' as ->.
      destruct text as [|ch rest]; [done|]. simpl in Hof. destruct (_ && _); [|done].
      unfold ParseFormula in Hof. destruct (ParseFormulaAST rest) as [ast|] eqn:Hparse; [|done].
      injection Hof as _ <-. by apply (Hparser rest).
    + destruct (Hothers p c Hp Hc) as (c1 & Hc1 & _ & Hreset).
      rewrite Hf in Hreset. simpl in Hreset.
      destruct (impl_ c1) as [| |cache1 f1] eqn:Himpl1; try done. injection Hreset as ->.
      by apply (Hs1 p c1 cache1 f1).
  - intros pos c0 s1 Hc0 Hs1 p c cache f Hc.
    rewrite (slot_store_occupied _ _ _ _ _ Hc0) in Hc. case_decide; [done|]. eauto.
Qed.

Definition value_or_error {A} (o : Outcome A) : Prop :=
  match o with
  | Returned _ | Thrown (ThrownFormulaError _) => True
  | Thrown _ => False
  end.

Lemma same_but_caches_sym s s' : same_but_caches s s' -> same_but_caches s' s.
Proof. intros Hsame q. by rewrite Hsame. Qed.

(** Evaluating an expression ends, in a number or in a formula error, when
    the values of the cells that occur in it can be read. *)
Lemma Execute_enough s0 (get : Position -> Run CellValue) e :
  (forall p, p ∈ expr_cells e -> IsValid p = true -> allocated p s0 ->
     forall s, same_but_caches s0 s ->
       exists v s', get p s = (Returned v, s') /\ same_but_caches s0 s') ->
  forall s, same_but_caches s0 s ->
    exists o s', Execute (params get) e s = (o, s') /\ same_but_caches s0 s' /\
                 value_or_error o.
Proof.
  induction e as [v|p|op e IH|op l IHl r IHr]; intros Hget s Hs; simpl.
  - by exists (Returned v), s.
  - unfold params. destruct (IsValid p) eqn:Hv; simpl.
    2:{ by eexists _, s. }
    unfold bind, read. destruct (Sheet_GetCell_const s p) as [[q|]|e] eqn:Hcell.
    + assert (q = p) as ->.
      { revert Hcell. unfold Sheet_GetCell_const. rewrite Hv.
        destruct (in_extent s p); [|done]. destruct (slot s p); [|done].
        case_bool_decide; [done|]. by intros [= <-]. }
      apply GetCell_const_Some in Hcell.
      assert (p ∈ expr_cells (CellExpr p)) as Hin by set_solver.
      assert (allocated p s0) as Hcell0.
      { exact (allocated_caches p s s0 (same_but_caches_sym _ _ Hs) Hcell). }
      destruct (Hget p Hin Hv Hcell0 s Hs) as (v & s' & -> & Hs').
      exists (lookup_value v), s'. split; [done|]. split; [done|].
      unfold lookup_value. destruct v as [str|d|fe]; try done.
      case_bool_decide; [done|]. by destruct (read_whole_double str).
    + by exists (Returned 0%float), s.
    + rewrite GetCell_const_slot in Hcell by done. done.
  - destruct (IH Hget s Hs) as ([x|e'] & s' & Hrun & Hs' & Hok); unfold bind; rewrite Hrun.
    + by eexists _, s'.
    + by exists (Thrown e'), s'.
  - assert (forall p, p ∈ expr_cells l -> p ∈ expr_cells (BinaryOpExpr op l r)) as Hl0
      by set_solver.
    assert (forall p, p ∈ expr_cells r -> p ∈ expr_cells (BinaryOpExpr op l r)) as Hr0
      by set_solver.
    destruct (IHl (fun p Hp => Hget p (Hl0 p Hp)) s Hs)
      as ([x|e'] & s1 & Hl & Hs1 & Hok1); unfold bind; rewrite Hl.
    2:{ by exists (Thrown e'), s1. }
    destruct (IHr (fun p Hp => Hget p (Hr0 p Hp)) s1 Hs1)
      as ([y|e'] & s2 & Hr & Hs2 & Hok2); rewrite Hr.
    2:{ by exists (Thrown e'), s2. }
    destruct (is_finite _); by eexists _, s2.
Qed.

Lemma Formula_refs_elem ast p :
  p ∈ Formula_GetReferencedCells ast <-> p ∈ cells_of ast /\ IsValid p = true.
Proof.
  destruct (collect_valid_spec (cells_of ast) [] (SSorted_nil _)) as [_ Hin].
  unfold Formula_GetReferencedCells. rewrite Hin. split; [|auto].
  intros [Hnil|?]; [by apply elem_of_nil in Hnil|done].
Qed.

Lemma GetValue_enough s0 self :
  well_formed s0 -> text_ok s0 -> asts_ok s0 ->
  sn (refers s0) self -> allocated self s0 ->
  exists N, forall fuel, (N <= fuel)%nat ->
    forall s, same_but_caches s0 s ->
      exists v s', Cell_GetValue fuel self s = (Returned v, s') /\ same_but_caches s0 s'.
Proof.
  intros Hwf Htext Hasts Hsn. induction Hsn as [self _ IH]. intros Hself.
  unfold allocated in Hself. destruct (slot s0 self) as [c0|] eqn:Hc0; [clear Hself|done].
  destruct (bound_for_all
              (fun y n => forall s, same_but_caches s0 s ->
                 exists v s', Cell_GetValue n y s = (Returned v, s') /\ same_but_caches s0 s')
              (Cell_GetReferencedCells c0)) as [N HN].
  { intros y Hy. apply IH; [by exists c0|].
    by destruct (well_formed_refs s0 self c0 Hwf Hc0 y Hy). }
  exists (S N). intros [|fuel] Hfuel s Hs; [lia|]. simpl.
  unfold bind at 1, read at 1. simpl.
  pose proof (Hs self) as Hslot. rewrite Hc0 in Hslot.
  destruct (slot s self) as [c|] eqn:Hc; [|done]. simpl in Hslot.
  injection Hslot as Hreset _ _ _.
  destruct (impl_ c) as [|t|[v|] f] eqn:Himpl.
  - by eexists _, s.
  - assert (impl_ c0 = TextImpl t) as Himpl0.
    { simpl in Hreset. by destruct (impl_ c0) as [| |? ?]. }
    pose proof (Htext self c0 Hc0 t Himpl0) as Hne.
    unfold read. destruct t as [|ch rest]; [done|]. simpl.
    case_bool_decide; by eexists _, s.
  - by eexists _, s.
  - assert (exists cache, impl_ c0 = FormulaImpl cache f) as [cache Himpl0].
    { simpl in Hreset. destruct (impl_ c0) as [| |cache f0]; try done.
      injection Hreset as ->. by exists cache. }
    destruct (Execute_enough s0 (Cell_GetValue fuel) (root_expr_ f)) with (s := s)
      as (o & s1 & Hrun & Hs1 & Hok); [|done|].
    { intros p Hp Hv _ s2 Hs2. apply (HN p); [|lia|done].
      unfold Cell_GetReferencedCells. rewrite Himpl0. simpl.
      apply Formula_refs_elem. split; [|done]. by apply (Hasts self c0 cache f). }
    assert (exists fv, Formula_Evaluate (Cell_GetValue fuel) f s = (Returned fv, s1))
      as [fv Heval].
    { unfold Formula_Evaluate. rewrite Hrun. destruct o as [d|[]]; try done; by eexists. }
    unfold bind. rewrite Heval. unfold modify_cell.
    pose proof (Hs1 self) as Hslot1. rewrite Hc0 in Hslot1.
    destruct (slot s1 self) as [c1|] eqn:Hc1; [|done].
    eexists _, _. split; [done|].
    apply same_but_caches_store; [apply reset_cache_set_cache|done|done].
Qed.

Lemma refers_sn s x : well_formed s -> acyclic s -> sn (refers s) x.
Proof.
  intros Hwf Hacyclic. apply tc_finite_sn; [exact Hacyclic|].
  exists (occupied s). intros y Hy. apply tc_last_step in Hy as (z & c & Hc & Hy).
  apply occupied_allocated. by destruct (well_formed_refs s z c Hwf Hc y Hy).
Qed.

(** X17: when the parser lists in [cells_] the cells of the expression it
    builds, on a sheet built through the public operations [GetValue] of a
    cell ends once the recursion bound is large enough: it returns a text, a
    number or a formula error, and throws nothing. *)
Theorem GetValue_ends s self :
  parser_collects_cells -> reachable s -> allocated self s ->
  exists N, forall fuel, (N <= fuel)%nat ->
    exists v s', Cell_GetValue fuel self s = (Returned v, s').
Proof.
  intros Hparser Hreach Hself.
  pose proof (reachable_well_formed s Hreach) as Hwf.
  destruct (GetValue_enough s self Hwf (reachable_text_ok s Hreach)
              (reachable_asts_ok s Hparser Hreach)
              (refers_sn s self Hwf (reachable_acyclic s Hreach)) Hself) as [N HN].
  exists N. intros fuel Hfuel.
  destruct (HN fuel Hfuel s (same_but_caches_refl s)) as (v & s' & Hrun & _). eauto.
Qed.

(** ** Printing the values ends *)

Lemma printable_caches s s' p : same_but_caches s s' -> printable s p -> printable s' p.
Proof.
  intros Hsame (c & Hc & Htext). specialize (Hsame p). rewrite Hc in Hsame.
  destruct (slot s' p) as [c'|] eqn:Hc'; [|done].
  change (Some (reset_cache c') = Some (reset_cache c)) in Hsame.
  exists c'. split; [done|]. rewrite (GetText_caches c c'); [done|congruence].
Qed.

Lemma GetPrintableSize_caches s s' :
  same_but_caches s s' -> Sheet_GetPrintableSize s' = Sheet_GetPrintableSize s.
Proof.
  intros Hsame.
  destruct (GetPrintableSize_le s s') as [? ?]; [intros p; by apply printable_caches|].
  destruct (GetPrintableSize_le s' s) as [? ?].
  { intros p. by apply printable_caches, same_but_caches_sym. }
  destruct (Sheet_GetPrintableSize s), (Sheet_GetPrintableSize s'). simpl in *.
  f_equal; lia.
Qed.

Section PrintValues_enough.

Variables (s0 : Sheet) (fuel : nat).

Hypothesis GetValue_returns :
  forall p, allocated p s0 -> forall s, same_but_caches s0 s ->
    exists v s', Cell_GetValue fuel p s = (Returned v, s') /\ same_but_caches s0 s'.

Lemma PrintValues_cols_enough steps r c s :
  same_but_caches s0 s ->
  (Z.to_nat (cols (Sheet_GetPrintableSize s0) - c) < steps)%nat ->
  exists s', PrintValues_cols fuel steps r c s = (Returned tt, s') /\ same_but_caches s0 s'.
Proof.
  revert c s. induction steps as [|steps IH]; intros c s Hs Hsteps; [lia|]. simpl.
  unfold bind at 1, read at 1. rewrite (GetPrintableSize_caches s0 s Hs).
  destruct (c <? cols (Sheet_GetPrintableSize s0)) eqn:Hc; [|by exists s].
  apply Z.ltb_lt in Hc. unfold bind at 1, read at 1.
  assert (exists s1,
            (if (c <? row_size s r) && bool_decide (slot s (mkPosition r c) <> None)
             then Cell_GetValue fuel (mkPosition r c) >>> ret tt else ret tt) s
            = (Returned tt, s1) /\ same_but_caches s0 s1) as (s1 & Hread & Hs1).
  { destruct (_ && _) eqn:Hocc; [|by exists s].
    apply andb_true_iff in Hocc as [_ Hocc]. apply bool_decide_eq_true in Hocc.
    assert (allocated (mkPosition r c) s0) as Halloc.
    { exact (allocated_caches _ s s0 (same_but_caches_sym _ _ Hs) Hocc). }
    destruct (GetValue_returns _ Halloc s Hs) as (v & s1 & Hget & Hs1).
    exists s1. unfold bind. by rewrite Hget. }
  unfold bind at 1. rewrite Hread. apply IH; [done|lia].
Qed.

Lemma PrintValues_rows_enough steps r s :
  same_but_caches s0 s ->
  (Z.to_nat (rows (Sheet_GetPrintableSize s0) - r)
   + Z.to_nat (cols (Sheet_GetPrintableSize s0)) + 2 <= steps)%nat ->
  exists s', PrintValues_rows fuel steps r s = (Returned tt, s') /\ same_but_caches s0 s'.
Proof.
  revert r s. induction steps as [|steps IH]; intros r s Hs Hsteps; [lia|]. simpl.
  unfold bind at 1, read at 1. rewrite (GetPrintableSize_caches s0 s Hs).
  destruct (r <? rows (Sheet_GetPrintableSize s0)) eqn:Hr; [|by exists s].
  apply Z.ltb_lt in Hr.
  destruct (PrintValues_cols_enough steps r 0 s Hs) as (s1 & Hcols & Hs1); [lia|].
  unfold bind. rewrite Hcols. apply IH; [done|lia].
Qed.

End PrintValues_enough.

(** X18: when the parser lists in [cells_] the cells of the expression it
    builds, on a sheet built through the public operations [PrintValues]
    ends once the recursion bound is large enough: it returns, no reading
    of a value throws, and the sheet it leaves differs from the one it
    started on in cached values only. *)
Theorem PrintValues_ends s :
  parser_collects_cells -> reachable s ->
  exists N, forall fuel, (N <= fuel)%nat ->
    exists s', Sheet_PrintValues fuel s = (Returned tt, s') /\
               same_but_caches s s' /\
               Sheet_GetPrintableSize s' = Sheet_GetPrintableSize s.
Proof.
  intros Hparser Hreach. pose proof (reachable_well_formed s Hreach) as Hwf.
  destruct (bound_for_all
              (fun y n => allocated y s -> forall s1, same_but_caches s s1 ->
                 exists v s', Cell_GetValue n y s1 = (Returned v, s') /\ same_but_caches s s')
              (occupied s)) as [N HN].
  { intros y Hy.
    destruct (decide (allocated y s)) as [Halloc|Hnone].
    - destruct (GetValue_enough s y Hwf (reachable_text_ok s Hreach)
                  (reachable_asts_ok s Hparser Hreach)
                  (refers_sn s y Hwf (reachable_acyclic s Hreach)) Halloc) as [N HN].
      exists N. intros n Hn _. by apply HN.
    - exists O. by intros n Hn Halloc. }
  exists (N `max` (Z.to_nat (rows (Sheet_GetPrintableSize s))
                   + Z.to_nat (cols (Sheet_GetPrintableSize s)) + 2))%nat.
  intros fuel Hfuel. unfold Sheet_PrintValues.
  destruct (PrintValues_rows_enough s fuel) with (steps := fuel) (r := 0) (s := s)
    as (s' & Hrun & Hs').
  - intros p Hp. apply (HN p); [by apply occupied_allocated|lia|done].
  - done.
  - lia.
  - exists s'. split; [done|]. split; [done|]. by apply GetPrintableSize_caches.
Qed.

(** ** A formula that does not parse *)

Lemma ResetCache_never_FormulaException fuel self force :
  never FormulaException (Cell_ResetCache fuel self force).
Proof.
  revert self force. induction fuel as [|fuel IH]; intros self force; simpl.
  - by apply hoare_throw.
  - apply never_bind; [by apply never_deref|]. intros c.
    destruct (Impl_HasCache (impl_ c) || force); [|by apply hoare_ret].
    apply never_bind; [by apply never_modify_cell|]. intros _.
    apply never_for_each. auto.
Qed.

Lemma commit_never_FormulaException SetCell fuel self impl :
  (forall p, never FormulaException (SetCell p ""%string)) ->
  never FormulaException (Cell_Set_commit SetCell fuel self impl).
Proof.
  intros Hrec. unfold Cell_Set_commit.
  apply never_bind; [|intros _; apply ResetCache_never_FormulaException].
  unfold Cell_Set_rewire.
  apply never_bind; [by apply never_modify_cell|]. intros _.
  apply never_bind; [by apply never_deref|]. intros c.
  apply never_bind.
  { apply never_for_each. intros used. unfold Cell_Set_unlink.
    apply never_bind; [by apply never_deref|]. intros cu. by apply never_modify_cell. }
  intros _. apply never_bind; [by apply never_modify_cell|]. intros _.
  apply never_for_each. intros q. unfold Cell_Set_link.
  apply never_bind; [by apply never_GetConcreteCell|]. intros found.
  apply never_bind.
  { destruct found; [by apply hoare_ret|].
    apply never_bind; [apply Hrec|]. intros _. by apply never_GetConcreteCell. }
  intros [u|]; [|by apply hoare_throw].
  apply never_bind; [by apply never_deref|]. intros c'.
  apply never_bind; [by apply never_modify_cell|]. intros _.
  apply never_bind; [by apply never_deref|]. intros cu. by apply never_modify_cell.
Qed.

Lemma SetCell_empty_never_FormulaException fuel p :
  never FormulaException (Sheet_SetCell fuel p ""%string).
Proof.
  revert p. induction fuel as [|fuel IH]; intros p; simpl.
  - by apply hoare_throw.
  - destruct (IsValid p); [|by apply hoare_throw].
    apply never_bind; [by apply hoare_update|]. intros _.
    rewrite Cell_Set_empty. by apply commit_never_FormulaException.
Qed.

Lemma HasCircularDependency_never_FormulaException fuel s pos_const cell visitedPos :
  Cell_HasCircularDependency fuel s pos_const cell visitedPos <> Thrown FormulaException.
Proof.
  revert cell visitedPos. induction fuel as [|fuel IH]; intros cell visitedPos; simpl; [done|].
  destruct cell as [x|]; simpl; [|done]. destruct (slot s x) as [c|]; [|done].
  revert visitedPos.
  induction (Cell_GetReferencedCells c) as [|d l IHl]; intros visitedPos; simpl; [done|].
  destruct (Sheet_GetConcreteCell s d) as [ref_cell|e] eqn:Hg.
  2:{ apply GetConcreteCell_throws in Hg as ->. done. }
  case_bool_decide; [done|]. case_bool_decide; [by apply IHl|].
  destruct (Cell_HasCircularDependency fuel s pos_const ref_cell _) as [[[|] v]|e] eqn:Hr;
    [done|by apply IHl|].
  intros [= ->]. by apply IH in Hr.
Qed.

Lemma CheckCircularDependencies_never_FormulaException fuel impl pos s :
  Cell_CheckCircularDependencies fuel impl pos s <> Thrown FormulaException.
Proof.
  unfold Cell_CheckCircularDependencies. generalize (∅ : gset CellPtr).
  induction (Impl_GetReferencedCells impl) as [|d l IHl]; intros visitedPos; simpl; [done|].
  case_bool_decide; [done|].
  destruct (Sheet_GetConcreteCell s d) as [ref_cell|e] eqn:Hg.
  2:{ apply GetConcreteCell_throws in Hg as ->. done. }
  destruct (Cell_HasCircularDependency fuel s pos ref_cell _) as [[[|] v]|e] eqn:Hr;
    [done|by apply IHl|].
  intros [= ->]. by apply HasCircularDependency_never_FormulaException in Hr.
Qed.

(** X19: a [SetCell] that throws [FormulaException] was given a formula that
    the parser rejects, and it has done nothing but make the table cover
    [pos] and put an empty cell there if there was none: every cell of the
    sheet, the one at [pos] included, is as it was. *)
Theorem SetCell_FormulaException_keeps_cells fuel pos text s s' :
  Sheet_SetCell fuel pos text s = (Thrown FormulaException, s') ->
  (exists rest, text = String FORMULA_SIGN rest /\ rest <> ""%string /\
                ParseFormulaAST rest = None) /\
  IsValid pos = true /\
  s' = materialize pos s /\
  (forall q c, slot s q = Some c -> slot s' q = Some c) /\
  (forall q, q <> pos -> slot s' q = slot s q).
Proof.
  destruct fuel as [|fuel]; simpl; [done|].
  destruct (IsValid pos) eqn:Hv; [|done].
  unfold bind at 1, update at 1. unfold Cell_Set. intros Hrun.
  cut ((exists rest, text = String FORMULA_SIGN rest /\ rest <> ""%string /\
                     ParseFormulaAST rest = None) /\ s' = materialize pos s).
  { intros [Htext ->]. split; [done|]. split; [done|]. split; [done|].
    destruct (materialize_spec pos s Hv) as (Hother & Hpos & _). split; [|done].
    intros q c Hc. destruct (decide (q = pos)) as [->|Hq]; [by rewrite Hpos, Hc|].
    by rewrite Hother. }
  destruct (Cell_Set_candidate (Sheet_SetCell fuel) text (materialize pos s))
    as [[impl|e] s2] eqn:Hcand; unfold bind at 1 in Hrun; rewrite Hcand in Hrun.
  - exfalso. revert Hrun. unfold bind, read.
    destruct (Cell_CheckCircularDependencies fuel impl pos s2) as [[|]|e] eqn:Hcheck.
    + done.
    + intros Hrun.
      by apply (commit_never_FormulaException (Sheet_SetCell fuel) fuel pos impl
                  (SetCell_empty_never_FormulaException fuel) s2 _ s' I Hrun).
    + intros [= -> _]. by apply CheckCircularDependencies_never_FormulaException in Hcheck.
  - injection Hrun as -> ->. revert Hcand. unfold Cell_Set_candidate.
    destruct text as [|c rest]; [done|].
    destruct (2 <=? Z.of_nat (String.length (String c rest))) eqn:Hlen; simpl; [|done].
    case_bool_decide as Hsign; simpl; [subst c|done].
    unfold bind at 1, read at 1. unfold ParseFormula.
    destruct (ParseFormulaAST rest) as [ast|] eqn:Hparse.
    + intros Hloop. exfalso. revert Hloop.
      cut (never FormulaException
             (for_each (Impl_GetReferencedCells (FormulaImpl None ast))
                (fun pos_cell_in_formula =>
                   if IsValid pos_cell_in_formula then
                     let* existing := read (fun s => Sheet_GetCell s pos_cell_in_formula) in
                     match existing with
                     | None => Sheet_SetCell fuel pos_cell_in_formula ""%string
                     | Some _ => ret tt
                     end
                   else ret tt) >>> ret (FormulaImpl None ast))).
      { intros Hnever Hloop. by apply (Hnever _ _ _ I Hloop). }
      apply never_bind; [|intros _; by apply hoare_ret].
      apply never_for_each. intros q. destruct (IsValid q) eqn:Hq; [|by apply hoare_ret].
      apply never_bind.
      * apply hoare_read. intros s1 _. unfold Sheet_GetCell. rewrite Hq.
        by repeat case_match.
      * intros [?|]; [by apply hoare_ret|apply SetCell_empty_never_FormulaException].
    + intros [= <-]. split; [|done]. exists rest. split; [done|]. split; [|done].
      intros ->. by simpl in Hlen.
Qed.

End Coverage.

(** * Examples on the concrete instance *)

Module Examples.
Import Demo.

(** [Set(A1,"=B1")] succeeded; the sheet before [Set(B1,"=A1")]. *)
Definition sheet_A1_uses_B1 : Sheet := (run_all 8 [OpSetCell A1 "=B1"] Sheet_new).2.

Definition rejected_B1 : Outcome unit * Sheet :=
  Sheet_SetCell 8 B1 "=A1" sheet_A1_uses_B1.

Definition rejected_A1 : Outcome unit * Sheet := Sheet_SetCell 8 A1 "=A1" Sheet_new.

(** [Set(A1,"=A1+C1")] on the new sheet. *)
Definition rejected_A1_C1 : Outcome unit * Sheet := Sheet_SetCell 8 A1 "=A1+C1" Sheet_new.

(** A1 is used by B1 and then cleared. *)
Definition cleared_B1 : Outcome unit * Sheet :=
  perform 8 (OpClearCell B1) sheet_A1_uses_B1.

(** A sheet with one text cell. *)
Definition sheet_text : Sheet := (run_all 8 [OpSetCell A1 "foo"] Sheet_new).2.

(** D1 = A1 + B1 was evaluated while A1 held the text [foo]: the lookup of
    A1 raised [Value] before B1 = C1 was read, so D1 is cached and B1 is
    not. *)
Definition sheet_stale : Sheet :=
  (run_all 8 [OpSetCell A1 "foo"; OpSetCell B1 "=C1"; OpSetCell D1 "=A1+B1"; OpGetValue D1]
           Sheet_new).2.

Definition changed_C1 : Outcome unit * Sheet := Sheet_SetCell 8 C1 "5" sheet_stale.

(** C1 = B1 and B1 = A1 were evaluated while A1 held [2]. *)
Definition sheet_chain : Sheet :=
  (run_all 8 [OpSetCell A1 "2"; OpSetCell B1 "=A1"; OpSetCell C1 "=B1"; OpGetValue C1]
           Sheet_new).2.

Definition changed_A1 : Outcome unit * Sheet := Sheet_SetCell 8 A1 "10" sheet_chain.

(** B1 = A1 + C1 with A1 holding [5] and C1 holding [foo]. *)
Definition sheet_lookup : Sheet :=
  (run_all 8 [OpSetCell A1 "5"; OpSetCell C1 "foo"; OpSetCell B1 "=A1+C1"] Sheet_new).2.

(** A1 holds [3.14], B1 holds [3abc], C1 holds [ 5] behind a blank and D1
    holds [5] before a blank. *)
Definition sheet_numbers : Sheet :=
  (run_all 8 [OpSetCell A1 "3.14"; OpSetCell B1 "3abc"; OpSetCell C1 " 5"; OpSetCell D1 "5 "]
           Sheet_new).2.

End Examples.

Import Demo Examples.

(** Scenario: [Set(B2,"=A1")] then [ClearCell(B2)] releases B2 and leaves
    A1 as an addressable empty placeholder. *)
Example clear_releases_unreferenced_cell :
  let s := (run_all 8 [OpSetCell (mkPosition 1 1) "=A1"; OpClearCell (mkPosition 1 1)]
                    Sheet_new).2 in
  Sheet_GetCell s (mkPosition 1 1) = Returned None /\
  Sheet_GetCell s A1 = Returned (Some A1) /\
  Sheet_GetCell_const s A1 = Returned None.
Proof. by vm_compute. Qed.

(** Scenario: a formula over an absent cell evaluates to 0, over a text
    cell that is not a number to [Value]. *)
Example values_of_references :
  (Cell_GetValue 8 B1 (run_all 8 [OpSetCell B1 "=A1"] Sheet_new).2).1
    = Returned (VDouble 0) /\
  (Cell_GetValue 8 B1 (run_all 8 [OpSetCell A1 "foo"; OpSetCell B1 "=A1"] Sheet_new).2).1
    = Returned (VError (mkFormulaError Value)) /\
  (Cell_GetValue 8 B1 (run_all 8 [OpSetCell A1 "7"; OpSetCell B1 "=A1+A1"] Sheet_new).2).1
    = Returned (VDouble 14).
Proof. by vm_compute. Qed.

(** A division by zero raises [Div0]; an escaped text shows without its
    escape sign; the text [=] alone is a text, not a formula. *)
Example division_by_zero_and_escape :
  (Execute (fun _ => ret 0%float) (BinaryOpExpr Divide (NumberExpr 1) (NumberExpr 0))
           Sheet_new).1
    = Thrown (ThrownFormulaError (mkFormulaError Div0)) /\
  TextImpl_GetValue "'apples" = Returned (VString "apples") /\
  impl_ <$> slot (run_all 8 [OpSetCell A1 "="] Sheet_new).2 A1 = Some (TextImpl "=").
Proof. by vm_compute. Qed.

(** [SetCell] does not touch the caches of the cells that the new formula
    references: B1 keeps its value when C1 = B1 is set. *)
Example referenced_cell_keeps_cache :
  let s := (run_all 8 [OpSetCell A1 "2"; OpSetCell B1 "=A1"; OpGetValue B1;
                       OpSetCell C1 "=B1"] Sheet_new).2 in
  cache_of s B1 = Some (FDouble 2).
Proof. by vm_compute. Qed.

Lemma used_by_intro s b a c :
  slot s b = Some c -> bool_decide (a ∈ calculated_cells_ c) = true -> used_by s b a.
Proof. intros Hc Ha. exists c. split; [done|]. by apply bool_decide_eq_true in Ha. Qed.

(** The second call of [Set(A1,"=B1"); Set(B1,"=A1")] throws, and A1 still
    has the text [=B1]. *)
Lemma SetCell_cycle_leaves_cells_unchanged_witness :
  rejected_B1.1 = Thrown CircularDependencyException /\
  Cell_GetText <$> slot rejected_B1.2 A1 = Some "=B1"%string.
Proof.
  split; [by vm_compute|].
  pose proof (SetCell_cycle_leaves_cells_unchanged
                8 B1 "=A1" sheet_A1_uses_B1 rejected_B1.2) as Hthm.
  destruct Hthm as (Hsame & _ & _); [by vm_compute|].
  destruct (slot sheet_A1_uses_B1 A1) as [c|] eqn:Hc; [|by vm_compute in Hc].
  rewrite (Hsame _ _ Hc). simpl. f_equal.
  assert (Some c = slot sheet_A1_uses_B1 A1) as Heq by done.
  vm_compute in Heq. injection Heq as ->. by vm_compute.
Defined.

(** C1 as stated fails: [Set(A1,"=A1+C1")] on the new sheet throws
    [CircularDependencyException], and the table, which had no row, now has
    a row of three slots with an empty cell at the target A1 and another at
    the referenced C1; [GetCell(A1)] answered null before the call and
    answers the cell after it. *)
Lemma SetCell_cycle_mutates_sheet :
  rejected_A1_C1.1 = Thrown CircularDependencyException /\
  cells_ Sheet_new = [] /\
  cells_ rejected_A1_C1.2 = [[Some Cell_new; None; Some Cell_new]] /\
  Sheet_GetCell Sheet_new A1 = Returned None /\
  Sheet_GetCell rejected_A1_C1.2 A1 = Returned (Some A1) /\
  Sheet_GetCell Sheet_new C1 = Returned None /\
  Sheet_GetCell rejected_A1_C1.2 C1 = Returned (Some C1) /\
  ~ thrown_before_any_mutation.
Proof.
  repeat (split; [by vm_compute|]).
  intros Hclaim.
  specialize (Hclaim 8%nat A1 "=A1+C1"%string Sheet_new rejected_A1_C1.2).
  assert (slot rejected_A1_C1.2 A1 = slot Sheet_new A1) as Hsame by (apply Hclaim; by vm_compute).
  by vm_compute in Hsame.
Defined.

(** [Set(A1,"=A1")] on the empty sheet throws and leaves an empty cell at A1. *)
Lemma SetCell_cycle_materializes_target_witness :
  Sheet_GetCell Sheet_new A1 = Returned None /\
  in_extent rejected_A1.2 A1 = true /\
  Sheet_GetCell rejected_A1.2 A1 = Returned (Some A1) /\
  exists c, slot rejected_A1.2 A1 = Some c /\ Cell_GetText c = ""%string.
Proof.
  apply (SetCell_cycle_materializes_target 8 A1 "=A1" Sheet_new rejected_A1.2);
    by vm_compute.
Defined.

(** C2 as stated fails: [Set(C1,"5")] succeeds on [sheet_stale], D1 is
    reached from C1 along used-by edges (through B1), and D1 still holds its
    cached value. *)
Lemma SetCell_leaves_dependent_cached :
  changed_C1.1 = Returned tt /\
  rtc (used_by changed_C1.2) C1 D1 /\
  cache_of changed_C1.2 D1 = Some (FError (mkFormulaError Value)) /\
  ~ dependents_uncached changed_C1.2 C1.
Proof.
  assert (rtc (used_by changed_C1.2) C1 D1) as Hpath.
  { apply rtc_l with B1; [|apply rtc_once].
    - eapply used_by_intro; by vm_compute.
    - eapply used_by_intro; by vm_compute. }
  split; [by vm_compute|]. split; [done|]. split; [by vm_compute|].
  intros Hclaim. specialize (Hclaim D1 Hpath). by vm_compute in Hclaim.
Defined.

(** [Set(A1,"10")] on [sheet_chain]: C1 is reached through the cached B1
    and loses the value it held, and still has none after [Set(D1,"1")] and
    [ClearCell(D1)]. *)
Lemma SetCell_invalidates_through_cached_witness :
  cache_of sheet_chain C1 <> None /\ cache_of changed_A1.2 C1 = None /\
  cache_of (run_all 8 [OpSetCell D1 "1"; OpClearCell D1] changed_A1.2).2 C1 = None.
Proof.
  split; [by vm_compute|].
  destruct (SetCell_invalidates_through_cached 8 A1 "10" sheet_chain changed_A1.2 C1)
    as [Hnow Hlater]; [by vm_compute| |].
  { apply invalidated_next with B1.
    - apply invalidated_next with A1; [apply invalidated_self|by left|].
      eapply used_by_intro; by vm_compute.
    - right. by vm_compute.
    - eapply used_by_intro; by vm_compute. }
  split; [done|]. apply Hlater.
  eapply rtc_l; [exists 8%nat, (OpSetCell D1 "1"), (Returned tt); split; [done|by vm_compute]|].
  apply rtc_once. exists 8%nat, (OpClearCell D1), (Returned tt). split; [done|by vm_compute].
Defined.

(** [ClearCell(B1)] while A1 uses B1: the edges stay symmetric and B1 stays
    allocated. *)
Lemma operations_preserve_edge_symmetry_witness :
  symmetric cleared_B1.2 /\ allocated B1 cleared_B1.2.
Proof.
  destruct (operations_preserve_edge_symmetry
              8 (OpSetCell A1 "=B1") Sheet_new (Returned tt) sheet_A1_uses_B1
              symmetric_new) as [Hsym _]; [by vm_compute|].
  destruct (operations_preserve_edge_symmetry
              8 (OpClearCell B1) sheet_A1_uses_B1 cleared_B1.1 cleared_B1.2 Hsym)
    as [Hsym' Halloc]; [by vm_compute|].
  split; [done|]. apply (Halloc B1 A1); [|done].
  eapply used_by_intro; by vm_compute.
Defined.

(** On [sheet_text] the cell A1 holds [foo], and its value is read without
    an exception. *)
Lemma TextImpl_GetValue_branch_unreachable_witness :
  TextImpl_GetValue ""%string = Thrown FormulaException /\
  Cell_GetValue 3 A1 sheet_text <> (Thrown FormulaException, sheet_text).
Proof.
  assert (reachable sheet_text) as Hreach.
  { apply (reachable_step 8 (OpSetCell A1 "foo") Sheet_new (Returned tt));
      [apply reachable_new|by vm_compute]. }
  destruct (TextImpl_GetValue_branch_unreachable sheet_text Hreach) as (Hthrow & _ & _ & Hget).
  split; [done|apply Hget].
Defined.

(** On [sheet_numbers]: A1 holds [3.14] and reads as the double nearest to
    3.14; B1 holds [3abc], of which the extraction reads 3 and leaves [abc],
    and raises [Value]; C1 holds [ 5], whose blank the extraction skips, and
    reads as 5; D1 holds [5] and a blank, which is left unread, and raises
    [Value]; an absent cell reads as 0.  On [sheet_lookup], B1 = A1 + C1 with
    the text [foo] in C1 evaluates to the error value [Value]. *)
Lemma lookup_and_Evaluate_behaviour_witness :
  params (Cell_GetValue 4) (mkPosition 1 0) sheet_numbers = (Returned 0%float, sheet_numbers) /\
  params (Cell_GetValue 4) A1 sheet_numbers
    = (Returned 0x1.91eb851eb851fp+1%float, sheet_numbers) /\
  params (Cell_GetValue 4) B1 sheet_numbers
    = (Thrown (ThrownFormulaError (mkFormulaError Value)), sheet_numbers) /\
  params (Cell_GetValue 4) C1 sheet_numbers = (Returned 5%float, sheet_numbers) /\
  params (Cell_GetValue 4) D1 sheet_numbers
    = (Thrown (ThrownFormulaError (mkFormulaError Value)), sheet_numbers) /\
  Formula_Evaluate (Cell_GetValue 4)
    (mkFormulaAST (BinaryOpExpr Add (CellExpr A1) (CellExpr C1)) [A1; C1]) sheet_lookup
    = (Returned (FError (mkFormulaError Value)), sheet_lookup).
Proof.
  destruct (lookup_and_Evaluate_behaviour 4 (mkPosition 1 0)
              (mkFormulaAST (BinaryOpExpr Add (CellExpr A1) (CellExpr C1)) [A1; C1])
              sheet_lookup) as (_ & _ & _ & Hcatch & _ & _).
  destruct (lookup_and_Evaluate_behaviour 4 (mkPosition 1 0)
              (mkFormulaAST (CellExpr A1) [A1]) sheet_numbers) as (_ & Habsent & _).
  destruct (lookup_and_Evaluate_behaviour 4 A1
              (mkFormulaAST (CellExpr A1) [A1]) sheet_numbers) as (_ & _ & HA1 & _).
  destruct (lookup_and_Evaluate_behaviour 4 B1
              (mkFormulaAST (CellExpr A1) [A1]) sheet_numbers) as (_ & _ & HB1 & _).
  destruct (lookup_and_Evaluate_behaviour 4 C1
              (mkFormulaAST (CellExpr A1) [A1]) sheet_numbers) as (_ & _ & HC1 & _).
  destruct (lookup_and_Evaluate_behaviour 4 D1
              (mkFormulaAST (CellExpr A1) [A1]) sheet_numbers) as (_ & _ & HD1 & _).
  split; [apply Habsent; by vm_compute|]. split; [|split; [|split; [|split]]].
  - destruct (HA1 A1 (VString "3.14") sheet_numbers) as (r & (_ & Hnumber & _) & -> & _);
      [by vm_compute..|].
    f_equal. apply Hnumber; [done|by vm_compute].
  - destruct (HB1 B1 (VString "3abc") sheet_numbers) as (r & (_ & _ & Hother) & -> & _);
      [by vm_compute..|].
    f_equal. apply Hother; [done|]. intros d Hd. by vm_compute in Hd.
  - destruct (HC1 C1 (VString " 5") sheet_numbers) as (r & (_ & Hnumber & _) & -> & _);
      [by vm_compute..|].
    f_equal. apply Hnumber; [done|by vm_compute].
  - destruct (HD1 D1 (VString "5 ") sheet_numbers) as (r & (_ & _ & Hother) & -> & _);
      [by vm_compute..|].
    f_equal. apply Hother; [done|]. intros d Hd. by vm_compute in Hd.
  - apply Hcatch. by vm_compute.
Defined.

(** A1 was set and then hidden behind an empty placeholder at B1. *)
Lemma GetCell_overloads_witness :
  Sheet_GetCell_const sheet_A1_uses_B1 B1 = Returned None /\
  Sheet_GetCell sheet_A1_uses_B1 B1 = Returned (Some B1).
Proof.
  destruct (GetCell_overloads sheet_A1_uses_B1 B1) as [_ Hvalid].
  destruct (Hvalid eq_refl) as (Hnull & _ & Hstored & _).
  split.
  - apply Hnull. right. right. exists (set_calculated {[A1]} Cell_new).
    split; by vm_compute.
  - apply (Hstored (set_calculated {[A1]} Cell_new)). by vm_compute.
Defined.

(** ** The further properties on the concrete instance *)

(** The sample parser lists the cells of the expression it builds. *)
Lemma parse_collects_cells : parser_collects_cells.
Proof.
  intros text ast. simpl. unfold parse.
  destruct (span not_operator text) as [first rest].
  destruct (Position_FromString first) as [a|]; [|done].
  destruct rest as [|o second].
  - intros [= <-] p. by simpl.
  - destruct (operator_of o) as [op|]; [|done].
    destruct (Position_FromString second) as [b|]; [|done].
    intros [= <-] p. by simpl.
Qed.

(** On [sheet_A1_uses_B1] the check of the candidate [=A1] for B1 answers
    [true], and A1 reaches B1. *)
Lemma CheckCircularDependencies_decides_reachability_witness :
  exists q, q ∈ Impl_GetReferencedCells (FormulaImpl None (mkFormulaAST (CellExpr A1) [A1])) /\
            rtc (refers sheet_A1_uses_B1) q B1.
Proof.
  destruct (CheckCircularDependencies_decides_reachability
              8 (FormulaImpl None (mkFormulaAST (CellExpr A1) [A1])) B1
              sheet_A1_uses_B1 true) as [Hpath _]; [by vm_compute|].
  by apply Hpath.
Defined.

(** [sheet_A1_uses_B1] has no cycle through A1. *)
Lemma reachable_sheets_have_no_cycle_witness :
  ~ tc (refers sheet_A1_uses_B1) A1 A1 /\ ~ tc (uses sheet_A1_uses_B1) A1 A1 /\
  ~ tc (used_by sheet_A1_uses_B1) A1 A1.
Proof.
  apply (reachable_sheets_have_no_cycle sheet_A1_uses_B1 A1).
  apply (reachable_step 8 (OpSetCell A1 "=B1") Sheet_new (Returned tt));
    [apply reachable_new|by vm_compute].
Defined.

(** [Set(B1,"=A1")] on [sheet_A1_uses_B1] throws, and its formula
    references a cell that reaches B1. *)
Lemma SetCell_rejects_exactly_cycles_witness :
  exists rest ast q,
    "=A1"%string = String FORMULA_SIGN rest /\ ParseFormulaAST rest = Some ast /\
    q ∈ Formula_GetReferencedCells ast /\ rtc (refers sheet_A1_uses_B1) q B1.
Proof.
  destruct (SetCell_rejects_exactly_cycles
              8 B1 "=A1" sheet_A1_uses_B1 rejected_B1.1 rejected_B1.2) as [Hthrown _];
    [by vm_compute|].
  apply Hthrown. by vm_compute.
Defined.

(** [Set(B1,"=A1")] on [sheet_A1_uses_B1] ends. *)
Lemma SetCell_ends_with_decided_outcome_witness :
  exists N, forall fuel, (N <= fuel)%nat ->
    exists o s', Sheet_SetCell fuel B1 "=A1" sheet_A1_uses_B1 = (o, s') /\
      if IsValid B1 then Set_answer sheet_A1_uses_B1 B1 "=A1" o
      else o = Thrown InvalidPositionException.
Proof.
  apply (SetCell_ends_with_decided_outcome sheet_A1_uses_B1 B1 "=A1").
  apply (reachable_step 8 (OpSetCell A1 "=B1") Sheet_new (Returned tt));
    [apply reachable_new|by vm_compute].
Defined.

(** [Set(A1,"=B1")] on the new sheet stores the formula and wires B1. *)
Lemma SetCell_stores_candidate_witness :
  exists impl c',
    candidate_of "=B1" = Returned impl /\
    slot sheet_A1_uses_B1 A1 = Some c' /\ impl_ c' = impl /\
    Cell_GetText c' = Impl_GetText impl.
Proof.
  destruct (SetCell_stores_candidate 8 A1 "=B1" Sheet_new sheet_A1_uses_B1)
    as (impl & c' & Hof & Hc' & Himpl & Htext & _); [apply reachable_new|by vm_compute|].
  by exists impl, c'.
Defined.

(** [Set(A1,"foo")] on the new sheet: A1 reads back as [foo]. *)
Lemma SetCell_text_round_trip_witness :
  (exists c', slot sheet_text A1 = Some c' /\ Cell_GetText c' = "foo"%string) /\
  Sheet_GetCell_const sheet_text A1 = Returned (Some A1) /\
  Cell_GetValue 1 A1 sheet_text = (Returned (VString (shown "foo")), sheet_text).
Proof.
  apply (SetCell_text_round_trip 8 A1 "foo" Sheet_new sheet_text 0);
    [apply reachable_new|done|by intros rest [=]|by vm_compute].
Defined.

(** [ClearCell(A1)] on [sheet_A1_uses_B1] ends and releases A1, which no
    cell uses. *)
Lemma ClearCell_releases_or_empties_witness :
  exists N, forall fuel, (N <= fuel)%nat ->
    exists o s', Sheet_ClearCell fuel A1 sheet_A1_uses_B1 = (o, s') /\
                 o = Returned tt /\ slot s' A1 = None.
Proof.
  destruct (ClearCell_releases_or_empties sheet_A1_uses_B1 A1) as [N HN].
  { apply (reachable_step 8 (OpSetCell A1 "=B1") Sheet_new (Returned tt));
      [apply reachable_new|by vm_compute]. }
  exists N. intros fuel Hfuel. destruct (HN fuel Hfuel) as (o & s' & Hrun & Hshape).
  exists o, s'. split; [done|]. revert Hshape. generalize (slot s' A1). by vm_compute.
Defined.

(** [ClearCell(B1)] on [sheet_A1_uses_B1] leaves the text of A1. *)
Lemma operations_leave_other_cells_witness :
  untouched A1 sheet_A1_uses_B1 cleared_B1.2.
Proof.
  apply (operations_leave_other_cells
           8 (OpClearCell B1) sheet_A1_uses_B1 cleared_B1.1 cleared_B1.2 A1);
    [|by vm_compute|by intros [=]].
  apply (reachable_step 8 (OpSetCell A1 "=B1") Sheet_new (Returned tt));
    [apply reachable_new|by vm_compute].
Defined.

(** B1 = A1 + A1 with A1 holding [7]: the second read gives 14 again. *)
Lemma GetValue_again_witness :
  let s := (run_all 8 [OpSetCell A1 "7"; OpSetCell B1 "=A1+A1"] Sheet_new).2 in
  Cell_GetValue 1 B1 (Cell_GetValue 8 B1 s).2
  = (Returned (VDouble 14), (Cell_GetValue 8 B1 s).2).
Proof.
  intros s. apply (GetValue_again 8 B1 s). by vm_compute.
Defined.

(** [ClearCell(B1)] on [sheet_A1_uses_B1] dereferences no null pointer. *)
Lemma operations_never_dereference_null_witness :
  cleared_B1.1 <> Thrown NullDereference.
Proof.
  apply (operations_never_dereference_null
           8 (OpClearCell B1) sheet_A1_uses_B1 cleared_B1.1 cleared_B1.2);
    [|by vm_compute].
  apply (reachable_step 8 (OpSetCell A1 "=B1") Sheet_new (Returned tt));
    [apply reachable_new|by vm_compute].
Defined.

(** On [sheet_A1_uses_B1] the cell A1 uses B1 and not itself. *)
Lemma using_cells_are_the_references_witness :
  exists c, slot sheet_A1_uses_B1 A1 = Some c /\
            (forall q, q ∈ using_cells_ c <-> q ∈ Cell_GetReferencedCells c) /\
            A1 ∉ using_cells_ c.
Proof.
  destruct (slot sheet_A1_uses_B1 A1) as [c|] eqn:Hc; [|by vm_compute in Hc].
  destruct (using_cells_are_the_references sheet_A1_uses_B1 A1 c) as (Hrefs & _ & Hself);
    [|done|by exists c].
  apply (reachable_step 8 (OpSetCell A1 "=B1") Sheet_new (Returned tt));
    [apply reachable_new|by vm_compute].
Defined.

(** [Set(A1,"foo")] on the new sheet makes the printable area cover A1. *)
Lemma SetCell_extends_printable_area_witness :
  Sheet_GetCell_const sheet_text A1 = Returned (Some A1) /\
  row A1 < rows (Sheet_GetPrintableSize sheet_text) /\
  col A1 < cols (Sheet_GetPrintableSize sheet_text).
Proof.
  apply (SetCell_extends_printable_area 8 A1 "foo" Sheet_new sheet_text);
    [apply reachable_new|done|by vm_compute].
Defined.

(** [ClearCell(B1)] on [sheet_A1_uses_B1] hides B1 from the read-only
    lookup. *)
Lemma ClearCell_shrinks_printable_area_witness :
  Sheet_GetCell_const cleared_B1.2 B1 = Returned None /\
  rows (Sheet_GetPrintableSize cleared_B1.2) <= rows (Sheet_GetPrintableSize sheet_A1_uses_B1) /\
  cols (Sheet_GetPrintableSize cleared_B1.2) <= cols (Sheet_GetPrintableSize sheet_A1_uses_B1).
Proof.
  apply (ClearCell_shrinks_printable_area 8 B1 sheet_A1_uses_B1 cleared_B1.2);
    [|by vm_compute].
  apply (reachable_step 8 (OpSetCell A1 "=B1") Sheet_new (Returned tt));
    [apply reachable_new|by vm_compute].
Defined.

(** With the sample parser, reading A1 on [sheet_A1_uses_B1] ends. *)
Lemma GetValue_ends_witness :
  exists N, forall fuel, (N <= fuel)%nat ->
    exists v s', Cell_GetValue fuel A1 sheet_A1_uses_B1 = (Returned v, s').
Proof.
  apply (GetValue_ends sheet_A1_uses_B1 A1); [| |by vm_compute].
  - apply parse_collects_cells.
  - apply (reachable_step 8 (OpSetCell A1 "=B1") Sheet_new (Returned tt));
      [apply reachable_new|by vm_compute].
Defined.

(** With the sample parser, printing the values of [sheet_A1_uses_B1]
    ends. *)
Lemma PrintValues_ends_witness :
  exists N, forall fuel, (N <= fuel)%nat ->
    exists s', Sheet_PrintValues fuel sheet_A1_uses_B1 = (Returned tt, s') /\
               same_but_caches sheet_A1_uses_B1 s' /\
               Sheet_GetPrintableSize s' = Sheet_GetPrintableSize sheet_A1_uses_B1.
Proof.
  apply (PrintValues_ends sheet_A1_uses_B1); [apply parse_collects_cells|].
  apply (reachable_step 8 (OpSetCell A1 "=B1") Sheet_new (Returned tt));
    [apply reachable_new|by vm_compute].
Defined.

(** [Set(B1,"=foo")] on [sheet_A1_uses_B1]: the sample parser rejects
    [foo], and A1 is as it was. *)
Lemma SetCell_FormulaException_keeps_cells_witness :
  (Sheet_SetCell 8 B1 "=foo" sheet_A1_uses_B1).1 = Thrown FormulaException /\
  slot (Sheet_SetCell 8 B1 "=foo" sheet_A1_uses_B1).2 A1 = slot sheet_A1_uses_B1 A1.
Proof.
  split; [by vm_compute|].
  destruct (SetCell_FormulaException_keeps_cells
              8 B1 "=foo" sheet_A1_uses_B1 (Sheet_SetCell 8 B1 "=foo" sheet_A1_uses_B1).2)
    as (_ & _ & _ & _ & Hothers); [by vm_compute|].
  by apply Hothers.
Defined.
